(** * A shallow embedding of the chat repository (src/storage/repository.ts)

    The development follows the embedded (IndexedDB) code path of
    [ChatRepository] together with the helpers of [utils.ts] it calls.

    - JavaScript strings are sequences of UTF-16 code units ([JsString]).
    - Timestamps and byte counts are integers ([Z]).
    - An object store is the list of its records in ascending key order,
      which is what [getAll] returns; [put] inserts or replaces by key.
    - [Date.now()] and [crypto.randomUUID()] are inputs of every operation
      ([Env]): the n-th call of [createId] inside one operation receives
      [uuid n].
    - [SyncBus.publish] is recorded as a log of event types. *)

From Stdlib.Strings Require Import String Ascii Byte.
From Stdlib Require Import List ZArith Bool Lia.
From Stdlib Require Import Permutation Sorted.
Import ListNotations.

Local Open Scope Z_scope.

(* ================================================================== *)
(** ** JavaScript strings *)

Definition JsString := list Z.

(** A literal, code unit by code unit. *)
Definition js (s : string) : JsString :=
  List.map (fun c => Z.of_nat (nat_of_ascii c)) (list_ascii_of_string s).
Arguments js s%_string : simpl never.

Fixpoint str_eqb (a b : JsString) : bool :=
  match a, b with
  | [], [] => true
  | x :: a', y :: b' => (x =? y) && str_eqb a' b'
  | _, _ => false
  end.

(** Comparison of strings by code units, the order of [Array.prototype.sort]
    without comparator and of IndexedDB keys. *)
Fixpoint str_compare (a b : JsString) : comparison :=
  match a, b with
  | [], [] => Eq
  | [], _ :: _ => Lt
  | _ :: _, [] => Gt
  | x :: a', y :: b' =>
      match x ?= y with
      | Eq => str_compare a' b'
      | c => c
      end
  end.

Definition str_leb (a b : JsString) : bool :=
  match str_compare a b with Gt => false | _ => true end.

(** WhiteSpace and LineTerminator code units, as [String.prototype.trim]
    removes them. *)
Definition isWhiteSpace (c : Z) : bool :=
  (c =? 9) || (c =? 10) || (c =? 11) || (c =? 12) || (c =? 13) || (c =? 32)
  || (c =? 160) || (c =? 5760) || ((8192 <=? c) && (c <=? 8202))
  || (c =? 8232) || (c =? 8233) || (c =? 8239) || (c =? 8287)
  || (c =? 12288) || (c =? 65279).

Fixpoint trimStart (s : JsString) : JsString :=
  match s with
  | c :: s' => if isWhiteSpace c then trimStart s' else s
  | [] => []
  end.

Definition trimEnd (s : JsString) : JsString := rev (trimStart (rev s)).

Definition trim (s : JsString) : JsString := trimEnd (trimStart s).

Fixpoint startsWith (s prefix : JsString) : bool :=
  match prefix, s with
  | [], _ => true
  | p :: prefix', c :: s' => (c =? p) && startsWith s' prefix'
  | _ :: _, [] => false
  end.

(** [s.length] *)
Definition str_length (s : JsString) : Z := Z.of_nat (length s).

(* ================================================================== *)
(** ** utils.ts *)

Definition COLORS : list JsString :=
  [ js "#0ea5e9"; js "#10b981"; js "#f59e0b"; js "#ef4444";
    js "#6366f1"; js "#14b8a6"; js "#f97316"; js "#22c55e" ].

(** [x | 0]: the signed 32-bit integer congruent to [x]. *)
Definition toInt32 (x : Z) : Z := (x + 2 ^ 31) mod 2 ^ 32 - 2 ^ 31.

(** One round of the loop of [pickAvatarColor]:
    [hash = (hash << 5) - hash + seed.charCodeAt(i); hash |= 0]. *)
Definition hashStep (hash c : Z) : Z :=
  toInt32 (toInt32 (Z.shiftl (toInt32 hash) 5) - hash + c).

Definition hashOf (seed : JsString) : Z := fold_left hashStep seed 0.

Definition pickAvatarColor (seed : JsString) : JsString :=
  nth (Z.to_nat (Z.abs (hashOf seed) mod Z.of_nat (length COLORS))) COLORS [].

Definition isImageMime (mimeType : JsString) : bool :=
  startsWith mimeType (js "image/").

Abbreviation Id := JsString.

(** [createId(prefix)]: [`${prefix}_${rand}`], with [rand] the value
    [crypto.randomUUID()] returned. *)
Definition createId (prefix : string) (rand : JsString) : Id :=
  js prefix ++ js "_" ++ rand.
Arguments createId prefix%_string rand : simpl never.

(* ================================================================== *)
(** ** types.ts *)

Inductive ChatType := dm | group.
Inductive MembershipRole := owner | member.
Module MessageType.
Inductive t := text | system | file | image | mixed.
End MessageType.
Module AttachmentKind.
Inductive t := image | file.
End AttachmentKind.

Inductive SyncEventType :=
| profiles_changed | chats_changed | messages_changed
| memberships_changed | seed_completed.

Module Profile.
Record t := mk {
  id : Id;
  displayName : JsString;
  avatarColor : JsString;
  createdAt : Z;
  updatedAt : Z }.
End Profile.

Module Chat.
Record t := mk {
  id : Id;
  type : ChatType;
  title : option JsString;
  createdByProfileId : Id;
  createdAt : Z;
  updatedAt : Z;
  lastMessageAt : option Z }.
End Chat.

Module ChatMembership.
Record t := mk {
  id : Id;
  chatId : Id;
  profileId : Id;
  role : MembershipRole;
  joinedAt : Z;
  leftAt : option Z }.
End ChatMembership.

Module Message.
Record t := mk {
  id : Id;
  chatId : Id;
  senderProfileId : Id;
  type : MessageType.t;
  text : option JsString;
  attachmentIds : list Id;
  createdAt : Z }.
End Message.

Module AttachmentMeta.
Record t := mk {
  id : Id;
  messageId : Id;
  chatId : Id;
  kind : AttachmentKind.t;
  fileName : JsString;
  mimeType : JsString;
  sizeBytes : Z;
  blobKey : JsString;
  createdAt : Z }.
End AttachmentMeta.

(** A [File]: its name, its MIME type and its bytes; [size] is the number
    of bytes. *)
Module File.
Record t := mk {
  name : JsString;
  type : JsString;
  bytes : list byte }.
Definition size (f : t) : Z := Z.of_nat (length (bytes f)).
End File.

Module AttachmentWithBlob.
Record t := mk {
  meta : AttachmentMeta.t;
  blob : File.t }.
End AttachmentWithBlob.

Module MessageWithAttachments.
Record t := mk {
  message : Message.t;
  attachments : list AttachmentWithBlob.t }.
End MessageWithAttachments.

Module ChatListItem.
Record t := mk {
  chat : Chat.t;
  title : JsString;
  subtitle : JsString;
  lastMessageAt : option Z;
  memberCount : Z }.
End ChatListItem.

Module SendMessageInput.
Record t := mk {
  chatId : Id;
  senderProfileId : Id;
  text : JsString;
  files : list File.t }.
End SendMessageInput.

Module CreateGroupInput.
Record t := mk {
  title : JsString;
  ownerProfileId : Id;
  memberProfileIds : list Id }.
End CreateGroupInput.

(* ================================================================== *)
(** ** Arrays, sets and maps of the JavaScript runtime *)

Section Arrays.
Context {A : Type}.

(** [Array.prototype.sort(cmp)]: a stable sort; [x] stays before an equal
    element that followed it. *)
Fixpoint insertBy (cmp : A -> A -> Z) (x : A) (l : list A) : list A :=
  match l with
  | [] => [x]
  | y :: l' => if cmp x y <=? 0 then x :: l else y :: insertBy cmp x l'
  end.

Fixpoint sortBy (cmp : A -> A -> Z) (l : list A) : list A :=
  match l with
  | [] => []
  | x :: l' => insertBy cmp x (sortBy cmp l')
  end.

(** [array[array.length - 1]] *)
Definition lastOf (l : list A) : option A :=
  match rev l with x :: _ => Some x | [] => None end.

(** [array.map((x, index) => f(x, index))], counting from [i]. *)
Fixpoint mapi_from (i : nat) {B} (f : nat -> A -> B) (l : list A) : list B :=
  match l with
  | [] => []
  | x :: l' => f i x :: mapi_from (S i) f l'
  end.
End Arrays.

(** [strings.sort()]: ascending by code units. *)
Definition sortStrings (l : list JsString) : list JsString :=
  sortBy (fun a b => match str_compare a b with Lt => -1 | Eq => 0 | Gt => 1 end) l.

Definition str_mem (x : Id) (l : list Id) : bool := existsb (str_eqb x) l.

(** [[...new Set(ids)]]: the first occurrence of every id, in order. *)
Fixpoint unique (l : list Id) : list Id :=
  match l with
  | [] => []
  | x :: l' => x :: filter (fun y => negb (str_eqb x y)) (unique l')
  end.

Section GroupBy.
Context {T : Type}.

(** A [Map<Id, T[]>] as the list of its entries in insertion order. *)
Definition Groups := list (Id * list T).

Fixpoint groupAdd (k : Id) (item : T) (m : Groups) : Groups :=
  match m with
  | [] => [(k, [item])]
  | (k', arr) :: m' =>
      if str_eqb k' k then (k', arr ++ [item]) :: m'
      else (k', arr) :: groupAdd k item m'
  end.

Definition groupBy (keySelector : T -> Id) (items : list T) : Groups :=
  fold_left (fun m item => groupAdd (keySelector item) item m) items [].

Fixpoint mapGet (k : Id) (m : Groups) : option (list T) :=
  match m with
  | [] => None
  | (k', arr) :: m' => if str_eqb k' k then Some arr else mapGet k m'
  end.

(** [map.get(k) ?? []] *)
Definition mapGetOrEmpty (k : Id) (m : Groups) : list T :=
  match mapGet k m with Some arr => arr | None => [] end.
End GroupBy.
Arguments Groups : clear implicits.

(* ================================================================== *)
(** ** Object stores *)

Section Store.
Context {V : Type} (key : V -> Id).

Definition hasKey (k : Id) (s : list V) : bool :=
  existsb (fun v => str_eqb (key v) k) s.

(** [getByKey]: the record stored under [k], if any. *)
Definition getByKey (k : Id) (s : list V) : option V :=
  find (fun v => str_eqb (key v) k) s.

Fixpoint insertSorted (v : V) (s : list V) : list V :=
  match s with
  | [] => [v]
  | u :: s' =>
      if str_leb (key v) (key u) then v :: s else u :: insertSorted v s'
  end.

Definition replaceKey (v : V) (s : list V) : list V :=
  List.map (fun u => if str_eqb (key u) (key v) then v else u) s.

(** [objectStore.put(v)]: replaces the record that has the key of [v],
    or adds [v] at its place in key order. *)
Definition put (v : V) (s : list V) : list V :=
  if hasKey (key v) s then replaceKey v s else insertSorted v s.

(** [records.forEach((r) => store.put(r))] *)
Definition putAll (vs : list V) (s : list V) : list V :=
  fold_left (fun s v => put v s) vs s.
End Store.

(** The database of the repository together with the events published on
    the sync bus, oldest first. *)
Record World := mkWorld {
  profiles : list Profile.t;
  chats : list Chat.t;
  memberships : list ChatMembership.t;
  messages : list Message.t;
  attachmentsMeta : list AttachmentMeta.t;
  attachmentsBlob : list (JsString * File.t);
  published : list SyncEventType }.

Definition emptyWorld : World := mkWorld [] [] [] [] [] [] [].

Definition with_profiles (w : World) (s : list Profile.t) : World :=
  mkWorld s (chats w) (memberships w) (messages w) (attachmentsMeta w)
    (attachmentsBlob w) (published w).
Definition with_chats (w : World) (s : list Chat.t) : World :=
  mkWorld (profiles w) s (memberships w) (messages w) (attachmentsMeta w)
    (attachmentsBlob w) (published w).
Definition with_memberships (w : World) (s : list ChatMembership.t) : World :=
  mkWorld (profiles w) (chats w) s (messages w) (attachmentsMeta w)
    (attachmentsBlob w) (published w).
Definition with_messages (w : World) (s : list Message.t) : World :=
  mkWorld (profiles w) (chats w) (memberships w) s (attachmentsMeta w)
    (attachmentsBlob w) (published w).
Definition with_attachmentsMeta (w : World) (s : list AttachmentMeta.t) : World :=
  mkWorld (profiles w) (chats w) (memberships w) (messages w) s
    (attachmentsBlob w) (published w).
Definition with_attachmentsBlob (w : World) (s : list (JsString * File.t)) : World :=
  mkWorld (profiles w) (chats w) (memberships w) (messages w)
    (attachmentsMeta w) s (published w).

(** [this.publish(type)] *)
Definition publish (type : SyncEventType) (w : World) : World :=
  mkWorld (profiles w) (chats w) (memberships w) (messages w)
    (attachmentsMeta w) (attachmentsBlob w) (published w ++ [type]).

(** What one operation reads from outside: the clock and the values of
    [crypto.randomUUID()], in the order of the calls of [createId]. *)
Record Env := mkEnv {
  now : Z;
  uuid : nat -> JsString }.

(** The result of an operation that may throw. *)
Inductive Outcome (A : Type) :=
| Returned (a : A)
| Thrown (message : JsString).
Arguments Returned {A} a.
Arguments Thrown {A} message.

(* ================================================================== *)
(** ** ChatRepository *)

Definition maxFileBytes : Z := 10 * 1024 * 1024.
Definition maxTotalBytes : Z := 100 * 1024 * 1024.

Definition isNull {A} (o : option A) : bool :=
  match o with None => true | Some _ => false end.

Definition option_str_eqb (a b : option JsString) : bool :=
  match a, b with
  | Some x, Some y => str_eqb x y
  | None, None => true
  | _, _ => false
  end.

Definition createProfile (env : Env) (displayName : JsString) (w : World)
  : Profile.t * World :=
  let profile :=
    Profile.mk (createId "profile" (uuid env 0)) (trim displayName)
      (pickAvatarColor displayName) (now env) (now env) in
  (profile,
   publish profiles_changed
     (with_profiles w (put Profile.id profile (profiles w)))).

Definition getChat (chatId : Id) (w : World) : option Chat.t :=
  getByKey Chat.id chatId (chats w).

Definition getProfileById (profileId : Id) (w : World) : option Profile.t :=
  getByKey Profile.id profileId (profiles w).

Definition getMembershipsByChat (chatId : Id) (w : World)
  : list ChatMembership.t :=
  filter (fun membership => str_eqb (ChatMembership.chatId membership) chatId)
    (memberships w).

Definition dmPairMatches (a b : Id) (ids : list Id) : bool :=
  (length ids =? 2)%nat
  && option_str_eqb (nth_error ids 0) (nth_error (sortStrings [a; b]) 0)
  && option_str_eqb (nth_error ids 1) (nth_error (sortStrings [a; b]) 1).

Fixpoint findExistingDm_loop (a b : Id)
    (membersByChat : Groups ChatMembership.t) (chats : list Chat.t)
  : option Chat.t :=
  match chats with
  | [] => None
  | chat :: rest =>
      match Chat.type chat with
      | group => findExistingDm_loop a b membersByChat rest
      | dm =>
          let members := mapGetOrEmpty (Chat.id chat) membersByChat in
          let ids := sortStrings (List.map ChatMembership.profileId members) in
          if dmPairMatches a b ids then Some chat
          else findExistingDm_loop a b membersByChat rest
      end
  end.

Definition findExistingDm (a b : Id) (w : World) : option Chat.t :=
  let active :=
    filter (fun m => isNull (ChatMembership.leftAt m)) (memberships w) in
  let membersByChat := groupBy ChatMembership.chatId active in
  findExistingDm_loop a b membersByChat (chats w).

Definition createDm (env : Env) (activeProfileId otherProfileId : Id)
    (w : World) : Chat.t * World :=
  match findExistingDm activeProfileId otherProfileId w with
  | Some existing => (existing, w)
  | None =>
      let chat :=
        Chat.mk (createId "chat" (uuid env 0)) dm None activeProfileId
          (now env) (now env) None in
      let newMemberships :=
        mapi_from 0
          (fun index profileId =>
             ChatMembership.mk (createId "membership" (uuid env (1 + index)))
               (Chat.id chat) profileId
               (if (index =? 0)%nat then owner else member) (now env) None)
          [activeProfileId; otherProfileId] in
      let w1 := with_chats w (put Chat.id chat (chats w)) in
      let w2 :=
        with_memberships w1
          (putAll ChatMembership.id newMemberships (memberships w1)) in
      (chat, publish memberships_changed (publish chats_changed w2))
  end.

Definition createGroup (env : Env) (input : CreateGroupInput.t) (w : World)
  : Chat.t * World :=
  let ownerId := CreateGroupInput.ownerProfileId input in
  let uniqueMembers :=
    unique (ownerId :: CreateGroupInput.memberProfileIds input) in
  let chat :=
    Chat.mk (createId "chat" (uuid env 0)) group
      (Some (match trim (CreateGroupInput.title input) with
             | [] => js "Untitled Group"
             | t => t
             end))
      ownerId (now env) (now env) (Some (now env)) in
  let newMemberships :=
    mapi_from 0
      (fun index profileId =>
         ChatMembership.mk (createId "membership" (uuid env (1 + index)))
           (Chat.id chat) profileId
           (if str_eqb profileId ownerId then owner else member)
           (now env) None)
      uniqueMembers in
  let systemMessage :=
    Message.mk (createId "msg" (uuid env (1 + length uniqueMembers)))
      (Chat.id chat) ownerId MessageType.system (Some (js "Group created")) [] (now env) in
  let w1 := with_chats w (put Chat.id chat (chats w)) in
  let w2 :=
    with_memberships w1
      (putAll ChatMembership.id newMemberships (memberships w1)) in
  let w3 := with_messages w2 (put Message.id systemMessage (messages w2)) in
  (chat,
   publish messages_changed
     (publish memberships_changed (publish chats_changed w3))).

(** [put({...existingChat, updatedAt: now, lastMessageAt: now})] when the
    chat exists. *)
Definition touchChat (existingChat : option Chat.t) (at_ : Z) (w : World)
  : World :=
  match existingChat with
  | Some c =>
      with_chats w
        (put Chat.id
           (Chat.mk (Chat.id c) (Chat.type c) (Chat.title c)
              (Chat.createdByProfileId c) (Chat.createdAt c) at_ (Some at_))
           (chats w))
  | None => w
  end.

Definition profileNameOrUser (profileId : Id) (w : World) : JsString :=
  match getProfileById profileId w with
  | Some p => Profile.displayName p
  | None => js "User"
  end.

(** The loop of [addGroupMembers] over the de-duplicated ids; [n] counts
    the calls of [createId] made so far, and [names] is the database as
    read before the transaction, where [namesById] comes from. *)
Fixpoint addGroupMembers_loop (env : Env) (chatId actorProfileId : Id)
    (activeMemberSet : list Id) (names : World) (ids : list Id) (n : nat)
    (w : World) : World :=
  match ids with
  | [] => w
  | profileId :: rest =>
      if str_mem profileId activeMemberSet
      then addGroupMembers_loop env chatId actorProfileId activeMemberSet
             names rest n w
      else
        let membership :=
          ChatMembership.mk (createId "membership" (uuid env n)) chatId
            profileId member (now env) None in
        let message :=
          Message.mk (createId "msg" (uuid env (S n))) chatId actorProfileId
            MessageType.system
            (Some (profileNameOrUser profileId names
                   ++ js " was added to the group"))
            [] (now env) in
        let w1 :=
          with_memberships w (put ChatMembership.id membership (memberships w)) in
        let w2 := with_messages w1 (put Message.id message (messages w1)) in
        addGroupMembers_loop env chatId actorProfileId activeMemberSet
          names rest (S (S n)) w2
  end.

Definition addGroupMembers (env : Env) (chatId actorProfileId : Id)
    (profileIds : list Id) (w : World) : World :=
  let ids := unique profileIds in
  match ids with
  | [] => w
  | _ =>
      let currentMemberships := getMembershipsByChat chatId w in
      let existingChat := getChat chatId w in
      let activeMemberSet :=
        List.map ChatMembership.profileId
          (filter (fun m => isNull (ChatMembership.leftAt m))
             currentMemberships) in
      let w1 :=
        addGroupMembers_loop env chatId actorProfileId activeMemberSet w
          ids 0 w in
      let w2 := touchChat existingChat (now env) w1 in
      publish chats_changed
        (publish messages_changed (publish memberships_changed w2))
  end.

Definition leaveGroup (env : Env) (chatId profileId : Id) (w : World)
  : World :=
  match
    find (fun m => str_eqb (ChatMembership.profileId m) profileId
                   && isNull (ChatMembership.leftAt m))
      (getMembershipsByChat chatId w)
  with
  | None => w
  | Some active =>
      let existingChat := getChat chatId w in
      let left :=
        ChatMembership.mk (ChatMembership.id active)
          (ChatMembership.chatId active) (ChatMembership.profileId active)
          (ChatMembership.role active) (ChatMembership.joinedAt active)
          (Some (now env)) in
      let message :=
        Message.mk (createId "msg" (uuid env 0)) chatId profileId
          MessageType.system
          (Some (profileNameOrUser profileId w ++ js " left the group"))
          [] (now env) in
      let w1 :=
        with_memberships w (put ChatMembership.id left (memberships w)) in
      let w2 := with_messages w1 (put Message.id message (messages w1)) in
      let w3 := touchChat existingChat (now env) w2 in
      publish chats_changed
        (publish messages_changed (publish memberships_changed w3))
  end.

Definition canProfileAccessChat (profileId chatId : Id) (w : World) : bool :=
  existsb
    (fun m => str_eqb (ChatMembership.profileId m) profileId
              && isNull (ChatMembership.leftAt m))
    (getMembershipsByChat chatId w).

Definition deriveMessageType (text : JsString) (files : list File.t)
  : MessageType.t :=
  match files with
  | [] => MessageType.text
  | [f] =>
      match text with
      | [] =>
          if isImageMime (File.type f)
          then MessageType.image else MessageType.file
      | _ => MessageType.mixed
      end
  | _ => MessageType.mixed
  end.

(** [validateFile]: [None] for [{ ok: true }], otherwise the reason. *)
Definition validateFile (f : File.t) : option JsString :=
  if File.size f >? maxFileBytes
  then Some (js "File " ++ [34] ++ File.name f ++ [34]
             ++ js " is larger than 10 MB.")
  else None.

Definition getTotalAttachmentBytes (w : World) : Z :=
  fold_left (fun sum meta => sum + AttachmentMeta.sizeBytes meta)
    (attachmentsMeta w) 0.

(** The first file that [validateFile] rejects, with the reason. *)
Fixpoint validateFiles (files : list File.t) : option JsString :=
  match files with
  | [] => None
  | f :: rest =>
      match validateFile f with
      | Some reason => Some reason
      | None => validateFiles rest
      end
  end.

(** The [AttachmentMeta] the transaction of [sendMessage] stores for a
    file; [rand] is the UUID drawn for its id. *)
Definition attachmentMetaOf (env : Env) (messageId chatId : Id)
    (rand : JsString) (f : File.t) : AttachmentMeta.t :=
  let attachmentId := createId "att" rand in
  AttachmentMeta.mk attachmentId messageId chatId
    (if isImageMime (File.type f)
     then AttachmentKind.image else AttachmentKind.file)
    (File.name f)
    (match File.type f with
     | [] => js "application/octet-stream"
     | t => t
     end)
    (File.size f) (js "blob_" ++ attachmentId) (now env).

(** The loop of the transaction of [sendMessage]: one [AttachmentMeta] and
    one blob per file; returns the attachment ids pushed so far. [n]
    counts the calls of [createId] made so far. *)
Fixpoint storeFiles (env : Env) (messageId chatId : Id) (files : list File.t)
    (n : nat) (attachmentIds : list Id) (w : World) : list Id * World :=
  match files with
  | [] => (attachmentIds, w)
  | f :: rest =>
      let meta := attachmentMetaOf env messageId chatId (uuid env n) f in
      let w1 :=
        with_attachmentsMeta w
          (put AttachmentMeta.id meta (attachmentsMeta w)) in
      let w2 :=
        with_attachmentsBlob w1
          (put fst (AttachmentMeta.blobKey meta, f) (attachmentsBlob w1)) in
      storeFiles env messageId chatId rest (S n)
        (attachmentIds ++ [AttachmentMeta.id meta]) w2
  end.

(** [files.reduce((sum, file) => sum + file.size, 0)] *)
Definition sumFileSizes (files : list File.t) : Z :=
  fold_left (fun sum f => sum + File.size f) files 0.

Definition sendMessage (env : Env) (input : SendMessageInput.t) (w : World)
  : Outcome Message.t * World :=
  let text := trim (SendMessageInput.text input) in
  let files := SendMessageInput.files input in
  if match text, files with [], [] => true | _, _ => false end
  then (Thrown (js "Cannot send an empty message"), w)
  else
    match validateFiles files with
    | Some reason => (Thrown reason, w)
    | None =>
        let totalAttachmentBytes := sumFileSizes files in
        let totalStored := getTotalAttachmentBytes w in
        if totalStored + totalAttachmentBytes >? maxTotalBytes
        then (Thrown (js "Attachment storage limit reached. Delete data or use smaller files."), w)
        else
          let messageId := createId "msg" (uuid env 0) in
          let messageType := deriveMessageType text files in
          let chatId := SendMessageInput.chatId input in
          let existingChat := getChat chatId w in
          let '(attachmentIds, w1) :=
            storeFiles env messageId chatId files 1 [] w in
          let message :=
            Message.mk messageId chatId
              (SendMessageInput.senderProfileId input) messageType
              (match text with [] => None | _ => Some text end)
              attachmentIds (now env) in
          let w2 := with_messages w1 (put Message.id message (messages w1)) in
          let w3 := touchChat existingChat (now env) w2 in
          (Returned message,
           publish chats_changed (publish messages_changed w3))
    end.

(** The inner loop of [getMessages]: an attachment is pushed only when its
    blob is found. *)
Fixpoint resolveAttachments (blobs : list (JsString * File.t))
    (metas : list AttachmentMeta.t) : list AttachmentWithBlob.t :=
  match metas with
  | [] => []
  | meta :: rest =>
      match getByKey fst (AttachmentMeta.blobKey meta) blobs with
      | Some (_, blob) =>
          AttachmentWithBlob.mk meta blob :: resolveAttachments blobs rest
      | None => resolveAttachments blobs rest
      end
  end.

Definition getMessages (chatId : Id) (w : World)
  : list MessageWithAttachments.t :=
  let inChat :=
    sortBy (fun a b => Message.createdAt a - Message.createdAt b)
      (filter (fun message => str_eqb (Message.chatId message) chatId)
         (messages w)) in
  let metaByMessage :=
    groupBy AttachmentMeta.messageId
      (filter (fun meta => str_eqb (AttachmentMeta.chatId meta) chatId)
         (attachmentsMeta w)) in
  List.map
    (fun message =>
       let metas := mapGetOrEmpty (Message.id message) metaByMessage in
       MessageWithAttachments.mk message
         (resolveAttachments (attachmentsBlob w) metas))
    inChat.

(** [lastMessageAt ?? chat.updatedAt] of a list item. *)
Definition itemActivity (item : ChatListItem.t) : Z :=
  match ChatListItem.lastMessageAt item with
  | Some t => t
  | None => Chat.updatedAt (ChatListItem.chat item)
  end.

Definition subtitleOf (lastMessage : option Message.t) : JsString :=
  match lastMessage with
  | None => js "No messages yet"
  | Some m =>
      match Message.type m with
      | MessageType.system =>
          match Message.text m with
          | Some t => t
          | None => js "System"
          end
      | _ =>
          match option_map trim (Message.text m) with
          | Some (c :: t) => c :: t
          | _ =>
              if (0 <? length (Message.attachmentIds m))%nat
              then js "Attachment" else js "Message"
          end
      end
  end.

Definition titleOf (profileId : Id) (chat : Chat.t)
    (chatMembers : list ChatMembership.t) (w : World) : JsString :=
  match Chat.type chat with
  | dm =>
      match
        find (fun m => negb (str_eqb (ChatMembership.profileId m) profileId))
          chatMembers
      with
      | Some other =>
          match getProfileById (ChatMembership.profileId other) w with
          | Some p => Profile.displayName p
          | None => js "Unknown"
          end
      | None => js "DM"
      end
  | group =>
      match Chat.title chat with
      | Some t => t
      | None => js "DM"
      end
  end.

Definition getVisibleChatsForProfile (profileId : Id) (w : World)
  : list ChatListItem.t :=
  let activeMemberships :=
    filter (fun m => isNull (ChatMembership.leftAt m)) (memberships w) in
  let visibleChatIds :=
    List.map ChatMembership.chatId
      (filter (fun m => str_eqb (ChatMembership.profileId m) profileId)
         activeMemberships) in
  let membershipByChat := groupBy ChatMembership.chatId activeMemberships in
  let messagesByChat := groupBy Message.chatId (messages w) in
  sortBy (fun a b => itemActivity b - itemActivity a)
    (List.map
       (fun chat =>
          let chatMembers := mapGetOrEmpty (Chat.id chat) membershipByChat in
          let chatMessages :=
            sortBy (fun a b => Message.createdAt a - Message.createdAt b)
              (mapGetOrEmpty (Chat.id chat) messagesByChat) in
          let lastMessage := lastOf chatMessages in
          ChatListItem.mk chat (titleOf profileId chat chatMembers w)
            (subtitleOf lastMessage) (Chat.lastMessageAt chat)
            (Z.of_nat (length chatMembers)))
       (filter (fun chat => str_mem (Chat.id chat) visibleChatIds)
          (chats w))).

(* ================================================================== *)
(** ** Fresh identifiers

    [crypto.randomUUID()] returns values that were not returned before.
    The statements below say so explicitly, for the values one operation
    draws. *)

(** The ids the database holds: the keys of its stores and the ids its
    records refer to. *)
Definition knownIds (w : World) : list Id :=
  List.map Profile.id (profiles w)
  ++ List.map Chat.id (chats w)
  ++ List.map ChatMembership.id (memberships w)
  ++ List.map ChatMembership.chatId (memberships w)
  ++ List.map Message.id (messages w)
  ++ List.map AttachmentMeta.id (attachmentsMeta w)
  ++ List.map AttachmentMeta.messageId (attachmentsMeta w)
  ++ List.map fst (attachmentsBlob w).

(** The ids and the blob key the repository derives from one UUID. *)
Definition idsFrom (rand : JsString) : list Id :=
  [ createId "profile" rand; createId "chat" rand;
    createId "membership" rand; createId "msg" rand; createId "att" rand;
    js "blob_" ++ createId "att" rand ].

Definition unusedUuid (w : World) (rand : JsString) : bool :=
  forallb (fun i => negb (str_mem i (knownIds w))) (idsFrom rand).

Fixpoint distinct (l : list JsString) : bool :=
  match l with
  | [] => true
  | x :: l' => negb (str_mem x l') && distinct l'
  end.

(** The first [n] UUIDs of [env] differ from each other and are unused
    in [w]. *)
Definition freshUuids (env : Env) (n : nat) (w : World) : bool :=
  distinct (List.map (uuid env) (seq 0 n))
  && forallb (unusedUuid w) (List.map (uuid env) (seq 0 n)).

(* ================================================================== *)
(** ** Derived notions used by the statements *)

(** The active memberships of a chat, in store order. *)
Definition activeMembersOf (chatId : Id) (ms : list ChatMembership.t)
  : list ChatMembership.t :=
  filter (fun m => str_eqb (ChatMembership.chatId m) chatId)
    (filter (fun m => isNull (ChatMembership.leftAt m)) ms).

(** The test [findExistingDm] applies to one chat. *)
Definition isDmFor (a b : Id) (ms : list ChatMembership.t) (chat : Chat.t)
  : bool :=
  match Chat.type chat with
  | dm =>
      dmPairMatches a b
        (sortStrings
           (List.map ChatMembership.profileId
              (activeMembersOf (Chat.id chat) ms)))
  | group => false
  end.

(** The active memberships of profile [p] in chat [c]. *)
Definition activeFor (c p : Id) (ms : list ChatMembership.t)
  : list ChatMembership.t :=
  filter (fun m => str_eqb (ChatMembership.chatId m) c
                   && str_eqb (ChatMembership.profileId m) p
                   && isNull (ChatMembership.leftAt m)) ms.

(** At most one active membership per chat and profile. *)
Definition uniqueActive (w : World) : Prop :=
  forall c p, (length (activeFor c p (memberships w)) <= 1)%nat.

(** [chat.lastMessageAt ?? chat.updatedAt] *)
Definition chatActivity (c : Chat.t) : Z :=
  match Chat.lastMessageAt c with
  | Some t => t
  | None => Chat.updatedAt c
  end.

(** What the round trip of an attachment is about: its name, MIME type,
    size and content. *)
Definition attachmentView (a : AttachmentWithBlob.t)
  : JsString * JsString * Z * File.t :=
  (AttachmentMeta.fileName (AttachmentWithBlob.meta a),
   AttachmentMeta.mimeType (AttachmentWithBlob.meta a),
   AttachmentMeta.sizeBytes (AttachmentWithBlob.meta a),
   AttachmentWithBlob.blob a).

(** The MIME type [sendMessage] records for a file. *)
Definition storedMimeType (f : File.t) : JsString :=
  match File.type f with
  | [] => js "application/octet-stream"
  | t => t
  end.

Definition fileView (f : File.t) : JsString * JsString * Z * File.t :=
  (File.name f, storedMimeType f, File.size f, f).

(** Two environments for the examples: the clock reads 1000 and 2000,
    the UUIDs are "A0", "A1", ... and "B0", "B1", ... *)
Definition envA : Env := mkEnv 1000 (fun n => [65; Z.of_nat n + 48]).
Definition envB : Env := mkEnv 2000 (fun n => [66; Z.of_nat n + 48]).

(** The worlds the repository can reach from the empty database. Every
    operation draws fresh UUIDs; [createDm] is called for two different
    profiles, as the dialog that calls it guarantees. *)
Inductive Reachable : World -> Prop :=
| reach_empty : Reachable emptyWorld
| reach_createProfile env name w :
    Reachable w -> freshUuids env 1 w = true ->
    Reachable (snd (createProfile env name w))
| reach_createDm env a b w :
    Reachable w -> freshUuids env 3 w = true -> a <> b ->
    Reachable (snd (createDm env a b w))
| reach_createGroup env input w :
    Reachable w ->
    freshUuids env
      (2 + length (unique (CreateGroupInput.ownerProfileId input
                           :: CreateGroupInput.memberProfileIds input))) w
    = true ->
    Reachable (snd (createGroup env input w))
| reach_addGroupMembers env chatId actor profileIds w :
    Reachable w ->
    freshUuids env (2 * length (unique profileIds)) w = true ->
    Reachable (addGroupMembers env chatId actor profileIds w)
| reach_leaveGroup env chatId profileId w :
    Reachable w -> freshUuids env 1 w = true ->
    Reachable (leaveGroup env chatId profileId w)
| reach_sendMessage env input w :
    Reachable w ->
    freshUuids env (1 + length (SendMessageInput.files input)) w = true ->
    Reachable (snd (sendMessage env input w)).

(** The group of the scenarios: owner "Alex", members "Sam" and "Casey". *)
Definition weekendGroup : CreateGroupInput.t :=
  CreateGroupInput.mk (js "Weekend Plans") (js "Alex") [js "Sam"; js "Casey"].
Definition weekendWorld : World := snd (createGroup envA weekendGroup emptyWorld).
Definition weekendChatId : Id := Chat.id (fst (createGroup envA weekendGroup emptyWorld)).

(** Two files for the scenarios: a PNG image and a file without type. *)
Definition photoFile : File.t :=
  File.mk (js "photo.png") (js "image/png") [Byte.x89; Byte.x50; Byte.x4e].
Definition notesFile : File.t :=
  File.mk (js "notes") [] [Byte.x68; Byte.x69].
Definition twoFiles : SendMessageInput.t :=
  SendMessageInput.mk weekendChatId (js "Sam") (js " ")
    [photoFile; notesFile].
Definition twoFilesMessage : Message.t :=
  Message.mk (createId "msg" (uuid envB 0)) weekendChatId (js "Sam")
    MessageType.mixed None
    [createId "att" (uuid envB 1); createId "att" (uuid envB 2)] 2000.

(* ================================================================== *)
(** ** ChatRepository: profiles, members and candidates *)

(** [upsertProfile(profile)] *)
Definition upsertProfile (profile : Profile.t) (w : World) : World :=
  publish profiles_changed
    (with_profiles w (put Profile.id profile (profiles w))).

(** [upsertProfiles(profiles)]: nothing happens for an empty list. *)
Definition upsertProfiles (ps : list Profile.t) (w : World) : World :=
  match ps with
  | [] => w
  | _ =>
      publish profiles_changed
        (with_profiles w (putAll Profile.id ps (profiles w)))
  end.

(** [getProfiles()]: the stored profiles sorted by
    [a.displayName.localeCompare(b.displayName)]. The collation of the
    browser is an input, [localeCompare]. *)
Definition getProfiles (localeCompare : JsString -> JsString -> Z)
    (w : World) : list Profile.t :=
  sortBy
    (fun a b => localeCompare (Profile.displayName a) (Profile.displayName b))
    (profiles w).

Section JsMap.
Context {V : Type}.

(** [map.set(k, v)]: a known key keeps its place and takes the new value. *)
Fixpoint mapSet (k : Id) (v : V) (m : list (Id * V)) : list (Id * V) :=
  match m with
  | [] => [(k, v)]
  | (k', v') :: m' =>
      if str_eqb k' k then (k', v) :: m' else (k', v') :: mapSet k v m'
  end.

(** [new Map(entries)] *)
Definition mapOf (entries : list (Id * V)) : list (Id * V) :=
  fold_left (fun m e => mapSet (fst e) (snd e) m) entries [].

(** [map.get(k)] *)
Fixpoint mapLookup (k : Id) (m : list (Id * V)) : option V :=
  match m with
  | [] => None
  | (k', v) :: m' => if str_eqb k' k then Some v else mapLookup k m'
  end.
End JsMap.

(** [values.filter(Boolean)] for values that are an object or undefined. *)
Fixpoint definedOnly {A} (l : list (option A)) : list A :=
  match l with
  | [] => []
  | Some x :: l' => x :: definedOnly l'
  | None :: l' => definedOnly l'
  end.

Definition getChatMembers (localeCompare : JsString -> JsString -> Z)
    (chatId : Id) (w : World) : list Profile.t :=
  let activeIds :=
    List.map ChatMembership.profileId
      (filter (fun m => isNull (ChatMembership.leftAt m))
         (getMembershipsByChat chatId w)) in
  match activeIds with
  | [] => []
  | _ =>
      let byId :=
        mapOf (List.map (fun p => (Profile.id p, p))
                 (getProfiles localeCompare w)) in
      definedOnly (List.map (fun id => mapLookup id byId) activeIds)
  end.

Definition getCandidateProfilesForGroupAdd
    (localeCompare : JsString -> JsString -> Z) (chatId : Id) (w : World)
  : list Profile.t :=
  let memberIds :=
    List.map Profile.id (getChatMembers localeCompare chatId w) in
  filter (fun profile => negb (str_mem (Profile.id profile) memberIds))
    (getProfiles localeCompare w).

(** A collation for the examples: by code units. *)
Definition codeUnitCompare (a b : JsString) : Z :=
  match str_compare a b with Lt => -1 | Eq => 0 | Gt => 1 end.


(** A file of 10 MB and one byte, too large for [maxFileBytes]. *)
Definition oversizedFile : File.t :=
  File.mk (js "movie.mp4") (js "video/mp4")
    (repeat Byte.x00 (Z.to_nat (maxFileBytes + 1))).

(** The polynomial that [pickAvatarColor] evaluates with 32-bit
    wrap-around: [31^(n-1) c_0 + ... + 31 c_(n-2) + c_(n-1)]. *)
Definition polyHash (seed : JsString) : Z :=
  fold_left (fun h c => 31 * h + c) seed 0.


(** A world for the examples: the profile of Alex is stored, and Sam has
    started a direct chat with Alex. *)
Definition dmWorld : World :=
  snd (createDm envB (js "Sam") (js "Alex")
         (upsertProfile
            (Profile.mk (js "Alex") (js "Alex A.") (js "#0ea5e9") 1 1)
            emptyWorld)).


(* ================================================================== *)
(** ** storage/syncBus.ts

    A handler is a function object; the bus tells handlers apart by
    identity, which is a number here. Calling a handler is recorded in a
    log. Handlers that subscribe, unsubscribe or throw while an event is
    delivered are outside this model. *)

Module SyncBus.
Section Bus.
Context {Event : Type}.
Variable stringify : Event -> JsString.
Variable parse : JsString -> option Event.

(** [handlers]: a [Set], as the list of its elements in insertion order.
    [channel] says whether the window has [BroadcastChannel]. *)
Record t := mk {
  channel : bool;
  handlers : list nat }.

(** What the bus does to the outside: the messages posted on the channel,
    the value of the key [storageKey] in [localStorage], and the calls of
    handlers, oldest first. *)
Record Effects := mkEffects {
  posted : list Event;
  stored : option JsString;
  calls : list (nat * Event) }.


Definition create (hasBroadcastChannel : bool) : t :=
  mk hasBroadcastChannel [].

(** [set.add(h)] *)
Definition setAdd (h : nat) (s : list nat) : list nat :=
  if existsb (Nat.eqb h) s then s else s ++ [h].

(** [set.delete(h)] *)
Definition setDelete (h : nat) (s : list nat) : list nat :=
  filter (fun h' => negb (Nat.eqb h h')) s.

Definition subscribe (handler : nat) (bus : t) : t :=
  mk (channel bus) (setAdd handler (handlers bus)).

(** The function that [subscribe(handler)] returns. *)
Definition unsubscribe (handler : nat) (bus : t) : t :=
  mk (channel bus) (setDelete handler (handlers bus)).

Definition emit (event : Event) (bus : t) (fx : Effects) : Effects :=
  mkEffects (posted fx) (stored fx)
    (calls fx ++ List.map (fun handler => (handler, event)) (handlers bus)).

(** [publish(event)]; [setItemOk] is false when [localStorage.setItem]
    throws, which the code ignores. *)
Definition publish (setItemOk : bool) (event : Event) (bus : t)
    (fx : Effects) : Effects :=
  let fx1 :=
    if channel bus
    then mkEffects (posted fx ++ [event]) (stored fx) (calls fx)
    else fx in
  let fx2 :=
    if setItemOk
    then mkEffects (posted fx1) (Some (stringify event)) (calls fx1)
    else fx1 in
  emit event bus fx2.


(** The calls of [subscribe] and of the functions it returned. *)
Inductive Op := Subscribe (handler : nat) | Unsubscribe (handler : nat).

Definition apply (bus : t) (op : Op) : t :=
  match op with
  | Subscribe h => subscribe h bus
  | Unsubscribe h => unsubscribe h bus
  end.

Definition run (ops : list Op) (bus : t) : t := fold_left apply ops bus.

(** Whether the last of [ops] that names [h] is a [Subscribe]. *)
Definition subscribedAfter (h : nat) (ops : list Op) : bool :=
  fold_left
    (fun acc op =>
       match op with
       | Subscribe h' => if Nat.eqb h' h then true else acc
       | Unsubscribe h' => if Nat.eqb h' h then false else acc
       end)
    ops false.
End Bus.
End SyncBus.

(* ================================================================== *)
(** ** backend/supabaseAuth.ts *)






(* ================================================================== *)
(** * Properties *)

(** ** Strings *)

Lemma str_eqb_eq (a b : JsString) : str_eqb a b = true <-> a = b.
Proof.
  revert b; induction a as [|x a IH]; intros [|y b]; simpl;
    split; intros H; try congruence.
  - apply andb_true_iff in H as [Hx Hab].
    apply Z.eqb_eq in Hx. apply IH in Hab. congruence.
  - injection H as -> ->. rewrite Z.eqb_refl. simpl. now apply IH.
Qed.

Lemma str_eqb_refl (a : JsString) : str_eqb a a = true.
Proof. now apply str_eqb_eq. Qed.

Lemma str_eqb_neq (a b : JsString) : str_eqb a b = false <-> a <> b.
Proof.
  split.
  - intros H E. apply str_eqb_eq in E. congruence.
  - intros H. destruct (str_eqb a b) eqn:E; [|reflexivity].
    apply str_eqb_eq in E. contradiction.
Qed.

Lemma str_eqb_sym (a b : JsString) : str_eqb a b = str_eqb b a.
Proof.
  destruct (str_eqb a b) eqn:E.
  - apply str_eqb_eq in E. subst. symmetry. apply str_eqb_refl.
  - symmetry. apply str_eqb_neq. apply str_eqb_neq in E. congruence.
Qed.

Lemma str_compare_eq (a b : JsString) : str_compare a b = Eq -> a = b.
Proof.
  revert b; induction a as [|x a IH]; intros [|y b]; simpl;
    intros H; try congruence.
  destruct (x ?= y) eqn:E; try discriminate.
  apply Z.compare_eq in E. apply IH in H. congruence.
Qed.

Lemma str_compare_antisym (a b : JsString) :
  str_compare b a = CompOpp (str_compare a b).
Proof.
  revert b; induction a as [|x a IH]; intros [|y b]; simpl; try reflexivity.
  rewrite (Z.compare_antisym x y).
  destruct (x ?= y); simpl; auto.
Qed.

Lemma sortStrings_pair_comm (a b : JsString) :
  sortStrings [a; b] = sortStrings [b; a].
Proof.
  unfold sortStrings; simpl.
  rewrite (str_compare_antisym a b).
  destruct (str_compare a b) eqn:E; simpl; try reflexivity.
  apply str_compare_eq in E. now subst.
Qed.

Lemma str_mem_In (x : Id) (l : list Id) : str_mem x l = true <-> In x l.
Proof.
  unfold str_mem. rewrite existsb_exists. split.
  - intros (y & Hy & E). apply str_eqb_eq in E. now subst.
  - intros H. exists x. split; [assumption | apply str_eqb_refl].
Qed.

Lemma str_mem_not_In (x : Id) (l : list Id) : str_mem x l = false <-> ~ In x l.
Proof.
  rewrite <- str_mem_In. destruct (str_mem x l); split; congruence.
Qed.

Lemma createId_inj (prefix : string) (r1 r2 : JsString) :
  createId prefix r1 = createId prefix r2 -> r1 = r2.
Proof.
  unfold createId. intros H.
  apply app_inv_head in H. now apply app_inv_head in H.
Qed.

#[global] Opaque createId js.

Lemma str_leb_trans (a b c : JsString) :
  str_leb a b = true -> str_leb b c = true -> str_leb a c = true.
Proof.
  unfold str_leb.
  revert b c; induction a as [|x a IH]; intros [|y b] [|z c]; simpl;
    try congruence.
  specialize (IH b c).
  destruct (Z.compare_spec x y), (Z.compare_spec y z), (Z.compare_spec x z);
    try lia; try congruence; auto.
Qed.

Lemma str_leb_total (a b : JsString) :
  str_leb a b = false -> str_leb b a = true.
Proof.
  unfold str_leb. rewrite (str_compare_antisym a b).
  destruct (str_compare a b); simpl; congruence.
Qed.

(** A few evaluations of the helpers of [utils.ts]. *)
Example trim_example : trim (js "  hello world ") = js "hello world".
Proof. vm_compute. reflexivity. Qed.

Example trim_blank : trim [32; 9; 160; 10] = [].
Proof. reflexivity. Qed.

Example toInt32_wraps : toInt32 (2 ^ 31) = - 2 ^ 31 /\ toInt32 (-1) = -1.
Proof. split; reflexivity. Qed.

Example pickAvatarColor_Alex : pickAvatarColor (js "Alex") = js "#f97316".
Proof. vm_compute. reflexivity. Qed.

Example isImageMime_examples :
  isImageMime (js "image/png") = true /\ isImageMime (js "text/plain") = false
  /\ isImageMime [] = false.
Proof. vm_compute. auto. Qed.

Example unique_keeps_first :
  unique [js "b"; js "a"; js "b"; js "c"; js "a"] = [js "b"; js "a"; js "c"].
Proof. vm_compute. reflexivity. Qed.

(** ** The runtime's arrays and maps *)

Section ArrayFacts.
Context {A : Type}.
Implicit Types (l : list A) (cmp : A -> A -> Z).

Lemma insertBy_perm cmp x l : Permutation (insertBy cmp x l) (x :: l).
Proof.
  induction l as [|y l IH]; simpl; [reflexivity|].
  destruct (cmp x y <=? 0); [reflexivity|].
  rewrite IH. apply perm_swap.
Qed.

Lemma sortBy_perm cmp l : Permutation (sortBy cmp l) l.
Proof.
  induction l as [|x l IH]; simpl; [reflexivity|].
  rewrite insertBy_perm. now constructor.
Qed.

Lemma sortBy_In cmp l x : In x (sortBy cmp l) <-> In x l.
Proof.
  split; apply Permutation_in;
    [apply sortBy_perm | symmetry; apply sortBy_perm].
Qed.

(** Sorting by a numeric key, descending: [cmp a b = key b - key a]. *)
Lemma insertBy_desc_sorted (key : A -> Z) x l :
  StronglySorted (fun a b => key a >= key b) l ->
  StronglySorted (fun a b => key a >= key b)
    (insertBy (fun a b => key b - key a) x l).
Proof.
  induction l as [|y l IH]; simpl; intros Hs.
  - repeat constructor.
  - apply StronglySorted_inv in Hs as [Hl Hy].
    destruct (key y - key x <=? 0) eqn:E.
    + apply Z.leb_le in E. constructor.
      * now constructor.
      * constructor; [lia|].
        rewrite Forall_forall in *. intros z Hz.
        specialize (Hy z Hz). lia.
    + apply Z.leb_gt in E. constructor; [now apply IH|].
      rewrite Forall_forall in *. intros z Hz.
      apply (Permutation_in _ (insertBy_perm _ x l)) in Hz.
      destruct Hz as [<- | Hz]; [lia | now apply Hy].
Qed.

Lemma sortBy_desc_sorted (key : A -> Z) l :
  StronglySorted (fun a b => key a >= key b)
    (sortBy (fun a b => key b - key a) l).
Proof.
  induction l as [|x l IH]; simpl; [constructor|].
  now apply insertBy_desc_sorted.
Qed.

Lemma filter_perm (f : A -> bool) l l' :
  Permutation l l' -> Permutation (filter f l) (filter f l').
Proof.
  induction 1 as [|x l l' _ IH|x y l|l l' l'' _ IH1 _ IH2]; simpl.
  - constructor.
  - destruct (f x); [now constructor | assumption].
  - destruct (f x), (f y); try reflexivity. apply perm_swap.
  - now transitivity (filter f l').
Qed.

Lemma filter_false (f : A -> bool) l :
  (forall x, In x l -> f x = false) -> filter f l = [].
Proof.
  induction l as [|x l IH]; simpl; intros H; [reflexivity|].
  rewrite (H x (or_introl eq_refl)). apply IH. intros; apply H; now right.
Qed.

Lemma filter_nil_false (f : A -> bool) l x :
  filter f l = [] -> In x l -> f x = false.
Proof.
  intros Hnil Hin. destruct (f x) eqn:E; [|reflexivity].
  assert (Hx : In x (filter f l)) by (apply filter_In; auto).
  rewrite Hnil in Hx. destruct Hx.
Qed.
End ArrayFacts.

Section GroupByFacts.
Context {T : Type}.

Lemma mapGetOrEmpty_groupAdd (k k' : Id) (x : T) (m : Groups T) :
  mapGetOrEmpty k (groupAdd k' x m)
  = mapGetOrEmpty k m ++ (if str_eqb k' k then [x] else []).
Proof.
  unfold mapGetOrEmpty.
  induction m as [|[k1 arr] m IH]; simpl.
  - destruct (str_eqb k' k); reflexivity.
  - destruct (str_eqb k1 k') eqn:E1; simpl.
    + apply str_eqb_eq in E1. subst k1.
      destruct (str_eqb k' k); [reflexivity | now rewrite app_nil_r].
    + destruct (str_eqb k1 k) eqn:E2; [|exact IH].
      apply str_eqb_eq in E2. subst k1.
      rewrite str_eqb_sym, E1. now rewrite app_nil_r.
Qed.

Lemma mapGetOrEmpty_fold (f : T -> Id) (k : Id) (items : list T)
    (acc : Groups T) :
  mapGetOrEmpty k
    (fold_left (fun m item => groupAdd (f item) item m) items acc)
  = mapGetOrEmpty k acc ++ filter (fun x => str_eqb (f x) k) items.
Proof.
  revert acc; induction items as [|x items IH]; intros acc; simpl.
  - now rewrite app_nil_r.
  - rewrite IH, mapGetOrEmpty_groupAdd, <- app_assoc.
    destruct (str_eqb (f x) k); reflexivity.
Qed.

(** [groupBy(items, f).get(k) ?? []] holds the items of key [k], in the
    order of [items]. *)
Lemma mapGetOrEmpty_groupBy (f : T -> Id) (k : Id) (items : list T) :
  mapGetOrEmpty k (groupBy f items)
  = filter (fun x => str_eqb (f x) k) items.
Proof. unfold groupBy. now rewrite mapGetOrEmpty_fold. Qed.
End GroupByFacts.

(** ** Object stores *)

Section StoreFacts.
Context {V : Type} (key : V -> Id).
Implicit Types (v u : V) (s : list V) (k : Id).

Lemma hasKey_true k s : hasKey key k s = true <-> In k (List.map key s).
Proof.
  unfold hasKey. rewrite existsb_exists, in_map_iff. split.
  - intros (v & Hv & E). apply str_eqb_eq in E. now exists v.
  - intros (v & E & Hv). exists v. split; [assumption|].
    now apply str_eqb_eq.
Qed.

Lemma hasKey_false k s : hasKey key k s = false <-> ~ In k (List.map key s).
Proof.
  rewrite <- hasKey_true. destruct (hasKey key k s); split; congruence.
Qed.

Lemma insertSorted_split v s :
  exists l1 l2, s = l1 ++ l2 /\ insertSorted key v s = l1 ++ v :: l2.
Proof.
  induction s as [|u s (l1 & l2 & E1 & E2)]; simpl.
  - now exists [], [].
  - destruct (str_leb (key v) (key u)).
    + now exists [], (u :: s).
    + exists (u :: l1), l2. simpl. now rewrite <- E1, E2.
Qed.

(** Storing a record under a key that is not in the store leaves the
    other records where they are. *)
Lemma put_fresh_split v s :
  hasKey key (key v) s = false ->
  exists l1 l2, s = l1 ++ l2 /\ put key v s = l1 ++ v :: l2.
Proof. unfold put. intros ->. apply insertSorted_split. Qed.

Lemma put_fresh_perm v s :
  hasKey key (key v) s = false -> Permutation (put key v s) (v :: s).
Proof.
  intros H. destruct (put_fresh_split v s H) as (l1 & l2 & -> & ->).
  symmetry. apply Permutation_middle.
Qed.

Lemma filter_put_fresh_false (f : V -> bool) v s :
  hasKey key (key v) s = false -> f v = false ->
  filter f (put key v s) = filter f s.
Proof.
  intros H Hf. destruct (put_fresh_split v s H) as (l1 & l2 & -> & ->).
  rewrite !filter_app. simpl. now rewrite Hf.
Qed.

Lemma putAll_fresh_perm vs s :
  NoDup (List.map key vs) ->
  (forall v, In v vs -> hasKey key (key v) s = false) ->
  Permutation (putAll key vs s) (vs ++ s).
Proof.
  unfold putAll. revert s.
  induction vs as [|v vs IH]; intros s Hnd Hfresh; simpl; [reflexivity|].
  inversion Hnd as [|? ? Hv Hnd']; subst.
  assert (Hvs : hasKey key (key v) s = false) by (apply Hfresh; now left).
  rewrite IH; [| assumption |].
  - rewrite (put_fresh_perm v s Hvs). symmetry. apply Permutation_middle.
  - intros u Hu. apply hasKey_false.
    rewrite (Permutation_map key (put_fresh_perm v s Hvs)). simpl.
    intros [E | Hin].
    + apply Hv. rewrite E. now apply in_map.
    + apply (proj1 (hasKey_false _ _) (Hfresh u (or_intror Hu))). exact Hin.
Qed.

Lemma filter_putAll_fresh_false (f : V -> bool) vs s :
  NoDup (List.map key vs) ->
  (forall v, In v vs -> hasKey key (key v) s = false) ->
  (forall v, In v vs -> f v = false) ->
  filter f (putAll key vs s) = filter f s.
Proof.
  unfold putAll. revert s.
  induction vs as [|v vs IH]; intros s Hnd Hfresh Hf; simpl; [reflexivity|].
  inversion Hnd as [|? ? Hv Hnd']; subst.
  assert (Hvs : hasKey key (key v) s = false) by (apply Hfresh; now left).
  rewrite IH; [| assumption | | intros; apply Hf; now right].
  - apply filter_put_fresh_false; [assumption | apply Hf; now left].
  - intros u Hu. apply hasKey_false.
    rewrite (Permutation_map key (put_fresh_perm v s Hvs)). simpl.
    intros [E | Hin].
    + apply Hv. rewrite E. now apply in_map.
    + apply (proj1 (hasKey_false _ _) (Hfresh u (or_intror Hu))). exact Hin.
Qed.

Lemma getByKey_put_same v s : getByKey key (key v) (put key v s) = Some v.
Proof.
  unfold put, getByKey. destruct (hasKey key (key v) s) eqn:H.
  - unfold hasKey, replaceKey in *.
    induction s as [|u s IH]; simpl in *; [discriminate|].
    destruct (str_eqb (key u) (key v)) eqn:E; simpl.
    + now rewrite str_eqb_refl.
    + rewrite E. now apply IH.
  - unfold hasKey in H.
    induction s as [|u s IH]; simpl in *.
    + now rewrite str_eqb_refl.
    + apply orb_false_iff in H as [E H].
      destruct (str_leb (key v) (key u)); simpl.
      * now rewrite str_eqb_refl.
      * rewrite E. now apply IH.
Qed.

Lemma getByKey_put_other k v s :
  k <> key v -> getByKey key k (put key v s) = getByKey key k s.
Proof.
  intros Hk. assert (Hv : str_eqb (key v) k = false)
    by (apply str_eqb_neq; congruence).
  unfold put, getByKey. destruct (hasKey key (key v) s).
  - unfold replaceKey.
    induction s as [|u s IH]; simpl; [reflexivity|].
    destruct (str_eqb (key u) (key v)) eqn:E.
    + apply str_eqb_eq in E. rewrite E, Hv. exact IH.
    + destruct (str_eqb (key u) k); [reflexivity | exact IH].
  - induction s as [|u s IH]; simpl.
    + now rewrite Hv.
    + destruct (str_leb (key v) (key u)); simpl.
      * now rewrite Hv.
      * destruct (str_eqb (key u) k); [reflexivity | exact IH].
Qed.

Lemma getByKey_Some_In k v s : getByKey key k s = Some v -> In v s /\ key v = k.
Proof.
  unfold getByKey. intros H. apply find_some in H as [Hin E].
  split; [assumption | now apply str_eqb_eq].
Qed.


(** Replacing a record by one that [f] rejects cannot add a record that
    [f] accepts. *)
Lemma filter_replaceKey_length (f : V -> bool) v s :
  f v = false ->
  (length (filter f (replaceKey key v s)) <= length (filter f s))%nat.
Proof.
  intros Hf. unfold replaceKey.
  induction s as [|u s IH]; simpl; [lia|].
  destruct (str_eqb (key u) (key v)).
  - rewrite Hf. destruct (f u); simpl; lia.
  - destruct (f u); simpl; lia.
Qed.
(** [put] keeps a store in ascending key order. *)
Lemma put_sorted v s :
  StronglySorted (fun a b => str_leb (key a) (key b) = true) s ->
  StronglySorted (fun a b => str_leb (key a) (key b) = true) (put key v s).
Proof.
  intros Hs. unfold put. destruct (hasKey key (key v) s).
  - unfold replaceKey.
    induction Hs as [|u s Hs IH Hu]; simpl; constructor; [exact IH|].
    rewrite Forall_forall in *. intros x Hx.
    apply in_map_iff in Hx as (y & <- & Hy). specialize (Hu y Hy).
    destruct (str_eqb (key u) (key v)) eqn:Eu;
      destruct (str_eqb (key y) (key v)) eqn:Ey;
      try apply str_eqb_eq in Eu; try apply str_eqb_eq in Ey;
      congruence.
  - induction Hs as [|u s Hs IH Hu]; simpl.
    + repeat constructor.
    + destruct (str_leb (key v) (key u)) eqn:E.
      * constructor; [now constructor|].
        constructor; [assumption|].
        rewrite Forall_forall in *. intros x Hx.
        apply (str_leb_trans _ (key u)); auto.
      * constructor; [exact IH|].
        rewrite Forall_forall in *. intros x Hx.
        destruct (insertSorted_split v s) as (l1 & l2 & E1 & E2).
        rewrite E2 in Hx. apply in_app_iff in Hx.
        destruct Hx as [Hx | [<- | Hx]].
        -- apply Hu. rewrite E1. apply in_app_iff. now left.
        -- now apply str_leb_total.
        -- apply Hu. rewrite E1. apply in_app_iff. now right.
Qed.
End StoreFacts.

(** ** Fresh identifiers *)

Lemma distinct_NoDup (l : list JsString) : distinct l = true <-> NoDup l.
Proof.
  induction l as [|x l IH]; simpl.
  - split; [constructor | reflexivity].
  - rewrite andb_true_iff, negb_true_iff, str_mem_not_In, IH.
    split; [intros []; now constructor | now inversion 1].
Qed.

Lemma freshUuids_NoDup env n w :
  freshUuids env n w = true -> NoDup (List.map (uuid env) (seq 0 n)).
Proof.
  unfold freshUuids. intros H. apply andb_true_iff in H as [H _].
  now apply distinct_NoDup.
Qed.

Lemma freshUuids_neq env n w i j :
  freshUuids env n w = true -> (i < n)%nat -> (j < n)%nat -> i <> j ->
  uuid env i <> uuid env j.
Proof.
  intros H Hi Hj Hij E. apply freshUuids_NoDup in H.
  pose proof (proj1 (NoDup_nth _ (uuid env 0%nat)) H i j) as Hn.
  rewrite length_map, length_seq in Hn. specialize (Hn Hi Hj).
  rewrite !(map_nth (uuid env) (seq 0 n) 0%nat) in Hn.
  rewrite !seq_nth in Hn by assumption. simpl in Hn. auto.
Qed.

Lemma freshUuids_unused env n w i x :
  freshUuids env n w = true -> (i < n)%nat -> In x (idsFrom (uuid env i)) ->
  ~ In x (knownIds w).
Proof.
  unfold freshUuids. intros H Hi Hx.
  apply andb_true_iff in H as [_ H]. rewrite forallb_forall in H.
  specialize (H (uuid env i)). unfold unusedUuid in H.
  rewrite forallb_forall in H.
  apply str_mem_not_In, negb_true_iff, H; [|assumption].
  apply in_map. apply in_seq. lia.
Qed.

Lemma freshUuids_le env n m w :
  freshUuids env n w = true -> (m <= n)%nat -> freshUuids env m w = true.
Proof.
  unfold freshUuids. intros H Hm.
  replace n with (m + (n - m))%nat in H by lia.
  rewrite seq_app, map_app in H.
  apply andb_true_iff in H as [Hd Hu].
  rewrite forallb_app in Hu. apply andb_true_iff in Hu as [Hu _].
  rewrite Hu, andb_true_r.
  apply distinct_NoDup. apply distinct_NoDup in Hd.
  now apply NoDup_app_remove_r in Hd.
Qed.

(** ** createDm *)

Lemma findExistingDm_find (a b : Id) (w : World) :
  findExistingDm a b w = find (isDmFor a b (memberships w)) (chats w).
Proof.
  unfold findExistingDm.
  induction (chats w) as [|chat rest IH]; simpl; [reflexivity|].
  unfold isDmFor at 1, activeMembersOf.
  rewrite mapGetOrEmpty_groupBy.
  destruct (Chat.type chat); [|exact IH].
  now rewrite IH.
Qed.

Lemma dmPairMatches_comm (a b : Id) (ids : list Id) :
  dmPairMatches a b ids = dmPairMatches b a ids.
Proof. unfold dmPairMatches. now rewrite (sortStrings_pair_comm a b). Qed.

Lemma findExistingDm_comm (a b : Id) (w : World) :
  findExistingDm a b w = findExistingDm b a w.
Proof.
  rewrite !findExistingDm_find.
  induction (chats w) as [|chat rest IH]; simpl; [reflexivity|].
  unfold isDmFor at 1 3. rewrite IH.
  destruct (Chat.type chat); [|reflexivity].
  now rewrite dmPairMatches_comm.
Qed.

Lemma dmPairMatches_sorted (a b : Id) :
  dmPairMatches a b (sortStrings [a; b]) = true.
Proof.
  unfold dmPairMatches.
  assert (H : sortStrings [a; b] = [a; b] \/ sortStrings [a; b] = [b; a]).
  { unfold sortStrings; simpl. destruct (str_compare a b); simpl; auto. }
  destruct H as [-> | ->]; simpl; now rewrite !str_eqb_refl.
Qed.

Lemma find_insert_new {A} (f : A -> bool) (x : A) (l1 l2 : list A) :
  find f (l1 ++ l2) = None -> f x = true -> find f (l1 ++ x :: l2) = Some x.
Proof.
  intros Hnone Hx.
  induction l1 as [|y l1 IH]; simpl in *; [now rewrite Hx|].
  destruct (f y); [discriminate | now apply IH].
Qed.

Lemma find_ext_in {A} (f g : A -> bool) (l : list A) :
  (forall x, In x l -> f x = g x) -> find f l = find g l.
Proof.
  induction l as [|y l IH]; simpl; intros H; [reflexivity|].
  rewrite (H y (or_introl eq_refl)).
  destruct (g y); [reflexivity|]. apply IH. intros; apply H; now right.
Qed.

Lemma filter_filter {A} (f g : A -> bool) (l : list A) :
  filter g (filter f l) = filter (fun x => f x && g x) l.
Proof.
  induction l as [|x l IH]; simpl; [reflexivity|].
  destruct (f x); simpl; [|exact IH].
  destruct (g x); now rewrite IH.
Qed.

Section CreateDmFresh.
Variables (env : Env) (a b : Id) (w : World).
Hypothesis Hfresh : freshUuids env 3 w = true.

Let cid : Id := createId "chat" (uuid env 0).
Let mA : ChatMembership.t :=
  ChatMembership.mk (createId "membership" (uuid env 1)) cid a owner
    (now env) None.
Let mB : ChatMembership.t :=
  ChatMembership.mk (createId "membership" (uuid env 2)) cid b member
    (now env) None.
Let chat : Chat.t := Chat.mk cid dm None a (now env) (now env) None.
Let ms' : list ChatMembership.t :=
  putAll ChatMembership.id [mA; mB] (memberships w).

Lemma createDm_new_chat_fresh : hasKey Chat.id cid (chats w) = false.
Proof.
  apply hasKey_false. intros Hin.
  apply (freshUuids_unused env 3 w 0 cid Hfresh); [lia | simpl; tauto |].
  unfold knownIds. rewrite !in_app_iff. tauto.
Qed.

Lemma createDm_new_chat_unreferenced (m : ChatMembership.t) :
  In m (memberships w) -> ChatMembership.chatId m <> cid.
Proof.
  intros Hin E.
  apply (freshUuids_unused env 3 w 0 cid Hfresh); [lia | simpl; tauto |].
  unfold knownIds. rewrite !in_app_iff. do 3 right. left.
  rewrite <- E. now apply in_map.
Qed.

Lemma createDm_memberships_NoDup :
  NoDup (List.map ChatMembership.id [mA; mB]).
Proof.
  simpl. constructor; [|constructor; [intros [] | constructor]].
  intros [E | []]. apply createId_inj in E.
  now apply (freshUuids_neq env 3 w 2 1 Hfresh) in E; try lia.
Qed.

Lemma createDm_memberships_fresh (m : ChatMembership.t) :
  In m [mA; mB] ->
  hasKey ChatMembership.id (ChatMembership.id m) (memberships w) = false.
Proof.
  intros Hm. apply hasKey_false. intros Hin.
  assert (Hk : In (ChatMembership.id m) (knownIds w)).
  { unfold knownIds. rewrite !in_app_iff. tauto. }
  destruct Hm as [<- | [<- | []]]; simpl in Hk.
  - apply (freshUuids_unused env 3 w 1 _ Hfresh) in Hk; [assumption | lia |].
    simpl; tauto.
  - apply (freshUuids_unused env 3 w 2 _ Hfresh) in Hk; [assumption | lia |].
    simpl; tauto.
Qed.

Lemma createDm_other_members (c : Id) :
  c <> cid -> activeMembersOf c ms' = activeMembersOf c (memberships w).
Proof.
  intros Hc. unfold activeMembersOf. rewrite !filter_filter.
  apply filter_putAll_fresh_false.
  - exact createDm_memberships_NoDup.
  - exact createDm_memberships_fresh.
  - intros m [<- | [<- | []]]; simpl; apply str_eqb_neq; congruence.
Qed.

Lemma createDm_new_members : Permutation [mA; mB] (activeMembersOf cid ms').
Proof.
  unfold activeMembersOf, ms'. rewrite !filter_filter.
  rewrite (filter_perm _ _ _
             (putAll_fresh_perm ChatMembership.id [mA; mB] (memberships w)
                createDm_memberships_NoDup createDm_memberships_fresh)).
  simpl. rewrite !str_eqb_refl. simpl.
  rewrite filter_false; [reflexivity|].
  intros m Hm. apply andb_false_iff. right.
  apply str_eqb_neq. now apply createDm_new_chat_unreferenced.
Qed.

Lemma createDm_new_chat_matches : isDmFor a b ms' chat = true.
Proof.
  unfold isDmFor. simpl.
  destruct (Permutation_length_2_inv createDm_new_members) as [-> | ->];
    simpl.
  - apply dmPairMatches_sorted.
  - rewrite dmPairMatches_comm. apply dmPairMatches_sorted.
Qed.

(** After [createDm] created a chat, [findExistingDm] finds that chat. *)
Lemma findExistingDm_after_create :
  findExistingDm a b w = None ->
  createDm env a b w
  = (chat,
     publish memberships_changed
       (publish chats_changed
          (with_memberships (with_chats w (put Chat.id chat (chats w))) ms')))
  /\ findExistingDm a b (snd (createDm env a b w)) = Some chat.
Proof.
  intros Hnone. unfold createDm. rewrite Hnone. simpl.
  split; [reflexivity|].
  rewrite findExistingDm_find in *. simpl.
  fold cid. fold chat. fold mA. fold mB.
  change (put ChatMembership.id mB (put ChatMembership.id mA (memberships w)))
    with ms'.
  destruct (put_fresh_split Chat.id chat (chats w) createDm_new_chat_fresh)
    as (l1 & l2 & E1 & E2).
  rewrite E2. apply find_insert_new; [|exact createDm_new_chat_matches].
  rewrite <- E1, <- Hnone. apply find_ext_in.
  intros c Hc. unfold isDmFor.
  rewrite createDm_other_members; [reflexivity|].
  intros E. pose proof createDm_new_chat_fresh as Hf.
  apply hasKey_false in Hf. apply Hf. rewrite <- E. now apply in_map.
Qed.
End CreateDmFresh.

(** C1. Creating a direct chat is idempotent: with fresh UUIDs for the
    first call, a second [createDm] for the same two profiles, given in
    either order, returns the chat of the first call and leaves every
    store (and the event log) as the first call left it. *)
Theorem createDm_idempotent (env env' : Env) (a b : Id) (w : World) :
  freshUuids env 3 w = true ->
  let first := createDm env a b w in
  Chat.id (fst (createDm env' a b (snd first))) = Chat.id (fst first)
  /\ snd (createDm env' a b (snd first)) = snd first
  /\ Chat.id (fst (createDm env' b a (snd first))) = Chat.id (fst first)
  /\ snd (createDm env' b a (snd first)) = snd first.
Proof.
  intros Hfresh first.
  assert (Hfound : findExistingDm a b (snd first) = Some (fst first)).
  { subst first. destruct (findExistingDm a b w) as [existing|] eqn:E.
    - unfold createDm. rewrite E. exact E.
    - destruct (findExistingDm_after_create env a b w Hfresh E) as [E1 E2].
      rewrite E2, E1. reflexivity. }
  unfold createDm at 1 2.
  rewrite Hfound.
  unfold createDm at 1 2.
  rewrite <- findExistingDm_comm, Hfound. auto.
Qed.

Lemma createDm_idempotent_witness :
  freshUuids envA 3 emptyWorld = true
  /\ (let first := createDm envA (js "Alex") (js "Sam") emptyWorld in
      Chat.id (fst (createDm envB (js "Alex") (js "Sam") (snd first)))
      = Chat.id (fst first)
      /\ snd (createDm envB (js "Alex") (js "Sam") (snd first)) = snd first
      /\ Chat.id (fst (createDm envB (js "Sam") (js "Alex") (snd first)))
         = Chat.id (fst first)
      /\ snd (createDm envB (js "Sam") (js "Alex") (snd first)) = snd first).
Proof.
  split.
  - vm_compute. reflexivity.
  - apply (createDm_idempotent envA envB (js "Alex") (js "Sam") emptyWorld).
    vm_compute. reflexivity.
Defined.

(** ** sendMessage: validation *)

(** C3. A message whose text is empty after trimming and that carries no
    file is rejected with "Cannot send an empty message"; the database and
    the event log stay as they were, so no [Message], [AttachmentMeta] or
    blob is stored. *)
Theorem sendMessage_empty_rejected (env : Env) (input : SendMessageInput.t)
    (w : World) :
  trim (SendMessageInput.text input) = [] ->
  SendMessageInput.files input = [] ->
  sendMessage env input w = (Thrown (js "Cannot send an empty message"), w).
Proof.
  intros Htext Hfiles. unfold sendMessage. now rewrite Htext, Hfiles.
Qed.

Lemma sendMessage_empty_rejected_witness :
  trim (js "  ") = []
  /\ SendMessageInput.files
       (SendMessageInput.mk (js "chat_1") (js "Alex") (js "  ") []) = []
  /\ sendMessage envA
       (SendMessageInput.mk (js "chat_1") (js "Alex") (js "  ") [])
       emptyWorld
     = (Thrown (js "Cannot send an empty message"), emptyWorld).
Proof.
  split; [vm_compute; reflexivity|].
  split; [reflexivity|].
  apply (sendMessage_empty_rejected envA
           (SendMessageInput.mk (js "chat_1") (js "Alex") (js "  ") [])
           emptyWorld);
    vm_compute; reflexivity.
Defined.

Lemma validateFiles_None (files : list File.t) :
  validateFiles files = None ->
  Forall (fun f => File.size f <= maxFileBytes) files.
Proof.
  induction files as [|f files IH]; simpl; intros H; [constructor|].
  unfold validateFile in H.
  destruct (File.size f >? maxFileBytes) eqn:E; [discriminate|].
  constructor; [|now apply IH].
  rewrite Z.gtb_ltb in E. now apply Z.ltb_ge in E.
Qed.

(** C2. Quota enforcement is all or nothing: when a file is larger than
    [maxFileBytes], or the stored attachment bytes plus the new files'
    bytes exceed [maxTotalBytes], [sendMessage] throws and the world is the
    one before the call: every store is unchanged, and so is
    [getTotalAttachmentBytes]. *)
Theorem sendMessage_quota_all_or_nothing (env : Env)
    (input : SendMessageInput.t) (w : World) :
  Exists (fun f => File.size f > maxFileBytes) (SendMessageInput.files input)
  \/ getTotalAttachmentBytes w + sumFileSizes (SendMessageInput.files input)
     > maxTotalBytes ->
  (exists reason, sendMessage env input w = (Thrown reason, w))
  /\ getTotalAttachmentBytes (snd (sendMessage env input w))
     = getTotalAttachmentBytes w.
Proof.
  intros Hquota.
  assert (H : exists reason, sendMessage env input w = (Thrown reason, w)).
  { unfold sendMessage.
    destruct (trim (SendMessageInput.text input)) as [|c t] eqn:Et;
      destruct (SendMessageInput.files input) as [|f files] eqn:Ef;
      try (eexists; reflexivity);
      (destruct (validateFiles _) as [reason|] eqn:Ev;
       [eexists; reflexivity|]);
      (destruct (_ >? maxTotalBytes) eqn:Eq; [eexists; reflexivity|]);
      exfalso; apply validateFiles_None in Ev;
      rewrite Z.gtb_ltb in Eq; apply Z.ltb_ge in Eq;
      (destruct Hquota as [Hbig | Htotal]; [|lia]);
      apply Exists_exists in Hbig as (g & Hg & Hsize);
      rewrite Forall_forall in Ev; specialize (Ev g Hg); lia. }
  split; [exact H|]. destruct H as [reason ->]. reflexivity.
Qed.

Lemma sendMessage_quota_all_or_nothing_witness :
  let stored :=
    AttachmentMeta.mk (js "att_0") (js "msg_0") (js "chat_0")
      AttachmentKind.file (js "big.bin") (js "application/zip")
      maxTotalBytes (js "blob_att_0") 500 in
  let w := with_attachmentsMeta emptyWorld [stored] in
  let input :=
    SendMessageInput.mk (js "chat_0") (js "Alex") (js "one more")
      [File.mk (js "a.txt") (js "text/plain") [Byte.x61]] in
  (Exists (fun f => File.size f > maxFileBytes) (SendMessageInput.files input)
   \/ getTotalAttachmentBytes w + sumFileSizes (SendMessageInput.files input)
      > maxTotalBytes)
  /\ (exists reason, sendMessage envA input w = (Thrown reason, w))
  /\ getTotalAttachmentBytes (snd (sendMessage envA input w))
     = getTotalAttachmentBytes w.
Proof.
  intros stored w input.
  assert (H : getTotalAttachmentBytes w
              + sumFileSizes (SendMessageInput.files input) > maxTotalBytes)
    by (vm_compute; reflexivity).
  split; [right; exact H|].
  exact (sendMessage_quota_all_or_nothing envA input w (or_intror H)).
Defined.

(** ** deriveMessageType *)

Lemma startsWith_prefix (s prefix : JsString) :
  startsWith s prefix = true <-> exists rest, s = prefix ++ rest.
Proof.
  revert s; induction prefix as [|p prefix IH]; intros [|c s]; simpl.
  - split; [intros _; now exists [] | reflexivity].
  - split; [intros _; now exists (c :: s) | reflexivity].
  - split; [discriminate | intros [rest H]; discriminate].
  - rewrite andb_true_iff, Z.eqb_eq, IH. split.
    + intros [-> [rest ->]]. now exists rest.
    + intros [rest H]. injection H as -> ->. split; [reflexivity|].
      now exists rest.
Qed.

(** C6. The kind of the message [sendMessage] stores is
    [deriveMessageType] of the trimmed text and the files: no file gives
    [text]; one file with empty trimmed text gives [image] when the MIME
    type of the file starts with "image/" and [file] otherwise; everything
    else (a file with text, or several files) gives [mixed]. *)
Theorem message_kind_derivation (env : Env) (input : SendMessageInput.t)
    (w : World) :
  let trimmed := trim (SendMessageInput.text input) in
  let files := SendMessageInput.files input in
  match fst (sendMessage env input w) with
  | Returned m => Message.type m = deriveMessageType trimmed files
  | Thrown _ => True
  end
  /\ (files = [] -> deriveMessageType trimmed files = MessageType.text)
  /\ (forall f, files = [f] -> trimmed = [] ->
      (isImageMime (File.type f) = true
       <-> exists rest, File.type f = js "image/" ++ rest)
      /\ deriveMessageType trimmed files
         = if isImageMime (File.type f)
           then MessageType.image else MessageType.file)
  /\ (files <> [] -> trimmed <> [] \/ (1 < length files)%nat ->
      deriveMessageType trimmed files = MessageType.mixed).
Proof.
  intros trimmed files. repeat split.
  - unfold sendMessage. fold trimmed. fold files.
    destruct (match trimmed, files with [], [] => true | _, _ => false end);
      [exact I|].
    destruct (validateFiles files); [exact I|].
    destruct (_ >? maxTotalBytes); [exact I|].
    destruct (storeFiles _ _ _ _ _ _ _) as [attachmentIds w1]. reflexivity.
  - intros ->. reflexivity.
  - apply startsWith_prefix.
  - apply startsWith_prefix.
  - subst files. rewrite H, H0. reflexivity.
  - intros Hne Hmixed. destruct files as [|f [|g rest]]; simpl in *.
    + contradiction.
    + destruct Hmixed as [Ht | Hl]; [|lia].
      destruct trimmed; [contradiction | reflexivity].
    + reflexivity.
Qed.

(** ** createProfile *)

Lemma pickAvatarColor_in_COLORS (seed : JsString) :
  In (pickAvatarColor seed) COLORS.
Proof.
  unfold pickAvatarColor. apply nth_In.
  change (length COLORS) with 8%nat.
  pose proof (Z.mod_pos_bound (Z.abs (hashOf seed)) 8 ltac:(lia)).
  change (Z.of_nat 8) with 8. lia.
Qed.

Lemma put_In {V} (key : V -> Id) (v : V) (s : list V) : In v (put key v s).
Proof. exact (proj1 (getByKey_Some_In key _ _ _ (getByKey_put_same key v s))). Qed.

(** [getAll] lists the records by key, not by time of insertion:
    "profile_A0" was stored after "profile_B0". *)
Example getAll_in_key_order :
  List.map Profile.id
    (profiles
       (snd (createProfile envA (js "Alex")
               (snd (createProfile envB (js "Sam") emptyWorld)))))
  = [js "profile_A0"; js "profile_B0"].
Proof. vm_compute. reflexivity. Qed.

(** C8, as the code has it. [createProfile] validates nothing and rejects
    no name: it always stores a profile whose [displayName] is the trimmed
    name, whatever its length, whose avatar color is the palette entry
    [pickAvatarColor] computes from the name as given (untrimmed), whose id
    is a fresh "profile_" id and whose two timestamps are the current
    time; the other stores are untouched. *)
Theorem createProfile_stores_trimmed_name (env : Env) (name : JsString)
    (w : World) :
  let p := fst (createProfile env name w) in
  let w' := snd (createProfile env name w) in
  Profile.displayName p = trim name
  /\ Profile.avatarColor p = pickAvatarColor name
  /\ In (Profile.avatarColor p) COLORS
  /\ Profile.id p = createId "profile" (uuid env 0)
  /\ (freshUuids env 1 w = true -> ~ In (Profile.id p) (knownIds w))
  /\ Profile.createdAt p = now env
  /\ Profile.updatedAt p = now env
  /\ getProfileById (Profile.id p) w' = Some p
  /\ In p (profiles w')
  /\ chats w' = chats w /\ memberships w' = memberships w
  /\ messages w' = messages w /\ attachmentsMeta w' = attachmentsMeta w
  /\ attachmentsBlob w' = attachmentsBlob w.
Proof.
  intros p w'. subst p w'. unfold createProfile. simpl.
  repeat split.
  - apply pickAvatarColor_in_COLORS.
  - intros Hfresh.
    apply (freshUuids_unused env 1 w 0 _ Hfresh); [lia | simpl; tauto].
  - unfold getProfileById. simpl.
    apply (getByKey_put_same Profile.id
             (Profile.mk (createId "profile" (uuid env 0)) (trim name)
                (pickAvatarColor name) (now env) (now env))).
  - apply put_In.
Qed.

(** C8, as stated, fails: a blank name is not rejected; a profile with an
    empty [displayName] is stored. So is one with a name of 65 characters. *)
Lemma createProfile_accepts_invalid_names :
  (let r := createProfile envA (js "   ") emptyWorld in
   In (fst r) (profiles (snd r))
   /\ ~ (1 <= str_length (Profile.displayName (fst r)) <= 64))
  /\ (let r := createProfile envA (repeat 97 65) emptyWorld in
      In (fst r) (profiles (snd r))
      /\ ~ (1 <= str_length (Profile.displayName (fst r)) <= 64)).
Proof.
  split; (split; [apply put_In|]).
  - assert (E : str_length
                  (Profile.displayName
                     (fst (createProfile envA (js "   ") emptyWorld))) = 0)
      by (vm_compute; reflexivity).
    rewrite E. lia.
  - assert (E : str_length
                  (Profile.displayName
                     (fst (createProfile envA (repeat 97 65) emptyWorld))) = 65)
      by (vm_compute; reflexivity).
    rewrite E. lia.
Qed.

(** ** getMessages *)

Lemma resolveAttachments_In (blobs : list (JsString * File.t))
    (metas : list AttachmentMeta.t) (a : AttachmentWithBlob.t) :
  In a (resolveAttachments blobs metas)
  <-> In (AttachmentWithBlob.meta a) metas
      /\ option_map snd
           (getByKey fst
              (AttachmentMeta.blobKey (AttachmentWithBlob.meta a)) blobs)
         = Some (AttachmentWithBlob.blob a).
Proof.
  induction metas as [|meta metas IH]; simpl; [tauto|].
  destruct (getByKey fst (AttachmentMeta.blobKey meta) blobs)
    as [[k blob]|] eqn:E; simpl; rewrite IH.
  - split.
    + intros [<- | [Hin Hb]]; simpl; [rewrite E|]; auto.
    + intros [[-> | Hin] Hb]; [|auto]. left.
      rewrite E in Hb. destruct a; simpl in *. congruence.
  - split.
    + intros [Hin Hb]; auto.
    + intros [[-> | Hin] Hb]; [|auto]. rewrite E in Hb. discriminate.
Qed.

Lemma getMessages_unfold (chatId : Id) (w : World) :
  getMessages chatId w
  = List.map
      (fun message =>
         MessageWithAttachments.mk message
           (resolveAttachments (attachmentsBlob w)
              (filter
                 (fun meta =>
                    str_eqb (AttachmentMeta.messageId meta)
                      (Message.id message))
                 (filter
                    (fun meta => str_eqb (AttachmentMeta.chatId meta) chatId)
                    (attachmentsMeta w)))))
      (sortBy (fun a b => Message.createdAt a - Message.createdAt b)
         (filter (fun message => str_eqb (Message.chatId message) chatId)
            (messages w))).
Proof.
  unfold getMessages. apply map_ext. intros message.
  now rewrite mapGetOrEmpty_groupBy.
Qed.

(** C10. [getMessages] returns every message of the chat, in the order of
    the sort by [createdAt], whether or not the blobs of its attachments
    exist; the attachments of a returned message are exactly the stored
    [AttachmentMeta] of that chat and message whose [blobKey] has a blob,
    paired with that blob. An [AttachmentMeta] without blob is left out. *)
Theorem getMessages_skips_missing_blobs (chatId : Id) (w : World) :
  List.map MessageWithAttachments.message (getMessages chatId w)
  = sortBy (fun a b => Message.createdAt a - Message.createdAt b)
      (filter (fun message => str_eqb (Message.chatId message) chatId)
         (messages w))
  /\ Forall
       (fun mwa =>
          forall a,
            In a (MessageWithAttachments.attachments mwa)
            <-> In (AttachmentWithBlob.meta a) (attachmentsMeta w)
                /\ AttachmentMeta.chatId (AttachmentWithBlob.meta a) = chatId
                /\ AttachmentMeta.messageId (AttachmentWithBlob.meta a)
                   = Message.id (MessageWithAttachments.message mwa)
                /\ option_map snd
                     (getByKey fst
                        (AttachmentMeta.blobKey (AttachmentWithBlob.meta a))
                        (attachmentsBlob w))
                   = Some (AttachmentWithBlob.blob a))
       (getMessages chatId w).
Proof.
  rewrite getMessages_unfold. split.
  - rewrite map_map. simpl. apply map_id.
  - apply Forall_forall. intros mwa Hin.
    apply in_map_iff in Hin as (message & <- & _). simpl. intros a.
    rewrite resolveAttachments_In, !filter_In, !str_eqb_eq. tauto.
Qed.

(** ** getVisibleChatsForProfile *)

Lemma StronglySorted_key_ext {A} (k1 k2 : A -> Z) (l : list A) :
  (forall x, In x l -> k1 x = k2 x) ->
  StronglySorted (fun a b => k1 a >= k1 b) l ->
  StronglySorted (fun a b => k2 a >= k2 b) l.
Proof.
  intros Hext Hs. induction Hs as [|x l Hs IH Hx]; constructor.
  - apply IH. intros y Hy. apply Hext. now right.
  - rewrite Forall_forall in *. intros y Hy.
    rewrite <- (Hext x (or_introl eq_refl)), <- (Hext y (or_intror Hy)).
    now apply Hx.
Qed.

Lemma getVisibleChatsForProfile_item (profileId : Id) (w : World)
    (item : ChatListItem.t) :
  In item (getVisibleChatsForProfile profileId w) ->
  In (ChatListItem.chat item) (chats w)
  /\ ChatListItem.lastMessageAt item
     = Chat.lastMessageAt (ChatListItem.chat item)
  /\ exists m, In m (memberships w)
               /\ ChatMembership.leftAt m = None
               /\ ChatMembership.profileId m = profileId
               /\ ChatMembership.chatId m = Chat.id (ChatListItem.chat item).
Proof.
  unfold getVisibleChatsForProfile. rewrite sortBy_In, in_map_iff.
  intros (chat & <- & Hchat). simpl.
  apply filter_In in Hchat as [Hin Hvis].
  split; [assumption|]. split; [reflexivity|].
  apply str_mem_In, in_map_iff in Hvis as (m & Hid & Hm).
  apply filter_In in Hm as [Hm Hp]. apply filter_In in Hm as [Hm Hact].
  exists m. apply str_eqb_eq in Hp.
  destruct (ChatMembership.leftAt m); [discriminate | auto].
Qed.

(** C5. Every chat that [getVisibleChatsForProfile] lists for a profile is
    a stored chat in which the profile has an active membership, so
    [canProfileAccessChat] holds for it; and the list is in descending
    order of the chat's [lastMessageAt], with [updatedAt] standing in when
    [lastMessageAt] is null. *)
Theorem getVisibleChatsForProfile_access_sorted (profileId : Id) (w : World) :
  Forall
    (fun item =>
       In (ChatListItem.chat item) (chats w)
       /\ canProfileAccessChat profileId (Chat.id (ChatListItem.chat item)) w
          = true)
    (getVisibleChatsForProfile profileId w)
  /\ StronglySorted
       (fun x y =>
          chatActivity (ChatListItem.chat x)
          >= chatActivity (ChatListItem.chat y))
       (getVisibleChatsForProfile profileId w).
Proof.
  split.
  - apply Forall_forall. intros item Hitem.
    apply getVisibleChatsForProfile_item in Hitem
      as (Hchat & _ & m & Hm & Hleft & Hp & Hc).
    split; [assumption|].
    unfold canProfileAccessChat, getMembershipsByChat.
    apply existsb_exists. exists m. split.
    + apply filter_In. split; [assumption | now apply str_eqb_eq].
    + rewrite Hleft. simpl. rewrite andb_true_r. now apply str_eqb_eq.
  - apply (StronglySorted_key_ext itemActivity).
    + intros item Hitem.
      apply getVisibleChatsForProfile_item in Hitem as (_ & Hlast & _).
      unfold itemActivity, chatActivity. now rewrite Hlast.
    + unfold getVisibleChatsForProfile. apply sortBy_desc_sorted.
Qed.

(** ** addGroupMembers *)

Lemma addGroupMembers_loop_all_active (env : Env) (chatId actor : Id)
    (activeMemberSet : list Id) (names : World) (ids : list Id) (n : nat)
    (w : World) :
  Forall (fun p => str_mem p activeMemberSet = true) ids ->
  addGroupMembers_loop env chatId actor activeMemberSet names ids n w = w.
Proof.
  induction 1 as [|p ids Hp _ IH]; simpl; [reflexivity|].
  now rewrite Hp.
Qed.

(** When every given id already has an active membership, the embedded
    code path adds nothing but still rewrites the chat record with
    [updatedAt = lastMessageAt = now] and publishes its three events. *)
Lemma addGroupMembers_all_active (env : Env) (chatId actor : Id)
    (profileIds : list Id) (w : World) :
  unique profileIds <> [] ->
  Forall (fun p => canProfileAccessChat p chatId w = true)
    (unique profileIds) ->
  addGroupMembers env chatId actor profileIds w
  = publish chats_changed
      (publish messages_changed
         (publish memberships_changed
            (touchChat (getChat chatId w) (now env) w))).
Proof.
  intros Hne Hall. unfold addGroupMembers.
  destruct (unique profileIds) as [|p ids] eqn:E; [contradiction|].
  rewrite addGroupMembers_loop_all_active; [reflexivity|].
  rewrite Forall_forall in *. intros q Hq. specialize (Hall q Hq).
  unfold canProfileAccessChat in Hall.
  apply existsb_exists in Hall as (m & Hm & Hact).
  apply andb_true_iff in Hact as [Hp Hact]. apply str_eqb_eq in Hp.
  apply str_mem_In, in_map_iff. exists m. split; [assumption|].
  apply filter_In. auto.
Qed.

(** C7, on the code. In the group of "Alex", "Sam" and "Casey", adding
    "Sam" again creates no membership and no message, yet the chat record
    changes: [updatedAt] and [lastMessageAt] move from 1000 to 2000, and
    three events are published. *)
Theorem addGroupMembers_existing_member_touches_chat :
  let w' := addGroupMembers envB weekendChatId (js "Alex") [js "Sam"]
              weekendWorld in
  canProfileAccessChat (js "Sam") weekendChatId weekendWorld = true
  /\ memberships w' = memberships weekendWorld
  /\ messages w' = messages weekendWorld
  /\ option_map Chat.updatedAt (getChat weekendChatId weekendWorld)
     = Some 1000
  /\ option_map Chat.lastMessageAt (getChat weekendChatId weekendWorld)
     = Some (Some 1000)
  /\ option_map Chat.updatedAt (getChat weekendChatId w') = Some 2000
  /\ option_map Chat.lastMessageAt (getChat weekendChatId w')
     = Some (Some 2000)
  /\ published w'
     = published weekendWorld
       ++ [memberships_changed; messages_changed; chats_changed].
Proof. vm_compute. repeat split; reflexivity. Qed.

(** ** The membership invariant *)

Lemma fresh_range_NoDup (env : Env) (N : nat) (w : World) (prefix : string)
    (i n : nat) :
  freshUuids env N w = true -> (i + n <= N)%nat ->
  NoDup (List.map (fun k => createId prefix (uuid env k)) (seq i n)).
Proof.
  intros H Hle. apply NoDup_map_NoDup_ForallPairs; [|apply seq_NoDup].
  intros x y Hx Hy E. apply createId_inj in E.
  apply in_seq in Hx, Hy.
  destruct (Nat.eq_dec x y) as [|Hne]; [assumption|].
  exfalso. apply (freshUuids_neq env N w x y H); try lia; assumption.
Qed.

Lemma fresh_membership_key (env : Env) (N : nat) (w : World) (k : nat) :
  freshUuids env N w = true -> (k < N)%nat ->
  hasKey ChatMembership.id (createId "membership" (uuid env k))
    (memberships w) = false.
Proof.
  intros H Hk. apply hasKey_false. intros Hin.
  apply (freshUuids_unused env N w k
           (createId "membership" (uuid env k)) H Hk); [simpl; tauto|].
  unfold knownIds. rewrite !in_app_iff. tauto.
Qed.

Lemma fresh_chat_unreferenced (env : Env) (N : nat) (w : World) (k : nat)
    (m : ChatMembership.t) :
  freshUuids env N w = true -> (k < N)%nat -> In m (memberships w) ->
  ChatMembership.chatId m <> createId "chat" (uuid env k).
Proof.
  intros H Hk Hin E.
  apply (freshUuids_unused env N w k
           (createId "chat" (uuid env k)) H Hk); [simpl; tauto|].
  unfold knownIds. rewrite !in_app_iff. do 3 right. left.
  rewrite <- E. now apply in_map.
Qed.

Lemma hasKey_put {V} (key : V -> Id) (k : Id) (v : V) (s : list V) :
  hasKey key k (put key v s) = str_eqb (key v) k || hasKey key k s.
Proof.
  unfold put. destruct (hasKey key (key v) s) eqn:H.
  - assert (E : hasKey key k (replaceKey key v s) = hasKey key k s).
    { unfold hasKey, replaceKey. clear H.
      induction s as [|u s IH]; simpl; [reflexivity|]. rewrite IH.
      destruct (str_eqb (key u) (key v)) eqn:Eu; [|reflexivity].
      apply str_eqb_eq in Eu. now rewrite Eu. }
    rewrite E. destruct (str_eqb (key v) k) eqn:Ek; [|reflexivity].
    apply str_eqb_eq in Ek. now rewrite <- Ek, H.
  - destruct (insertSorted_split key v s) as (l1 & l2 & -> & ->).
    unfold hasKey. rewrite !existsb_app. simpl.
    destruct (existsb _ l1), (str_eqb (key v) k); reflexivity.
Qed.

Lemma activeFor_putAll_fresh (c p : Id) (new ms : list ChatMembership.t) :
  NoDup (List.map ChatMembership.id new) ->
  (forall m, In m new ->
     hasKey ChatMembership.id (ChatMembership.id m) ms = false) ->
  length (activeFor c p (putAll ChatMembership.id new ms))
  = (length (activeFor c p new) + length (activeFor c p ms))%nat.
Proof.
  intros Hnd Hfresh. unfold activeFor.
  rewrite (Permutation_length
             (filter_perm _ _ _
                (putAll_fresh_perm ChatMembership.id new ms Hnd Hfresh))).
  now rewrite filter_app, length_app.
Qed.

Lemma activeFor_put_fresh (c p : Id) (m : ChatMembership.t)
    (ms : list ChatMembership.t) :
  hasKey ChatMembership.id (ChatMembership.id m) ms = false ->
  length (activeFor c p (put ChatMembership.id m ms))
  = (length (activeFor c p [m]) + length (activeFor c p ms))%nat.
Proof.
  intros H. apply (activeFor_putAll_fresh c p [m] ms).
  - simpl. constructor; [intros [] | constructor].
  - intros m' [<- | []]. exact H.
Qed.

Lemma activeFor_unreferenced (c p : Id) (ms : list ChatMembership.t) :
  (forall m, In m ms -> ChatMembership.chatId m <> c) ->
  activeFor c p ms = [].
Proof.
  intros H. apply filter_false. intros m Hm.
  apply (H m) in Hm. apply str_eqb_neq in Hm. now rewrite Hm.
Qed.

Lemma filter_le1 {A} (G : A -> bool) (p : A) (l : list A) :
  (forall x, G x = true -> x = p) -> NoDup l ->
  (length (filter G l) <= 1)%nat.
Proof.
  intros HG Hnd. induction Hnd as [|x l Hx Hnd IH]; simpl; [lia|].
  destruct (G x) eqn:E; [|exact IH].
  rewrite filter_false; [simpl; lia|].
  intros y Hy. destruct (G y) eqn:Ey; [|reflexivity].
  apply HG in E, Ey. subst. contradiction.
Qed.

Lemma unique_In (x : Id) (l : list Id) : In x (unique l) <-> In x l.
Proof.
  induction l as [|y l IH]; simpl; [tauto|].
  rewrite filter_In, IH, negb_true_iff, str_eqb_neq.
  destruct (list_eq_dec Z.eq_dec y x) as [-> | Hne]; tauto.
Qed.

Lemma unique_NoDup (l : list Id) : NoDup (unique l).
Proof.
  induction l as [|x l IH]; simpl; constructor.
  - rewrite filter_In, negb_true_iff, str_eqb_neq. tauto.
  - now apply NoDup_filter.
Qed.

Section MapiFacts.
Context {A B : Type} (f : nat -> A -> B).

Lemma map_mapi_from_index {C} (g : B -> C) (h : nat -> C) (l : list A)
    (i : nat) :
  (forall k x, g (f k x) = h k) ->
  List.map g (mapi_from i f l) = List.map h (seq i (length l)).
Proof.
  intros H. revert i. induction l as [|x l IH]; intros i; simpl;
    [reflexivity|]. now rewrite H, IH.
Qed.

Lemma filter_mapi_from_length (F : B -> bool) (G : A -> bool) (l : list A)
    (i : nat) :
  (forall k x, F (f k x) = G x) ->
  length (filter F (mapi_from i f l)) = length (filter G l).
Proof.
  intros H. revert i. induction l as [|x l IH]; intros i; simpl;
    [reflexivity|]. rewrite H. destruct (G x); simpl; now rewrite IH.
Qed.

Lemma In_mapi_from (y : B) (l : list A) (i : nat) :
  In y (mapi_from i f l) ->
  exists k x, y = f k x /\ In x l /\ (i <= k < i + length l)%nat.
Proof.
  revert i. induction l as [|x l IH]; intros i; simpl; [intros []|].
  intros [<- | Hin].
  - exists i, x. repeat split; auto; lia.
  - apply IH in Hin as (k & z & -> & Hz & Hk).
    exists k, z. repeat split; auto; lia.
Qed.
End MapiFacts.

Lemma memberships_touchChat (existingChat : option Chat.t) (t : Z) (w : World) :
  memberships (touchChat existingChat t w) = memberships w.
Proof. destruct existingChat; reflexivity. Qed.

Lemma storeFiles_frame (env : Env) (messageId chatId : Id)
    (files : list File.t) (n : nat) (acc : list Id) (w : World) :
  let w' := snd (storeFiles env messageId chatId files n acc w) in
  profiles w' = profiles w /\ chats w' = chats w
  /\ memberships w' = memberships w /\ messages w' = messages w
  /\ published w' = published w.
Proof.
  revert n acc w. induction files as [|f files IH]; intros n acc w; simpl;
    [tauto|].
  match goal with
  | |- context [storeFiles env messageId chatId files ?n' ?acc' ?w'] =>
      specialize (IH n' acc' w')
  end.
  simpl in IH. exact IH.
Qed.

Lemma sendMessage_memberships (env : Env) (input : SendMessageInput.t)
    (w : World) :
  memberships (snd (sendMessage env input w)) = memberships w.
Proof.
  unfold sendMessage.
  destruct (match trim (SendMessageInput.text input),
                  SendMessageInput.files input with
            | [], [] => true | _, _ => false end); [reflexivity|].
  destruct (validateFiles _); [reflexivity|].
  destruct (_ >? maxTotalBytes); [reflexivity|].
  destruct (storeFiles _ _ _ _ _ _ _) as [attachmentIds w1] eqn:E.
  simpl. rewrite memberships_touchChat. simpl.
  pose proof (storeFiles_frame env (createId "msg" (uuid env 0))
                (SendMessageInput.chatId input)
                (SendMessageInput.files input) 1 [] w) as H.
  rewrite E in H. simpl in H. tauto.
Qed.

Lemma createDm_preserves_uniqueActive (env : Env) (a b : Id) (w : World) :
  freshUuids env 3 w = true -> a <> b ->
  uniqueActive w -> uniqueActive (snd (createDm env a b w)).
Proof.
  intros Hfresh Hab Hinv.
  destruct (findExistingDm a b w) as [existing|] eqn:E.
  - unfold createDm. now rewrite E.
  - destruct (findExistingDm_after_create env a b w Hfresh E) as [Heq _].
    assert (Hms : memberships (snd (createDm env a b w))
                  = putAll ChatMembership.id
                      [ChatMembership.mk (createId "membership" (uuid env 1))
                         (createId "chat" (uuid env 0)) a owner (now env) None;
                       ChatMembership.mk (createId "membership" (uuid env 2))
                         (createId "chat" (uuid env 0)) b member (now env) None]
                      (memberships w))
      by (rewrite Heq; reflexivity).
    intros c p. rewrite Hms.
    rewrite (activeFor_putAll_fresh c p _ _
               (createDm_memberships_NoDup env a b w Hfresh)
               (createDm_memberships_fresh env a b w Hfresh)).
    destruct (str_eqb (createId "chat" (uuid env 0)) c) eqn:Ec.
    + apply str_eqb_eq in Ec. subst c.
      rewrite (activeFor_unreferenced _ p (memberships w))
        by (intros m; apply (fresh_chat_unreferenced env 3 w 0 m Hfresh);
            lia).
      unfold activeFor. simpl. rewrite !str_eqb_refl. simpl.
      destruct (str_eqb a p) eqn:Ea, (str_eqb b p) eqn:Eb; simpl; try lia.
      apply str_eqb_eq in Ea, Eb. congruence.
    + unfold activeFor at 1. simpl. rewrite Ec. simpl. apply Hinv.
Qed.

Lemma createGroup_preserves_uniqueActive (env : Env)
    (input : CreateGroupInput.t) (w : World) :
  freshUuids env
    (2 + length (unique (CreateGroupInput.ownerProfileId input
                         :: CreateGroupInput.memberProfileIds input))) w
  = true ->
  uniqueActive w -> uniqueActive (snd (createGroup env input w)).
Proof.
  intros Hfresh Hinv c p.
  pose (mk := fun (index : nat) (profileId : Id) =>
                ChatMembership.mk
                  (createId "membership" (uuid env (S index)))
                  (createId "chat" (uuid env 0)) profileId
                  (if str_eqb profileId (CreateGroupInput.ownerProfileId input)
                   then owner else member) (now env) None).
  assert (Hms : memberships (snd (createGroup env input w))
                = putAll ChatMembership.id
                    (mapi_from 0 mk
                       (unique (CreateGroupInput.ownerProfileId input
                                :: CreateGroupInput.memberProfileIds input)))
                    (memberships w)) by reflexivity.
  rewrite Hms. clear Hms.
  remember (unique (CreateGroupInput.ownerProfileId input
                    :: CreateGroupInput.memberProfileIds input))
    as members eqn:Em.
  rewrite activeFor_putAll_fresh.
  - assert (Hnew : (length (activeFor c p (mapi_from 0 mk members)) <= 1)%nat).
    { unfold activeFor.
      rewrite (filter_mapi_from_length mk _
                 (fun x => str_eqb (createId "chat" (uuid env 0)) c
                           && str_eqb x p && true))
        by reflexivity.
      apply (filter_le1 _ p); [|rewrite Em; apply unique_NoDup].
      intros x Hx. rewrite andb_true_r in Hx.
      apply andb_true_iff in Hx as [_ Hx]. now apply str_eqb_eq. }
    destruct (str_eqb (createId "chat" (uuid env 0)) c) eqn:Ec.
    + apply str_eqb_eq in Ec. subst c.
      rewrite (activeFor_unreferenced _ p (memberships w)); [simpl; lia|].
      intros m. apply (fresh_chat_unreferenced env _ w 0 m Hfresh). lia.
    + assert (Hzero : activeFor c p (mapi_from 0 mk members) = []).
      { apply filter_false. intros m Hm.
        apply In_mapi_from in Hm as (k & x & -> & _). simpl. now rewrite Ec. }
      rewrite Hzero. simpl. apply Hinv.
  - rewrite (map_mapi_from_index mk ChatMembership.id
               (fun k => createId "membership" (uuid env (S k))))
      by reflexivity.
    rewrite <- (map_map S (fun k => createId "membership" (uuid env k))).
    rewrite seq_shift.
    apply (fresh_range_NoDup env _ w "membership" 1 (length members) Hfresh).
    lia.
  - intros m Hm. apply In_mapi_from in Hm as (k & x & -> & _ & Hk). simpl.
    apply (fresh_membership_key env _ w (S k) Hfresh). simpl in Hk. lia.
Qed.

Lemma activeMemberSet_spec (chatId p : Id) (w : World) :
  str_mem p
    (List.map ChatMembership.profileId
       (filter (fun m => isNull (ChatMembership.leftAt m))
          (getMembershipsByChat chatId w))) = false ->
  activeFor chatId p (memberships w) = [].
Proof.
  intros H. apply filter_false. intros m Hm.
  destruct (str_eqb (ChatMembership.chatId m) chatId
            && str_eqb (ChatMembership.profileId m) p
            && isNull (ChatMembership.leftAt m)) eqn:E; [|reflexivity].
  apply andb_true_iff in E as [E Hact]. apply andb_true_iff in E as [Hc Hp].
  apply str_mem_not_In in H. exfalso. apply H.
  apply str_eqb_eq in Hp. rewrite <- Hp. apply in_map.
  apply filter_In. split; [|assumption].
  apply filter_In. auto.
Qed.

Section AddGroupMembersLoop.
Variables (env : Env) (chatId actor : Id) (active : list Id) (names : World).
Variable N : nat.
Hypothesis Hdistinct :
  forall i j, (i < N)%nat -> (j < N)%nat -> i <> j -> uuid env i <> uuid env j.

(** The loop adds one active membership of [chatId] for every given id
    that is not in [activeMemberSet], and nothing else. *)
Lemma addGroupMembers_loop_count (c p : Id) (ids : list Id) :
  forall (n : nat) (w : World),
  NoDup ids ->
  (n + 2 * length ids <= N)%nat ->
  (forall k, (n <= k < N)%nat ->
     hasKey ChatMembership.id (createId "membership" (uuid env k))
       (memberships w) = false) ->
  length
    (activeFor c p
       (memberships
          (addGroupMembers_loop env chatId actor active names ids n w)))
  = (length (activeFor c p (memberships w))
     + (if str_eqb chatId c && str_mem p ids && negb (str_mem p active)
        then 1 else 0))%nat.
Proof.
  induction ids as [|q rest IH]; intros n w Hnd Hn Hfresh.
  - simpl. rewrite andb_false_r. simpl. lia.
  - inversion Hnd as [|? ? Hq Hnd']; subst.
    cbn [addGroupMembers_loop]. cbn [length] in Hn.
    assert (Hmem : str_mem p (q :: rest) = str_eqb p q || str_mem p rest)
      by reflexivity.
    rewrite Hmem. clear Hmem.
    destruct (str_mem q active) eqn:Hact.
    + rewrite (IH n w Hnd'); [| lia | assumption].
      destruct (str_eqb p q) eqn:Epq; [|reflexivity].
      apply str_eqb_eq in Epq. subst q. rewrite Hact.
      now rewrite !andb_false_r.
    + rewrite IH; [| assumption | lia |].
      * cbn [memberships with_messages with_memberships].
        rewrite activeFor_put_fresh by (apply Hfresh; lia).
        unfold activeFor at 1.
        cbn [filter ChatMembership.chatId ChatMembership.profileId
             ChatMembership.leftAt isNull].
        rewrite andb_true_r, (str_eqb_sym q p).
        destruct (str_eqb p q) eqn:Epq.
        -- apply str_eqb_eq in Epq. subst q. rewrite Hact.
           apply str_mem_not_In in Hq. rewrite Hq.
           destruct (str_eqb chatId c); simpl; lia.
        -- rewrite andb_false_r. simpl. lia.
      * intros k Hk. cbn [memberships with_messages with_memberships].
        rewrite hasKey_put.
        cbn [ChatMembership.id]. rewrite (Hfresh k) by lia.
        rewrite orb_false_r. apply str_eqb_neq. intros E.
        apply createId_inj in E. revert E. apply Hdistinct; lia.
Qed.

(** A predicate that rejects the memberships the loop creates sees the
    same memberships before and after it. *)
Lemma addGroupMembers_loop_filter (f : ChatMembership.t -> bool)
    (ids : list Id) :
  forall (n : nat) (w : World),
  (n + 2 * length ids <= N)%nat ->
  (forall k, (n <= k < N)%nat ->
     hasKey ChatMembership.id (createId "membership" (uuid env k))
       (memberships w) = false) ->
  (forall k q, In q ids -> str_mem q active = false ->
     f (ChatMembership.mk (createId "membership" (uuid env k)) chatId q
          member (now env) None) = false) ->
  filter f
    (memberships (addGroupMembers_loop env chatId actor active names ids n w))
  = filter f (memberships w).
Proof.
  induction ids as [|q rest IH]; intros n w Hn Hfresh Hf; [reflexivity|].
  cbn [addGroupMembers_loop]. cbn [length] in Hn.
  destruct (str_mem q active) eqn:Hact.
  - apply IH; [lia | assumption |].
    intros k q' Hq'. apply Hf. now right.
  - rewrite IH; [| lia | |].
    + cbn [memberships with_messages with_memberships].
      apply filter_put_fresh_false; [apply Hfresh; lia|].
      apply Hf; [now left | assumption].
    + intros k Hk. cbn [memberships with_messages with_memberships].
      rewrite hasKey_put.
      cbn [ChatMembership.id]. rewrite (Hfresh k) by lia.
      rewrite orb_false_r. apply str_eqb_neq. intros E.
      apply createId_inj in E. revert E. apply Hdistinct; lia.
    + intros k q' Hq'. apply Hf. now right.
Qed.
End AddGroupMembersLoop.

Lemma addGroupMembers_memberships (env : Env) (chatId actor : Id)
    (profileIds : list Id) (w : World) :
  memberships (addGroupMembers env chatId actor profileIds w)
  = memberships
      (addGroupMembers_loop env chatId actor
         (List.map ChatMembership.profileId
            (filter (fun m => isNull (ChatMembership.leftAt m))
               (getMembershipsByChat chatId w)))
         w (unique profileIds) 0 w).
Proof.
  unfold addGroupMembers.
  destruct (unique profileIds) as [|q rest]; [reflexivity|].
  cbn [publish memberships]. now rewrite memberships_touchChat.
Qed.

Lemma addGroupMembers_preserves_uniqueActive (env : Env) (chatId actor : Id)
    (profileIds : list Id) (w : World) :
  freshUuids env (2 * length (unique profileIds)) w = true ->
  uniqueActive w ->
  uniqueActive (addGroupMembers env chatId actor profileIds w).
Proof.
  intros Hfresh Hinv c p. rewrite addGroupMembers_memberships.
  rewrite (addGroupMembers_loop_count env chatId actor _ w
             (2 * length (unique profileIds))).
  - destruct (str_eqb chatId c) eqn:Ec; simpl; [|specialize (Hinv c p); lia].
    apply str_eqb_eq in Ec. subst c.
    destruct (str_mem p (unique profileIds)); simpl;
      [|specialize (Hinv chatId p); lia].
    destruct (str_mem p _) eqn:Hact; simpl;
      [specialize (Hinv chatId p); lia|].
    rewrite (activeMemberSet_spec chatId p w Hact). simpl. lia.
  - intros i j Hi Hj. now apply (freshUuids_neq env _ w i j Hfresh).
  - apply unique_NoDup.
  - lia.
  - intros k Hk. apply (fresh_membership_key env _ w k Hfresh). lia.
Qed.

Lemma leaveGroup_preserves_uniqueActive (env : Env) (chatId profileId : Id)
    (w : World) :
  uniqueActive w -> uniqueActive (leaveGroup env chatId profileId w).
Proof.
  intros Hinv c p. unfold leaveGroup.
  destruct (find _ (getMembershipsByChat chatId w)) as [active|] eqn:E;
    [|apply Hinv].
  cbn [publish memberships]. rewrite memberships_touchChat.
  cbn [memberships with_messages with_memberships].
  apply find_some in E as [Hin _].
  apply filter_In in Hin as [Hin _].
  unfold put. cbn [ChatMembership.id].
  assert (Hkey : hasKey ChatMembership.id (ChatMembership.id active)
                   (memberships w) = true)
    by (apply hasKey_true; now apply in_map).
  rewrite Hkey.
  etransitivity; [|apply (Hinv c p)].
  unfold activeFor. apply filter_replaceKey_length.
  cbn [ChatMembership.leftAt isNull]. now rewrite andb_false_r.
Qed.

Lemma canProfileAccessChat_activeMember (p chatId : Id) (w : World) :
  canProfileAccessChat p chatId w = true ->
  str_mem p
    (List.map ChatMembership.profileId
       (filter (fun m => isNull (ChatMembership.leftAt m))
          (getMembershipsByChat chatId w))) = true.
Proof.
  unfold canProfileAccessChat. intros H.
  apply existsb_exists in H as (m & Hm & Hact).
  apply andb_true_iff in Hact as [Hp Hact]. apply str_eqb_eq in Hp.
  apply str_mem_In, in_map_iff. exists m. split; [assumption|].
  apply filter_In. auto.
Qed.

(** C4, as the code has it. In every world reachable by the repository's
    operations, with [createDm] called for two different profiles, there is
    at most one active membership per chat and profile; and
    [addGroupMembers] leaves the memberships of a profile that already has
    an active membership in the chat exactly as they were. *)
Theorem uniqueActive_invariant (w : World) :
  Reachable w ->
  uniqueActive w
  /\ (forall env chatId actor profileIds p,
        freshUuids env (2 * length (unique profileIds)) w = true ->
        canProfileAccessChat p chatId w = true ->
        filter
          (fun m => str_eqb (ChatMembership.chatId m) chatId
                    && str_eqb (ChatMembership.profileId m) p)
          (memberships (addGroupMembers env chatId actor profileIds w))
        = filter
            (fun m => str_eqb (ChatMembership.chatId m) chatId
                      && str_eqb (ChatMembership.profileId m) p)
            (memberships w)).
Proof.
  intros Hreach. split.
  - induction Hreach as
      [ | env name w _ IH _ | env a b w _ IH Hfresh Hab
        | env input w _ IH Hfresh | env chatId actor ids w _ IH Hfresh
        | env chatId profileId w _ IH _ | env input w _ IH _ ].
    + intros c p. simpl. lia.
    + exact IH.
    + now apply createDm_preserves_uniqueActive.
    + now apply createGroup_preserves_uniqueActive.
    + now apply addGroupMembers_preserves_uniqueActive.
    + now apply leaveGroup_preserves_uniqueActive.
    + intros c p. rewrite sendMessage_memberships. apply IH.
  - intros env chatId actor profileIds p Hfresh Haccess.
    rewrite addGroupMembers_memberships.
    apply (addGroupMembers_loop_filter env chatId actor _ w
             (2 * length (unique profileIds))).
    + intros i j Hi Hj. now apply (freshUuids_neq env _ w i j Hfresh).
    + lia.
    + intros k Hk. apply (fresh_membership_key env _ w k Hfresh). lia.
    + intros k q _ Hq. cbn [ChatMembership.chatId ChatMembership.profileId].
      apply andb_false_iff. right. apply str_eqb_neq. intros ->.
      apply canProfileAccessChat_activeMember in Haccess. congruence.
Qed.

Lemma uniqueActive_invariant_witness :
  Reachable weekendWorld
  /\ uniqueActive weekendWorld
  /\ (forall env chatId actor profileIds p,
        freshUuids env (2 * length (unique profileIds)) weekendWorld = true ->
        canProfileAccessChat p chatId weekendWorld = true ->
        filter
          (fun m => str_eqb (ChatMembership.chatId m) chatId
                    && str_eqb (ChatMembership.profileId m) p)
          (memberships
             (addGroupMembers env chatId actor profileIds weekendWorld))
        = filter
            (fun m => str_eqb (ChatMembership.chatId m) chatId
                      && str_eqb (ChatMembership.profileId m) p)
            (memberships weekendWorld)).
Proof.
  assert (H : Reachable weekendWorld).
  { unfold weekendWorld. apply reach_createGroup; [apply reach_empty|].
    vm_compute. reflexivity. }
  split; [exact H | exact (uniqueActive_invariant weekendWorld H)].
Defined.

(** C4, as stated, fails for [createDm]: called with the same profile
    twice it stores two active memberships of that profile in the new
    chat. *)
Lemma createDm_self_breaks_uniqueActive :
  freshUuids envA 3 emptyWorld = true
  /\ uniqueActive emptyWorld
  /\ ~ uniqueActive (snd (createDm envA (js "Alex") (js "Alex") emptyWorld)).
Proof.
  split; [vm_compute; reflexivity|]. split.
  - intros c p. simpl. lia.
  - intros H.
    specialize (H (createId "chat" (uuid envA 0)) (js "Alex")).
    vm_compute in H. lia.
Qed.

(** ** sendMessage and getMessages: the round trip of attachments *)

Lemma touchChat_frame (existingChat : option Chat.t) (t : Z) (w : World) :
  messages (touchChat existingChat t w) = messages w
  /\ attachmentsMeta (touchChat existingChat t w) = attachmentsMeta w
  /\ attachmentsBlob (touchChat existingChat t w) = attachmentsBlob w.
Proof. destruct existingChat; simpl; auto. Qed.

Lemma resolveAttachments_perm (blobs : list (JsString * File.t))
    (l l' : list AttachmentMeta.t) :
  Permutation l l' ->
  Permutation (resolveAttachments blobs l) (resolveAttachments blobs l').
Proof.
  induction 1 as [|x l l' _ IH|x y l|l l' l'' _ IH1 _ IH2]; simpl.
  - constructor.
  - destruct (getByKey fst (AttachmentMeta.blobKey x) blobs) as [[k b]|];
      [now constructor | assumption].
  - destruct (getByKey fst (AttachmentMeta.blobKey x) blobs) as [[k b]|],
             (getByKey fst (AttachmentMeta.blobKey y) blobs) as [[k' b']|];
      try reflexivity. apply perm_swap.
  - now transitivity (resolveAttachments blobs l').
Qed.

Lemma filter_true {A} (f : A -> bool) (l : list A) :
  (forall x, In x l -> f x = true) -> filter f l = l.
Proof.
  induction l as [|x l IH]; simpl; intros H; [reflexivity|].
  rewrite (H x (or_introl eq_refl)). f_equal. apply IH.
  intros; apply H; now right.
Qed.

Lemma map_mapi_from_elem {A B C} (f : nat -> A -> B) (g : B -> C)
    (h : A -> C) (l : list A) (i : nat) :
  (forall k x, g (f k x) = h x) ->
  List.map g (mapi_from i f l) = List.map h l.
Proof.
  intros H. revert i. induction l as [|x l IH]; intros i; simpl;
    [reflexivity|]. now rewrite H, IH.
Qed.

Section StoreFilesFacts.
Variables (env : Env) (messageId chatId : Id).

Let metaOf (k : nat) (f : File.t) : AttachmentMeta.t :=
  attachmentMetaOf env messageId chatId (uuid env k) f.

Lemma storeFiles_metas (files : list File.t) :
  forall (n : nat) (acc : list Id) (w : World),
  attachmentsMeta (snd (storeFiles env messageId chatId files n acc w))
  = putAll AttachmentMeta.id (mapi_from n metaOf files) (attachmentsMeta w).
Proof.
  induction files as [|f files IH]; intros n acc w; [reflexivity|].
  cbn [storeFiles]. rewrite IH. reflexivity.
Qed.

Lemma storeFiles_blobs_other (key : JsString) (files : list File.t) :
  forall (n : nat) (acc : list Id) (w : World),
  (forall k, (n <= k < n + length files)%nat ->
     key <> js "blob_" ++ createId "att" (uuid env k)) ->
  getByKey fst key
    (attachmentsBlob (snd (storeFiles env messageId chatId files n acc w)))
  = getByKey fst key (attachmentsBlob w).
Proof.
  induction files as [|f files IH]; intros n acc w Hkey; [reflexivity|].
  cbn [storeFiles]. cbn [length] in Hkey. rewrite IH.
  - cbn [attachmentsBlob with_attachmentsBlob with_attachmentsMeta].
    apply getByKey_put_other. cbn [fst]. apply Hkey. lia.
  - intros k Hk. apply Hkey. lia.
Qed.

Lemma storeFiles_resolve (N : nat) (files : list File.t) :
  (forall i j, (i < N)%nat -> (j < N)%nat -> i <> j ->
     uuid env i <> uuid env j) ->
  forall (n : nat) (acc : list Id) (w : World),
  (n + length files <= N)%nat ->
  resolveAttachments
    (attachmentsBlob (snd (storeFiles env messageId chatId files n acc w)))
    (mapi_from n metaOf files)
  = mapi_from n (fun k f => AttachmentWithBlob.mk (metaOf k f) f) files.
Proof.
  intros Hdistinct.
  induction files as [|f files IH]; intros n acc w Hn; [reflexivity|].
  cbn [mapi_from resolveAttachments]. cbn [length] in Hn.
  assert (Hhead :
    getByKey fst (AttachmentMeta.blobKey (metaOf n f))
      (attachmentsBlob
         (snd (storeFiles env messageId chatId (f :: files) n acc w)))
    = Some (AttachmentMeta.blobKey (metaOf n f), f)).
  { cbn [storeFiles]. rewrite storeFiles_blobs_other.
    - cbn [attachmentsBlob with_attachmentsBlob with_attachmentsMeta].
      apply (getByKey_put_same fst
               (AttachmentMeta.blobKey (metaOf n f), f)).
    - intros k Hk E. unfold metaOf, attachmentMetaOf in E.
      cbn [AttachmentMeta.blobKey] in E.
      apply app_inv_head, createId_inj in E. revert E.
      apply Hdistinct; lia. }
  rewrite Hhead. f_equal.
  cbn [storeFiles]. apply IH. lia.
Qed.
End StoreFilesFacts.

(** C9, as the code has it. After a successful [sendMessage] that drew
    fresh UUIDs, [getMessages] of the chat returns the sent message, and
    its attachments are, up to their order, one per input file: the blob
    is the file itself, [fileName] and [sizeBytes] are the file's name and
    size, and [mimeType] is the file's type, or
    "application/octet-stream" when the file has no type. *)
Theorem attachment_round_trip (env : Env) (input : SendMessageInput.t)
    (w : World) (m : Message.t) :
  freshUuids env (1 + length (SendMessageInput.files input)) w = true ->
  fst (sendMessage env input w) = Returned m ->
  exists mwa,
    In mwa
      (getMessages (SendMessageInput.chatId input)
         (snd (sendMessage env input w)))
    /\ MessageWithAttachments.message mwa = m
    /\ Permutation
         (List.map attachmentView (MessageWithAttachments.attachments mwa))
         (List.map fileView (SendMessageInput.files input)).
Proof.
  intros Hfresh Hsent.
  set (files := SendMessageInput.files input) in *.
  set (chatId := SendMessageInput.chatId input) in *.
  set (msgId := createId "msg" (uuid env 0)).
  pose (metaOf := fun (k : nat) (f : File.t) =>
                    attachmentMetaOf env msgId chatId (uuid env k) f).
  assert (Hdistinct : forall i j, (i < 1 + length files)%nat ->
            (j < 1 + length files)%nat -> i <> j ->
            uuid env i <> uuid env j)
    by (intros i j Hi Hj; now apply (freshUuids_neq env _ w i j Hfresh)).
  unfold sendMessage in *. fold files chatId msgId in Hsent |- *.
  destruct (match trim (SendMessageInput.text input), files with
            | [], [] => true | _, _ => false end); [discriminate|].
  destruct (validateFiles files); [discriminate|].
  destruct (_ >? maxTotalBytes); [discriminate|].
  pose proof (storeFiles_metas env msgId chatId files 1 [] w) as Hmetas.
  pose proof (storeFiles_resolve env msgId chatId (1 + length files) files
                Hdistinct 1 [] w ltac:(lia)) as Hresolve.
  pose proof (storeFiles_frame env msgId chatId files 1 [] w) as Hframe.
  destruct (storeFiles env msgId chatId files 1 [] w)
    as [attachmentIds w1] eqn:Estore.
  cbn [snd] in Hmetas, Hresolve, Hframe. cbn [fst snd] in Hsent |- *.
  change (fun (k : nat) (f : File.t) =>
            attachmentMetaOf env msgId chatId (uuid env k) f)
    with metaOf in Hmetas, Hresolve.
  injection Hsent as Hm.
  rewrite getMessages_unfold.
  destruct (touchChat_frame (getChat chatId w) (now env)
              (with_messages w1 (put Message.id m (messages w1))))
    as (Hmsgs & Hmeta' & Hblob').
  cbn [publish messages attachmentsMeta attachmentsBlob].
  rewrite Hm, Hmsgs, Hmeta', Hblob'.
  cbn [messages attachmentsMeta attachmentsBlob with_messages].
  eexists. split; [|split].
  - apply in_map_iff. exists m. split; [reflexivity|].
    apply sortBy_In, filter_In. split; [apply put_In|].
    rewrite <- Hm. cbn [Message.chatId]. apply str_eqb_refl.
  - reflexivity.
  - cbn [MessageWithAttachments.attachments].
    assert (Hnd : NoDup (List.map AttachmentMeta.id
                            (mapi_from 1 metaOf files))).
    { rewrite (map_mapi_from_index metaOf AttachmentMeta.id
                 (fun k => createId "att" (uuid env k))) by reflexivity.
      apply (fresh_range_NoDup env _ w "att" 1 (length files) Hfresh). lia. }
    assert (Hnew : forall meta, In meta (mapi_from 1 metaOf files) ->
              hasKey AttachmentMeta.id (AttachmentMeta.id meta)
                (attachmentsMeta w) = false).
    { intros meta Hmeta.
      apply In_mapi_from in Hmeta as (k & f & -> & _ & Hk).
      apply hasKey_false. intros Hin.
      apply (freshUuids_unused env _ w k (createId "att" (uuid env k))
               Hfresh); [lia | simpl; tauto |].
      unfold knownIds. rewrite !in_app_iff. do 5 right. left. exact Hin. }
    assert (Hperm :
      Permutation
        (filter (fun meta => str_eqb (AttachmentMeta.messageId meta)
                               (Message.id m))
           (filter (fun meta => str_eqb (AttachmentMeta.chatId meta) chatId)
              (attachmentsMeta w1)))
        (mapi_from 1 metaOf files)).
    { rewrite filter_filter, Hmetas.
      rewrite (filter_perm _ _ _
                 (putAll_fresh_perm AttachmentMeta.id
                    (mapi_from 1 metaOf files) (attachmentsMeta w) Hnd Hnew)).
      rewrite filter_app.
      rewrite (filter_true _ (mapi_from 1 metaOf files)).
      - rewrite filter_false; [now rewrite app_nil_r|].
        intros meta Hmeta. apply andb_false_iff. right.
        apply str_eqb_neq. rewrite <- Hm. cbn [Message.id]. intros E.
        apply (freshUuids_unused env _ w 0 msgId Hfresh);
          [lia | simpl; tauto |].
        unfold knownIds. rewrite !in_app_iff. do 6 right. left.
        rewrite <- E. now apply in_map.
      - intros meta Hmeta.
        apply In_mapi_from in Hmeta as (k & f & -> & _).
        rewrite <- Hm. cbn. now rewrite !str_eqb_refl. }
    rewrite (Permutation_map attachmentView
               (resolveAttachments_perm (attachmentsBlob w1) _ _ Hperm)).
    rewrite Hresolve.
    now rewrite (map_mapi_from_elem _ attachmentView fileView).
Qed.

Lemma attachment_round_trip_witness :
  freshUuids envB (1 + length (SendMessageInput.files twoFiles)) weekendWorld
  = true
  /\ fst (sendMessage envB twoFiles weekendWorld) = Returned twoFilesMessage
  /\ exists mwa,
       In mwa
         (getMessages (SendMessageInput.chatId twoFiles)
            (snd (sendMessage envB twoFiles weekendWorld)))
       /\ MessageWithAttachments.message mwa = twoFilesMessage
       /\ Permutation
            (List.map attachmentView
               (MessageWithAttachments.attachments mwa))
            (List.map fileView (SendMessageInput.files twoFiles)).
Proof.
  assert (H1 : freshUuids envB
                 (1 + length (SendMessageInput.files twoFiles)) weekendWorld
               = true) by (vm_compute; reflexivity).
  assert (H2 : fst (sendMessage envB twoFiles weekendWorld)
               = Returned twoFilesMessage) by (vm_compute; reflexivity).
  split; [exact H1|]. split; [exact H2|].
  exact (attachment_round_trip envB twoFiles weekendWorld twoFilesMessage
           H1 H2).
Defined.

(** C9, as stated, fails for a file without MIME type: the attachment
    read back has [mimeType] "application/octet-stream", not the file's
    (empty) type. *)
Lemma attachment_mimeType_not_preserved :
  let input :=
    SendMessageInput.mk weekendChatId (js "Sam") (js "") [notesFile] in
  let w' := snd (sendMessage envB input weekendWorld) in
  List.map
    (fun a => AttachmentMeta.mimeType (AttachmentWithBlob.meta a))
    (flat_map MessageWithAttachments.attachments
       (getMessages weekendChatId w'))
  = [js "application/octet-stream"]
  /\ List.map AttachmentWithBlob.blob
       (flat_map MessageWithAttachments.attachments
          (getMessages weekendChatId w'))
     = [notesFile]
  /\ js "application/octet-stream" <> File.type notesFile.
Proof.
  split; [vm_compute; reflexivity|].
  split; [vm_compute; reflexivity|].
  vm_compute. discriminate.
Qed.

(* ================================================================== *)
(** * Further properties of the repository *)

(** ** leaveGroup *)

Lemma existsb_false_find {A} (f : A -> bool) (l : list A) :
  existsb f l = false -> find f l = None.
Proof.
  induction l as [|x l IH]; simpl; [reflexivity|].
  destruct (f x); simpl; [discriminate | exact IH].
Qed.

Lemma two_in_filter {A} (f : A -> bool) (x y : A) (l : list A) :
  In x l -> In y l -> x <> y -> f x = true -> f y = true ->
  (2 <= length (filter f l))%nat.
Proof.
  intros Hx Hy Hxy Hfx Hfy.
  induction l as [|z l IH]; simpl in *; [contradiction|].
  assert (Hone : forall u, In u l -> f u = true ->
                   (1 <= length (filter f l))%nat).
  { intros u Hu Hfu.
    assert (Hin : In u (filter f l)) by (apply filter_In; auto).
    destruct (filter f l); [destruct Hin | simpl; lia]. }
  destruct Hx as [-> | Hx], Hy as [-> | Hy].
  - contradiction.
  - rewrite Hfx. simpl. specialize (Hone y Hy Hfy). lia.
  - rewrite Hfy. simpl. specialize (Hone x Hx Hfx). lia.
  - specialize (IH Hx Hy). destruct (f z); simpl; lia.
Qed.

Lemma NoDup_keys_inj {V} (key : V -> Id) (l : list V) (x y : V) :
  NoDup (List.map key l) -> In x l -> In y l -> key x = key y -> x = y.
Proof.
  induction l as [|z l IH]; simpl; intros Hnd Hx Hy E; [contradiction|].
  inversion Hnd as [|? ? Hz Hnd']; subst.
  destruct Hx as [-> | Hx], Hy as [-> | Hy]; auto.
  - exfalso. apply Hz. rewrite E. now apply in_map.
  - exfalso. apply Hz. rewrite <- E. now apply in_map.
Qed.

(** Leaving a chat one is not an active member of does nothing. *)
Lemma leaveGroup_not_member (env : Env) (chatId profileId : Id) (w : World) :
  canProfileAccessChat profileId chatId w = false ->
  leaveGroup env chatId profileId w = w.
Proof.
  unfold canProfileAccessChat, leaveGroup. intros H.
  now rewrite (existsb_false_find _ _ H).
Qed.

Lemma leaveGroup_memberships (env : Env) (chatId profileId : Id) (w : World)
    (active : ChatMembership.t) :
  find (fun m => str_eqb (ChatMembership.profileId m) profileId
                 && isNull (ChatMembership.leftAt m))
    (getMembershipsByChat chatId w) = Some active ->
  In active (memberships w)
  /\ ChatMembership.chatId active = chatId
  /\ ChatMembership.profileId active = profileId
  /\ ChatMembership.leftAt active = None
  /\ memberships (leaveGroup env chatId profileId w)
     = replaceKey ChatMembership.id
         (ChatMembership.mk (ChatMembership.id active)
            (ChatMembership.chatId active) (ChatMembership.profileId active)
            (ChatMembership.role active) (ChatMembership.joinedAt active)
            (Some (now env)))
         (memberships w).
Proof.
  intros E. unfold leaveGroup. rewrite E.
  apply find_some in E as [Hin Hpred].
  apply filter_In in Hin as [Hin Hc].
  apply andb_true_iff in Hpred as [Hp Hact].
  apply str_eqb_eq in Hc, Hp.
  repeat split; auto.
  - destruct (ChatMembership.leftAt active); [discriminate | reflexivity].
  - cbn [publish memberships]. rewrite memberships_touchChat.
    cbn [memberships with_messages with_memberships].
    unfold put. cbn [ChatMembership.id].
    assert (Hkey : hasKey ChatMembership.id (ChatMembership.id active)
                     (memberships w) = true)
      by (apply hasKey_true; now apply in_map).
    now rewrite Hkey.
Qed.

Lemma canProfileAccessChat_iff (p c : Id) (w : World) :
  canProfileAccessChat p c w = true
  <-> exists m, In m (memberships w)
                /\ ChatMembership.chatId m = c
                /\ ChatMembership.profileId m = p
                /\ ChatMembership.leftAt m = None.
Proof.
  unfold canProfileAccessChat, getMembershipsByChat.
  rewrite existsb_exists. split.
  - intros (m & Hm & Hpred). apply filter_In in Hm as [Hm Hc].
    apply andb_true_iff in Hpred as [Hp Hact].
    apply str_eqb_eq in Hc, Hp. exists m.
    destruct (ChatMembership.leftAt m); [discriminate | auto].
  - intros (m & Hm & Hc & Hp & Hleft). exists m. split.
    + apply filter_In. split; [assumption | now apply str_eqb_eq].
    + rewrite Hleft. simpl. rewrite andb_true_r. now apply str_eqb_eq.
Qed.

(** X1. When a profile with (the only) active membership in a chat leaves
    it, the profile loses access, a system message "<name> left the group"
    dated [now] is stored, the chat record (if there is one) gets
    [updatedAt = lastMessageAt = now], nobody else's access changes, and
    leaving a second time changes nothing. *)
Theorem leaveGroup_revokes_access (env env' : Env) (chatId profileId : Id)
    (w : World) :
  uniqueActive w ->
  distinct (List.map ChatMembership.id (memberships w)) = true ->
  canProfileAccessChat profileId chatId w = true ->
  let w' := leaveGroup env chatId profileId w in
  canProfileAccessChat profileId chatId w' = false
  /\ getByKey Message.id (createId "msg" (uuid env 0)) (messages w')
     = Some (Message.mk (createId "msg" (uuid env 0)) chatId profileId
               MessageType.system
               (Some (profileNameOrUser profileId w ++ js " left the group"))
               [] (now env))
  /\ (forall chat, getChat chatId w = Some chat ->
        getChat chatId w'
        = Some (Chat.mk (Chat.id chat) (Chat.type chat) (Chat.title chat)
                  (Chat.createdByProfileId chat) (Chat.createdAt chat)
                  (now env) (Some (now env))))
  /\ (forall q c, q <> profileId \/ c <> chatId ->
        canProfileAccessChat q c w' = canProfileAccessChat q c w)
  /\ leaveGroup env' chatId profileId w' = w'.
Proof.
  intros Hinv Hkeys Haccess w'.
  apply distinct_NoDup in Hkeys.
  destruct (find (fun m => str_eqb (ChatMembership.profileId m) profileId
                           && isNull (ChatMembership.leftAt m))
              (getMembershipsByChat chatId w)) as [active|] eqn:E.
  2:{ unfold canProfileAccessChat in Haccess.
      apply existsb_exists in Haccess as (m & Hm & Hpred).
      now rewrite (find_none _ _ E m Hm) in Hpred. }
  destruct (leaveGroup_memberships env chatId profileId w active E)
    as (Hin & Hc & Hp & Hleft & Hms).
  fold w' in Hms.
  assert (Hgone : canProfileAccessChat profileId chatId w' = false).
  { destruct (canProfileAccessChat profileId chatId w') eqn:Ha;
      [|reflexivity].
    exfalso. apply canProfileAccessChat_iff in Ha
      as (m & Hm & Hmc & Hmp & Hml).
    rewrite Hms in Hm. unfold replaceKey in Hm.
    apply in_map_iff in Hm as (u & Hu & Hin').
    cbn [ChatMembership.id] in Hu.
    destruct (str_eqb (ChatMembership.id u) (ChatMembership.id active)) eqn:Ek.
    - subst m. discriminate.
    - subst u. apply str_eqb_neq in Ek.
      assert (Hne : m <> active) by congruence.
      pose proof (two_in_filter
                    (fun m => str_eqb (ChatMembership.chatId m) chatId
                              && str_eqb (ChatMembership.profileId m) profileId
                              && isNull (ChatMembership.leftAt m))
                    m active (memberships w) Hin' Hin Hne) as Htwo.
      cbv beta in Htwo.
      rewrite Hmc, Hmp, Hml, Hc, Hp, Hleft, !str_eqb_refl in Htwo.
      specialize (Htwo eq_refl eq_refl).
      specialize (Hinv chatId profileId). unfold activeFor in Hinv. lia. }
  split; [exact Hgone|]. split; [|split; [|split]].
  - subst w'. unfold leaveGroup. rewrite E.
    cbn [publish messages].
    rewrite (proj1 (touchChat_frame _ _ _)).
    cbn [messages with_messages with_memberships].
    apply (getByKey_put_same Message.id
             (Message.mk (createId "msg" (uuid env 0)) chatId profileId
                MessageType.system
                (Some (profileNameOrUser profileId w ++ js " left the group"))
                [] (now env))).
  - intros chat Hchat. subst w'. unfold leaveGroup. rewrite E, Hchat.
    unfold getChat. cbn [publish chats touchChat with_chats].
    pose proof (getByKey_Some_In Chat.id _ _ _ Hchat) as [_ Hid].
    rewrite <- Hid at 1.
    apply (getByKey_put_same Chat.id
             (Chat.mk (Chat.id chat) (Chat.type chat) (Chat.title chat)
                (Chat.createdByProfileId chat) (Chat.createdAt chat)
                (now env) (Some (now env)))).
  - intros q c Hother.
    apply eq_true_iff_eq. rewrite !canProfileAccessChat_iff, Hms.
    split.
    + intros (m & Hm & Hmc & Hmp & Hml).
      unfold replaceKey in Hm. apply in_map_iff in Hm as (u & Hu & Hin').
      destruct (str_eqb (ChatMembership.id u) _); subst m;
        [discriminate | eauto].
    + intros (m & Hm & Hmc & Hmp & Hml). exists m.
      split; [|auto]. unfold replaceKey. apply in_map_iff. exists m.
      split; [|assumption]. cbn [ChatMembership.id].
      destruct (str_eqb (ChatMembership.id m) (ChatMembership.id active))
        eqn:Ek; [|reflexivity].
      apply str_eqb_eq in Ek.
      pose proof (NoDup_keys_inj ChatMembership.id _ m active Hkeys Hm Hin Ek).
      subst m. exfalso. destruct Hother; congruence.
  - now apply leaveGroup_not_member.
Qed.

Lemma weekendWorld_uniqueActive : uniqueActive weekendWorld.
Proof.
  unfold weekendWorld.
  apply createGroup_preserves_uniqueActive.
  - vm_compute. reflexivity.
  - intros c p. simpl. lia.
Qed.

Lemma leaveGroup_revokes_access_witness :
  uniqueActive weekendWorld
  /\ distinct (List.map ChatMembership.id (memberships weekendWorld)) = true
  /\ canProfileAccessChat (js "Sam") weekendChatId weekendWorld = true
  /\ (let w' := leaveGroup envB weekendChatId (js "Sam") weekendWorld in
      canProfileAccessChat (js "Sam") weekendChatId w' = false
      /\ getByKey Message.id (createId "msg" (uuid envB 0)) (messages w')
         = Some (Message.mk (createId "msg" (uuid envB 0)) weekendChatId
                   (js "Sam") MessageType.system
                   (Some (profileNameOrUser (js "Sam") weekendWorld
                          ++ js " left the group"))
                   [] (now envB))
      /\ (forall chat, getChat weekendChatId weekendWorld = Some chat ->
            getChat weekendChatId w'
            = Some (Chat.mk (Chat.id chat) (Chat.type chat) (Chat.title chat)
                      (Chat.createdByProfileId chat) (Chat.createdAt chat)
                      (now envB) (Some (now envB))))
      /\ (forall q c, q <> js "Sam" \/ c <> weekendChatId ->
            canProfileAccessChat q c w' = canProfileAccessChat q c weekendWorld)
      /\ leaveGroup envA weekendChatId (js "Sam") w' = w').
Proof.
  assert (H2 : distinct (List.map ChatMembership.id (memberships weekendWorld))
               = true) by (vm_compute; reflexivity).
  assert (H3 : canProfileAccessChat (js "Sam") weekendChatId weekendWorld
               = true) by (vm_compute; reflexivity).
  split; [exact weekendWorld_uniqueActive|].
  split; [exact H2|]. split; [exact H3|].
  exact (leaveGroup_revokes_access envB envA weekendChatId (js "Sam")
           weekendWorld weekendWorld_uniqueActive H2 H3).
Defined.

(** X2. [leaveGroup] leaves the world untouched exactly when the profile
    has no active membership in the chat (a chat that does not exist
    included): no membership is closed, no message stored, no event
    published. Otherwise it publishes its three events. *)
Theorem leaveGroup_noop_iff (env : Env) (chatId profileId : Id) (w : World) :
  (leaveGroup env chatId profileId w = w
   <-> canProfileAccessChat profileId chatId w = false)
  /\ (canProfileAccessChat profileId chatId w = true ->
      published (leaveGroup env chatId profileId w)
      = published w ++ [memberships_changed; messages_changed; chats_changed]).
Proof.
  assert (Hpub : canProfileAccessChat profileId chatId w = true ->
            published (leaveGroup env chatId profileId w)
            = published w
              ++ [memberships_changed; messages_changed; chats_changed]).
  { intros Ha. unfold leaveGroup.
    destruct (find _ (getMembershipsByChat chatId w)) as [active|] eqn:E.
    - cbn [publish published]. rewrite <- !app_assoc. simpl.
      destruct (getChat chatId w); reflexivity.
    - unfold canProfileAccessChat in Ha.
      apply existsb_exists in Ha as (m & Hm & Hpred).
      now rewrite (find_none _ _ E m Hm) in Hpred. }
  split; [|exact Hpub]. split.
  - intros Heq.
    destruct (canProfileAccessChat profileId chatId w) eqn:Ha; [|reflexivity].
    specialize (Hpub eq_refl). rewrite Heq in Hpub.
    apply (f_equal (@length _)) in Hpub. rewrite length_app in Hpub.
    simpl in Hpub. lia.
  - apply leaveGroup_not_member.
Qed.

(** ** createGroup *)

Lemma mapi_from_In {A B} (f : nat -> A -> B) (x : A) (l : list A) (i : nat) :
  In x l -> exists k, In (f k x) (mapi_from i f l).
Proof.
  revert i. induction l as [|y l IH]; intros i; simpl; [intros []|].
  intros [-> | Hin].
  - exists i. now left.
  - destruct (IH (S i) Hin) as [k Hk]. exists k. now right.
Qed.

Lemma createGroup_memberships_perm (env : Env) (input : CreateGroupInput.t)
    (w : World) :
  freshUuids env
    (2 + length (unique (CreateGroupInput.ownerProfileId input
                         :: CreateGroupInput.memberProfileIds input))) w
  = true ->
  Permutation (memberships (snd (createGroup env input w)))
    (mapi_from 0
       (fun (index : nat) (profileId : Id) =>
          ChatMembership.mk (createId "membership" (uuid env (S index)))
            (createId "chat" (uuid env 0)) profileId
            (if str_eqb profileId (CreateGroupInput.ownerProfileId input)
             then owner else member) (now env) None)
       (unique (CreateGroupInput.ownerProfileId input
                :: CreateGroupInput.memberProfileIds input))
     ++ memberships w).
Proof.
  intros Hfresh.
  pose (mk := fun (index : nat) (profileId : Id) =>
                ChatMembership.mk
                  (createId "membership" (uuid env (S index)))
                  (createId "chat" (uuid env 0)) profileId
                  (if str_eqb profileId (CreateGroupInput.ownerProfileId input)
                   then owner else member) (now env) None).
  fold mk.
  change (memberships (snd (createGroup env input w)))
    with (putAll ChatMembership.id
            (mapi_from 0 mk
               (unique (CreateGroupInput.ownerProfileId input
                        :: CreateGroupInput.memberProfileIds input)))
            (memberships w)).
  remember (unique (CreateGroupInput.ownerProfileId input
                    :: CreateGroupInput.memberProfileIds input))
    as members eqn:Em.
  apply putAll_fresh_perm.
  - rewrite (map_mapi_from_index mk ChatMembership.id
               (fun k => createId "membership" (uuid env (S k))))
      by reflexivity.
    rewrite <- (map_map S (fun k => createId "membership" (uuid env k))).
    rewrite seq_shift.
    apply (fresh_range_NoDup env _ w "membership" 1 (length members) Hfresh).
    lia.
  - intros m Hm. apply In_mapi_from in Hm as (k & x & -> & _ & Hk). simpl.
    apply (fresh_membership_key env _ w (S k) Hfresh). simpl in Hk. lia.
Qed.

(** X3. [createGroup] with fresh UUIDs stores a group chat whose title is
    the trimmed title, or "Untitled Group" when that is empty, and whose
    [lastMessageAt] is [now]; exactly the owner and the listed members get
    access to it; among its memberships the role [owner] belongs to the
    owner's and to no other; a system message "Group created" is stored;
    access to every other chat is as before. *)
Theorem createGroup_effects (env : Env) (input : CreateGroupInput.t)
    (w : World) :
  freshUuids env
    (2 + length (unique (CreateGroupInput.ownerProfileId input
                         :: CreateGroupInput.memberProfileIds input))) w
  = true ->
  let chat := fst (createGroup env input w) in
  let w' := snd (createGroup env input w) in
  getChat (Chat.id chat) w' = Some chat
  /\ Chat.type chat = group
  /\ Chat.lastMessageAt chat = Some (now env)
  /\ (exists t, Chat.title chat = Some t /\ t <> []
                /\ (trim (CreateGroupInput.title input) <> [] ->
                    t = trim (CreateGroupInput.title input))
                /\ (trim (CreateGroupInput.title input) = [] ->
                    t = js "Untitled Group"))
  /\ (forall p, canProfileAccessChat p (Chat.id chat) w' = true
                <-> p = CreateGroupInput.ownerProfileId input
                    \/ In p (CreateGroupInput.memberProfileIds input))
  /\ (forall m, In m (memberships w') ->
        ChatMembership.chatId m = Chat.id chat ->
        (ChatMembership.role m = owner
         <-> ChatMembership.profileId m
             = CreateGroupInput.ownerProfileId input))
  /\ (exists msg, In msg (messages w')
                  /\ Message.chatId msg = Chat.id chat
                  /\ Message.type msg = MessageType.system
                  /\ Message.text msg = Some (js "Group created")
                  /\ Message.createdAt msg = now env)
  /\ (forall p c, c <> Chat.id chat ->
        canProfileAccessChat p c w' = canProfileAccessChat p c w).
Proof.
  intros Hfresh chat w'.
  pose proof (createGroup_memberships_perm env input w Hfresh) as Hperm.
  fold w' in Hperm.
  set (mk := fun (index : nat) (profileId : Id) =>
               ChatMembership.mk
                 (createId "membership" (uuid env (S index)))
                 (createId "chat" (uuid env 0)) profileId
                 (if str_eqb profileId (CreateGroupInput.ownerProfileId input)
                  then owner else member) (now env) None) in Hperm.
  assert (Hold : forall m, In m (memberships w) ->
            ChatMembership.chatId m <> createId "chat" (uuid env 0)).
  { intros m. apply (fresh_chat_unreferenced env _ w 0 m Hfresh). lia. }
  assert (Hin : forall m, In m (memberships w')
            <-> In m (mapi_from 0 mk
                        (unique (CreateGroupInput.ownerProfileId input
                                 :: CreateGroupInput.memberProfileIds input)))
                \/ In m (memberships w)).
  { intros m. rewrite <- in_app_iff. split; apply Permutation_in;
      [exact Hperm | symmetry; exact Hperm]. }
  split; [|split; [|split; [|split; [|split; [|split; [|split]]]]]].
  - apply (getByKey_put_same Chat.id chat).
  - reflexivity.
  - reflexivity.
  - subst chat. unfold createGroup. cbn [fst Chat.title].
    destruct (trim (CreateGroupInput.title input)) as [|c t] eqn:Et.
    + exists (js "Untitled Group"). repeat split; try congruence.
      vm_compute. discriminate.
    + exists (c :: t). repeat split; congruence.
  - intros p. rewrite canProfileAccessChat_iff. split.
    + intros (m & Hm & Hc & Hp & _). apply Hin in Hm as [Hm | Hm].
      * apply In_mapi_from in Hm as (k & x & -> & Hx & _).
        apply (proj1 (unique_In _ _)) in Hx. simpl in Hp. subst x.
        destruct Hx as [-> | Hx]; auto.
      * exfalso. now apply (Hold m Hm).
    + intros Hp.
      assert (Hu : In p (unique (CreateGroupInput.ownerProfileId input
                                 :: CreateGroupInput.memberProfileIds input))).
      { apply unique_In. destruct Hp as [-> | Hp]; [now left | now right]. }
      destruct (mapi_from_In mk p _ 0 Hu) as [k Hk].
      exists (mk k p). split; [apply Hin; now left | auto].
  - intros m Hm Hc. apply Hin in Hm as [Hm | Hm].
    + apply In_mapi_from in Hm as (k & x & -> & _). simpl.
      destruct (str_eqb x (CreateGroupInput.ownerProfileId input)) eqn:Ex.
      * apply str_eqb_eq in Ex. tauto.
      * apply str_eqb_neq in Ex. split; [discriminate | contradiction].
    + exfalso. now apply (Hold m Hm).
  - eexists. split; [apply (put_In Message.id)|]. simpl. auto.
  - intros p c Hc. apply eq_true_iff_eq.
    rewrite !canProfileAccessChat_iff. split.
    + intros (m & Hm & Hmc & Hrest). apply Hin in Hm as [Hm | Hm];
        [|eauto].
      apply In_mapi_from in Hm as (k & x & -> & _). simpl in Hmc.
      exfalso. apply Hc. now rewrite <- Hmc.
    + intros (m & Hm & Hrest). exists m. split; [apply Hin; now right | auto].
Qed.

Lemma createGroup_effects_witness :
  freshUuids envA
    (2 + length (unique (CreateGroupInput.ownerProfileId weekendGroup
                         :: CreateGroupInput.memberProfileIds weekendGroup)))
    emptyWorld = true
  /\ (let chat := fst (createGroup envA weekendGroup emptyWorld) in
      let w' := snd (createGroup envA weekendGroup emptyWorld) in
      getChat (Chat.id chat) w' = Some chat
      /\ Chat.type chat = group
      /\ Chat.lastMessageAt chat = Some (now envA)
      /\ (exists t, Chat.title chat = Some t /\ t <> []
                    /\ (trim (CreateGroupInput.title weekendGroup) <> [] ->
                        t = trim (CreateGroupInput.title weekendGroup))
                    /\ (trim (CreateGroupInput.title weekendGroup) = [] ->
                        t = js "Untitled Group"))
      /\ (forall p, canProfileAccessChat p (Chat.id chat) w' = true
                    <-> p = CreateGroupInput.ownerProfileId weekendGroup
                        \/ In p (CreateGroupInput.memberProfileIds
                                   weekendGroup))
      /\ (forall m, In m (memberships w') ->
            ChatMembership.chatId m = Chat.id chat ->
            (ChatMembership.role m = owner
             <-> ChatMembership.profileId m
                 = CreateGroupInput.ownerProfileId weekendGroup))
      /\ (exists msg, In msg (messages w')
                      /\ Message.chatId msg = Chat.id chat
                      /\ Message.type msg = MessageType.system
                      /\ Message.text msg = Some (js "Group created")
                      /\ Message.createdAt msg = now envA)
      /\ (forall p c, c <> Chat.id chat ->
            canProfileAccessChat p c w'
            = canProfileAccessChat p c emptyWorld)).
Proof.
  assert (H : freshUuids envA
                (2 + length (unique (CreateGroupInput.ownerProfileId
                                       weekendGroup
                                     :: CreateGroupInput.memberProfileIds
                                          weekendGroup)))
                emptyWorld = true) by (vm_compute; reflexivity).
  split; [exact H|].
  exact (createGroup_effects envA weekendGroup emptyWorld H).
Defined.

(** ** addGroupMembers *)

Lemma put_In_inv {V} (key : V -> Id) (x v : V) (s : list V) :
  In x (put key v s) -> x = v \/ In x s.
Proof.
  unfold put. destruct (hasKey key (key v) s).
  - unfold replaceKey. intros H. apply in_map_iff in H as (u & Hu & Hin).
    destruct (str_eqb (key u) (key v)); subst; auto.
  - destruct (insertSorted_split key v s) as (l1 & l2 & -> & ->).
    rewrite !in_app_iff. simpl. intuition.
Qed.

Lemma length_put_fresh {V} (key : V -> Id) (v : V) (s : list V) :
  hasKey key (key v) s = false -> length (put key v s) = S (length s).
Proof.
  intros H. now rewrite (Permutation_length (put_fresh_perm key v s H)).
Qed.

Lemma fresh_message_key (env : Env) (N : nat) (w : World) (k : nat) :
  freshUuids env N w = true -> (k < N)%nat ->
  hasKey Message.id (createId "msg" (uuid env k)) (messages w) = false.
Proof.
  intros H Hk. apply hasKey_false. intros Hin.
  apply (freshUuids_unused env N w k (createId "msg" (uuid env k)) H Hk);
    [simpl; tauto|].
  unfold knownIds. rewrite !in_app_iff. tauto.
Qed.

Lemma activeMemberSet_access (q chatId : Id) (w : World) :
  str_mem q
    (List.map ChatMembership.profileId
       (filter (fun m => isNull (ChatMembership.leftAt m))
          (getMembershipsByChat chatId w)))
  = canProfileAccessChat q chatId w.
Proof.
  apply eq_true_iff_eq. split.
  - intros H. apply str_mem_In, in_map_iff in H as (m & Hp & Hm).
    apply filter_In in Hm as [Hm Hact].
    unfold canProfileAccessChat. apply existsb_exists. exists m.
    split; [assumption|]. rewrite Hact, andb_true_r. now apply str_eqb_eq.
  - apply canProfileAccessChat_activeMember.
Qed.

Lemma canProfileAccessChat_count (p c : Id) (w : World) :
  canProfileAccessChat p c w
  = negb (length (activeFor c p (memberships w)) =? 0)%nat.
Proof.
  unfold canProfileAccessChat, getMembershipsByChat, activeFor.
  induction (memberships w) as [|m ms IH]; simpl; [reflexivity|].
  destruct (str_eqb (ChatMembership.chatId m) c); simpl; [|exact IH].
  destruct (str_eqb (ChatMembership.profileId m) p
            && isNull (ChatMembership.leftAt m)); simpl;
    [reflexivity | exact IH].
Qed.

Lemma str_mem_unique (q : Id) (ids : list Id) :
  str_mem q (unique ids) = str_mem q ids.
Proof.
  apply eq_true_iff_eq. rewrite !str_mem_In. apply unique_In.
Qed.

Section AddGroupMembersMessages.
Variables (env : Env) (chatId actor : Id) (active : list Id) (names : World).
Variable N : nat.
Hypothesis Hdistinct :
  forall i j, (i < N)%nat -> (j < N)%nat -> i <> j -> uuid env i <> uuid env j.

Lemma addGroupMembers_loop_messages_length (ids : list Id) :
  forall (n : nat) (w : World),
  (n + 2 * length ids <= N)%nat ->
  (forall k, (n <= k < N)%nat ->
     hasKey Message.id (createId "msg" (uuid env k)) (messages w) = false) ->
  length
    (messages (addGroupMembers_loop env chatId actor active names ids n w))
  = (length (messages w)
     + length (filter (fun q => negb (str_mem q active)) ids))%nat.
Proof.
  induction ids as [|q rest IH]; intros n w Hn Hfresh.
  - simpl. lia.
  - cbn [addGroupMembers_loop filter]. cbn [length] in Hn.
    destruct (str_mem q active) eqn:Hact; cbn [negb].
    + apply IH; [lia | assumption].
    + rewrite IH; [| lia |].
      * cbn [messages with_messages with_memberships length].
        rewrite length_put_fresh by (apply Hfresh; lia). lia.
      * intros k Hk. cbn [messages with_messages with_memberships].
        rewrite hasKey_put. cbn [Message.id].
        rewrite (Hfresh k) by lia. rewrite orb_false_r.
        apply str_eqb_neq. intros E. apply createId_inj in E. revert E.
        apply Hdistinct; lia.
Qed.

Lemma addGroupMembers_loop_messages_In (msg : Message.t) (ids : list Id) :
  forall (n : nat) (w : World),
  In msg
    (messages (addGroupMembers_loop env chatId actor active names ids n w)) ->
  In msg (messages w)
  \/ (Message.chatId msg = chatId
      /\ Message.senderProfileId msg = actor
      /\ Message.type msg = MessageType.system
      /\ Message.attachmentIds msg = []
      /\ Message.createdAt msg = now env
      /\ exists q, In q ids /\ str_mem q active = false
                   /\ Message.text msg
                      = Some (profileNameOrUser q names
                              ++ js " was added to the group")).
Proof.
  induction ids as [|q rest IH]; intros n w Hin; [now left|].
  cbn [addGroupMembers_loop] in Hin.
  destruct (str_mem q active) eqn:Hact.
  - apply IH in Hin as [Hin | (H1 & H2 & H3 & H4 & H5 & q' & Hq' & Hrest)];
      [now left | right].
    repeat split; auto. exists q'. split; [now right | exact Hrest].
  - apply IH in Hin as [Hin | (H1 & H2 & H3 & H4 & H5 & q' & Hq' & Hrest)].
    + cbn [messages with_messages with_memberships] in Hin.
      apply put_In_inv in Hin as [-> | Hin]; [right | now left].
      cbn. repeat split. exists q. repeat split; auto.
    + right. repeat split; auto. exists q'. split; [now right | exact Hrest].
Qed.

Lemma addGroupMembers_loop_frame (ids : list Id) :
  forall (n : nat) (w : World),
  let w' := addGroupMembers_loop env chatId actor active names ids n w in
  profiles w' = profiles w /\ chats w' = chats w
  /\ attachmentsMeta w' = attachmentsMeta w
  /\ attachmentsBlob w' = attachmentsBlob w
  /\ published w' = published w.
Proof.
  induction ids as [|q rest IH]; intros n w; [simpl; tauto|].
  cbn [addGroupMembers_loop].
  destruct (str_mem q active); [apply IH|].
  match goal with
  | |- context [addGroupMembers_loop _ _ _ _ _ rest ?n' ?w'] =>
      specialize (IH n' w')
  end.
  simpl in IH. exact IH.
Qed.
End AddGroupMembersMessages.

Lemma addGroupMembers_messages (env : Env) (chatId actor : Id)
    (profileIds : list Id) (w : World) :
  messages (addGroupMembers env chatId actor profileIds w)
  = messages
      (addGroupMembers_loop env chatId actor
         (List.map ChatMembership.profileId
            (filter (fun m => isNull (ChatMembership.leftAt m))
               (getMembershipsByChat chatId w)))
         w (unique profileIds) 0 w).
Proof.
  unfold addGroupMembers.
  destruct (unique profileIds) as [|q rest]; [reflexivity|].
  cbn [publish messages]. now rewrite (proj1 (touchChat_frame _ _ _)).
Qed.

Lemma addGroupMembers_access (env : Env) (chatId actor : Id)
    (profileIds : list Id) (w : World) (q c : Id) :
  freshUuids env (2 * length (unique profileIds)) w = true ->
  canProfileAccessChat q c (addGroupMembers env chatId actor profileIds w)
  = canProfileAccessChat q c w
    || (str_eqb chatId c && str_mem q profileIds).
Proof.
  intros Hfresh.
  assert (Hadd : forall (n : nat) (b : bool),
            negb (n + (if b then 1 else 0) =? 0)%nat
            = negb (n =? 0)%nat || b)
    by (intros [|n] [|]; reflexivity).
  rewrite !canProfileAccessChat_count.
  rewrite addGroupMembers_memberships.
  rewrite (addGroupMembers_loop_count env chatId actor _ w
             (2 * length (unique profileIds))).
  - rewrite Hadd, str_mem_unique, activeMemberSet_access.
    destruct (str_eqb chatId c) eqn:Ec; simpl; [|reflexivity].
    apply str_eqb_eq in Ec. subst c.
    rewrite (canProfileAccessChat_count q chatId w).
    destruct (negb (length (activeFor chatId q (memberships w)) =? 0)%nat),
             (str_mem q profileIds); reflexivity.
  - intros i j Hi Hj. now apply (freshUuids_neq env _ w i j Hfresh).
  - apply unique_NoDup.
  - lia.
  - intros k Hk. apply (fresh_membership_key env _ w k Hfresh). lia.
Qed.

(** X4. [addGroupMembers] with fresh UUIDs gives access to the chat to
    exactly the given profiles in addition to those who had it, changes
    nobody's access to another chat, and stores one system message
    "<name> was added to the group" per profile that was not yet an
    active member and no other message; profiles and attachments are not
    touched. It does not check that the chat, the actor or the profiles
    exist. *)
Theorem addGroupMembers_grants_access (env : Env) (chatId actor : Id)
    (profileIds : list Id) (w : World) :
  freshUuids env (2 * length (unique profileIds)) w = true ->
  let w' := addGroupMembers env chatId actor profileIds w in
  (forall q, canProfileAccessChat q chatId w'
             = canProfileAccessChat q chatId w || str_mem q profileIds)
  /\ (forall q c, c <> chatId ->
        canProfileAccessChat q c w' = canProfileAccessChat q c w)
  /\ length (messages w')
     = (length (messages w)
        + length (filter (fun q => negb (canProfileAccessChat q chatId w))
                    (unique profileIds)))%nat
  /\ (forall msg, In msg (messages w') ->
        In msg (messages w)
        \/ (Message.chatId msg = chatId
            /\ Message.senderProfileId msg = actor
            /\ Message.type msg = MessageType.system
            /\ Message.attachmentIds msg = []
            /\ Message.createdAt msg = now env
            /\ exists q, In q profileIds
                         /\ canProfileAccessChat q chatId w = false
                         /\ Message.text msg
                            = Some (profileNameOrUser q w
                                    ++ js " was added to the group")))
  /\ profiles w' = profiles w
  /\ attachmentsMeta w' = attachmentsMeta w
  /\ attachmentsBlob w' = attachmentsBlob w.
Proof.
  intros Hfresh w'.
  assert (Hdistinct : forall i j, (i < 2 * length (unique profileIds))%nat ->
            (j < 2 * length (unique profileIds))%nat -> i <> j ->
            uuid env i <> uuid env j)
    by (intros i j Hi Hj; now apply (freshUuids_neq env _ w i j Hfresh)).
  split; [|split; [|split; [|split]]].
  - intros q. subst w'. rewrite addGroupMembers_access by assumption.
    now rewrite str_eqb_refl.
  - intros q c Hc. subst w'. rewrite addGroupMembers_access by assumption.
    assert (E : str_eqb chatId c = false) by (apply str_eqb_neq; congruence).
    rewrite E. simpl. apply orb_false_r.
  - subst w'. rewrite addGroupMembers_messages.
    rewrite (addGroupMembers_loop_messages_length env chatId actor _ w
               (2 * length (unique profileIds)) Hdistinct).
    + f_equal. f_equal. apply filter_ext. intros q.
      now rewrite activeMemberSet_access.
    + lia.
    + intros k Hk. apply (fresh_message_key env _ w k Hfresh). lia.
  - intros msg Hmsg. subst w'. rewrite addGroupMembers_messages in Hmsg.
    apply addGroupMembers_loop_messages_In in Hmsg
      as [Hin | (H1 & H2 & H3 & H4 & H5 & q & Hq & Hact & Htext)];
      [now left | right].
    repeat split; auto. exists q. split; [now apply unique_In|].
    split; [now rewrite <- activeMemberSet_access | exact Htext].
  - subst w'. unfold addGroupMembers.
    destruct (unique profileIds) as [|q rest] eqn:Eu; [auto|].
    pose proof (addGroupMembers_loop_frame env chatId actor
                  (List.map ChatMembership.profileId
                     (filter (fun m => isNull (ChatMembership.leftAt m))
                        (getMembershipsByChat chatId w)))
                  w (q :: rest) 0 w) as (Hp & _ & Hm & Hb & _).
    cbn [publish profiles attachmentsMeta attachmentsBlob].
    destruct (touchChat_frame (getChat chatId w) (now env)
                (addGroupMembers_loop env chatId actor
                   (List.map ChatMembership.profileId
                      (filter (fun m => isNull (ChatMembership.leftAt m))
                         (getMembershipsByChat chatId w)))
                   w (q :: rest) 0 w)) as (_ & Hm' & Hb').
    rewrite Hm', Hb', Hm, Hb. repeat split.
    destruct (getChat chatId w); simpl; exact Hp.
Qed.

Lemma addGroupMembers_grants_access_witness :
  let profileIds := [js "Jordan"; js "Sam"; js "Jordan"] in
  freshUuids envB (2 * length (unique profileIds)) weekendWorld = true
  /\ (let w' := addGroupMembers envB weekendChatId (js "Alex") profileIds
                  weekendWorld in
      (forall q, canProfileAccessChat q weekendChatId w'
                 = canProfileAccessChat q weekendChatId weekendWorld
                   || str_mem q profileIds)
      /\ (forall q c, c <> weekendChatId ->
            canProfileAccessChat q c w'
            = canProfileAccessChat q c weekendWorld)
      /\ length (messages w')
         = (length (messages weekendWorld)
            + length
                (filter
                   (fun q => negb (canProfileAccessChat q weekendChatId
                                     weekendWorld))
                   (unique profileIds)))%nat
      /\ (forall msg, In msg (messages w') ->
            In msg (messages weekendWorld)
            \/ (Message.chatId msg = weekendChatId
                /\ Message.senderProfileId msg = js "Alex"
                /\ Message.type msg = MessageType.system
                /\ Message.attachmentIds msg = []
                /\ Message.createdAt msg = now envB
                /\ exists q, In q profileIds
                             /\ canProfileAccessChat q weekendChatId
                                  weekendWorld = false
                             /\ Message.text msg
                                = Some (profileNameOrUser q weekendWorld
                                        ++ js " was added to the group")))
      /\ profiles w' = profiles weekendWorld
      /\ attachmentsMeta w' = attachmentsMeta weekendWorld
      /\ attachmentsBlob w' = attachmentsBlob weekendWorld).
Proof.
  intros profileIds.
  assert (H : freshUuids envB (2 * length (unique profileIds)) weekendWorld
              = true) by (vm_compute; reflexivity).
  split; [exact H|].
  exact (addGroupMembers_grants_access envB weekendChatId (js "Alex")
           profileIds weekendWorld H).
Defined.

(** ** getChatMembers and getCandidateProfilesForGroupAdd *)

Lemma find_app {A} (f : A -> bool) (l1 l2 : list A) :
  find f (l1 ++ l2)
  = match find f l1 with Some x => Some x | None => find f l2 end.
Proof.
  induction l1 as [|x l1 IH]; simpl; [reflexivity|].
  destruct (f x); [reflexivity | exact IH].
Qed.

Section JsMapFacts.
Context {V : Type}.

Lemma mapLookup_mapSet (k k' : Id) (v : V) (m : list (Id * V)) :
  mapLookup k (mapSet k' v m)
  = if str_eqb k' k then Some v else mapLookup k m.
Proof.
  induction m as [|[k1 v1] m IH]; simpl; [reflexivity|].
  destruct (str_eqb k1 k') eqn:E1; simpl.
  - apply str_eqb_eq in E1. subst k1.
    destruct (str_eqb k' k); reflexivity.
  - rewrite IH. destruct (str_eqb k1 k) eqn:E2; [|reflexivity].
    apply str_eqb_eq in E2. subst k1. now rewrite str_eqb_sym, E1.
Qed.

(** [new Map(entries).get(k)] is the value of the last entry with key [k]. *)
Lemma mapLookup_mapOf (k : Id) (entries : list (Id * V)) :
  mapLookup k (mapOf entries)
  = option_map snd (find (fun e => str_eqb (fst e) k) (rev entries)).
Proof.
  unfold mapOf.
  assert (H : forall acc,
            mapLookup k
              (fold_left (fun m e => mapSet (fst e) (snd e) m) entries acc)
            = match find (fun e => str_eqb (fst e) k) (rev entries) with
              | Some e => Some (snd e)
              | None => mapLookup k acc
              end).
  { induction entries as [|e entries IH]; intros acc; simpl; [reflexivity|].
    rewrite IH, find_app, mapLookup_mapSet. simpl.
    destruct (find _ (rev entries)); [reflexivity|].
    destruct (str_eqb (fst e) k); reflexivity. }
  rewrite H. destruct (find _ (rev entries)); reflexivity.
Qed.
End JsMapFacts.

Lemma definedOnly_In {A} (x : A) (l : list (option A)) :
  In x (definedOnly l) <-> In (Some x) l.
Proof.
  induction l as [|[y|] l IH]; simpl; [tauto | |].
  - rewrite IH. split; intros [H | H]; auto; left; congruence.
  - rewrite IH. split; [auto | intros [H | H]; [discriminate | auto]].
Qed.

Lemma definedOnly_length {A} (l : list (option A)) :
  (length (definedOnly l) <= length l)%nat.
Proof. induction l as [|[y|] l IH]; simpl; lia. Qed.

Section ProfilesById.
Variable localeCompare : JsString -> JsString -> Z.
Variable w : World.

Let byId : list (Id * Profile.t) :=
  mapOf (List.map (fun p => (Profile.id p, p)) (getProfiles localeCompare w)).

Lemma getProfiles_In (p : Profile.t) :
  In p (getProfiles localeCompare w) <-> In p (profiles w).
Proof. unfold getProfiles. apply sortBy_In. Qed.

Lemma profilesById_Some (k : Id) (p : Profile.t) :
  mapLookup k byId = Some p -> In p (profiles w) /\ Profile.id p = k.
Proof.
  unfold byId. rewrite mapLookup_mapOf. intros H.
  destruct (find _ _) as [e|] eqn:E; [|discriminate].
  injection H as <-. apply find_some in E as [Hin Hk].
  apply in_rev, in_map_iff in Hin as (q & <- & Hq). simpl in *.
  split; [now apply getProfiles_In | now apply str_eqb_eq].
Qed.

Lemma profilesById_stored (p : Profile.t) :
  In p (profiles w) -> exists p', mapLookup (Profile.id p) byId = Some p'.
Proof.
  intros Hin. unfold byId. rewrite mapLookup_mapOf.
  destruct (find _ _) as [e|] eqn:E; [now exists (snd e)|].
  exfalso.
  assert (He : In (Profile.id p, p)
                 (rev (List.map (fun p => (Profile.id p, p))
                         (getProfiles localeCompare w)))).
  { apply in_rev. rewrite rev_involutive. apply in_map_iff.
    exists p. split; [reflexivity | now apply getProfiles_In]. }
  apply (find_none _ _ E) in He. simpl in He.
  now rewrite str_eqb_refl in He.
Qed.

Lemma profilesById_unique (p : Profile.t) :
  NoDup (List.map Profile.id (profiles w)) -> In p (profiles w) ->
  mapLookup (Profile.id p) byId = Some p.
Proof.
  intros Hnd Hin. destruct (profilesById_stored p Hin) as [p' Hp'].
  rewrite Hp'. f_equal.
  apply profilesById_Some in Hp' as [Hin' Hid].
  exact (NoDup_keys_inj Profile.id _ p' p Hnd Hin' Hin Hid).
Qed.

Lemma getChatMembers_In (chatId : Id) (p : Profile.t) :
  In p (getChatMembers localeCompare chatId w)
  <-> canProfileAccessChat (Profile.id p) chatId w = true
      /\ mapLookup (Profile.id p) byId = Some p.
Proof.
  unfold getChatMembers. fold byId.
  rewrite <- activeMemberSet_access, str_mem_In.
  set (activeIds := List.map ChatMembership.profileId _).
  assert (H : In p (definedOnly
                      (List.map (fun id => mapLookup id byId) activeIds))
              <-> In (Profile.id p) activeIds
                  /\ mapLookup (Profile.id p) byId = Some p).
  { rewrite definedOnly_In, in_map_iff. split.
    - intros (a & Ha & Hin).
      pose proof (profilesById_Some a p Ha) as [_ <-]. auto.
    - intros [Hin Hp]. eauto. }
  destruct activeIds as [|a rest] eqn:E; [simpl; tauto | exact H].
Qed.

Lemma getCandidateProfilesForGroupAdd_In (chatId : Id) (p : Profile.t) :
  In p (getCandidateProfilesForGroupAdd localeCompare chatId w)
  <-> In p (profiles w)
      /\ canProfileAccessChat (Profile.id p) chatId w = false.
Proof.
  unfold getCandidateProfilesForGroupAdd.
  rewrite filter_In, getProfiles_In, negb_true_iff, str_mem_not_In.
  split; intros [Hin H]; (split; [assumption|]).
  - destruct (canProfileAccessChat (Profile.id p) chatId w) eqn:Ha;
      [|reflexivity].
    exfalso. apply H.
    destruct (profilesById_stored p Hin) as [p' Hp'].
    pose proof (profilesById_Some _ _ Hp') as [_ Hid].
    apply in_map_iff. exists p'. split; [assumption|].
    apply getChatMembers_In. rewrite Hid. auto.
  - intros Hmem. apply in_map_iff in Hmem as (p' & Hid & Hp').
    apply getChatMembers_In in Hp' as [Ha _]. congruence.
Qed.
End ProfilesById.

(** X5. [getChatMembers] returns only stored profiles that have an active
    membership in the chat, at most one entry per active membership; an
    active member without stored profile is left out. With unique profile
    ids it returns every stored profile that has access. *)
Theorem getChatMembers_sound_complete
    (localeCompare : JsString -> JsString -> Z) (chatId : Id) (w : World) :
  Forall
    (fun p => In p (profiles w)
              /\ canProfileAccessChat (Profile.id p) chatId w = true)
    (getChatMembers localeCompare chatId w)
  /\ (length (getChatMembers localeCompare chatId w)
      <= length
           (filter (fun m => isNull (ChatMembership.leftAt m))
              (getMembershipsByChat chatId w)))%nat
  /\ (NoDup (List.map Profile.id (profiles w)) ->
      forall p, In p (profiles w) ->
        canProfileAccessChat (Profile.id p) chatId w = true ->
        In p (getChatMembers localeCompare chatId w)).
Proof.
  split; [|split].
  - apply Forall_forall. intros p Hp.
    apply getChatMembers_In in Hp as [Ha Hp].
    apply profilesById_Some in Hp as [Hin _]. auto.
  - unfold getChatMembers.
    destruct (List.map ChatMembership.profileId _) as [|a rest] eqn:E.
    + simpl. lia.
    + rewrite <- E.
      etransitivity; [apply definedOnly_length|].
      now rewrite !length_map.
  - intros Hnd p Hin Ha. apply getChatMembers_In. split; [assumption|].
    now apply profilesById_unique.
Qed.

(** X6. The candidates for adding to a group are exactly the stored
    profiles without active membership in the chat; so for a chat nobody
    is an active member of (one that does not exist, say) every stored
    profile is a candidate, and no candidate is among the members. *)
Theorem getCandidateProfilesForGroupAdd_spec
    (localeCompare : JsString -> JsString -> Z) (chatId : Id) (w : World) :
  (forall p, In p (getCandidateProfilesForGroupAdd localeCompare chatId w)
             <-> In p (profiles w)
                 /\ canProfileAccessChat (Profile.id p) chatId w = false)
  /\ (getMembershipsByChat chatId w = [] ->
      forall p, In p (profiles w) ->
        In p (getCandidateProfilesForGroupAdd localeCompare chatId w))
  /\ (forall p, In p (getCandidateProfilesForGroupAdd localeCompare chatId w)
                -> ~ In (Profile.id p)
                       (List.map Profile.id
                          (getChatMembers localeCompare chatId w))).
Proof.
  split; [|split].
  - intros p. apply getCandidateProfilesForGroupAdd_In.
  - intros Hnone p Hin. apply getCandidateProfilesForGroupAdd_In.
    split; [assumption|]. unfold canProfileAccessChat. now rewrite Hnone.
  - intros p Hp Hmem.
    apply getCandidateProfilesForGroupAdd_In in Hp as [_ Ha].
    apply in_map_iff in Hmem as (p' & Hid & Hp').
    apply getChatMembers_In in Hp' as [Ha' _]. congruence.
Qed.

(** X7. Adding profiles to a chat removes exactly them from the
    candidates: after [addGroupMembers] with fresh UUIDs a profile is a
    candidate when it was one before and is not among the given ids. *)
Theorem addGroupMembers_updates_candidates
    (localeCompare : JsString -> JsString -> Z) (env : Env)
    (chatId actor : Id) (profileIds : list Id) (w : World) :
  freshUuids env (2 * length (unique profileIds)) w = true ->
  forall p,
    In p (getCandidateProfilesForGroupAdd localeCompare chatId
            (addGroupMembers env chatId actor profileIds w))
    <-> In p (getCandidateProfilesForGroupAdd localeCompare chatId w)
        /\ ~ In (Profile.id p) profileIds.
Proof.
  intros Hfresh p.
  rewrite !getCandidateProfilesForGroupAdd_In.
  rewrite addGroupMembers_access by assumption.
  rewrite str_eqb_refl. simpl.
  assert (Hprof : profiles (addGroupMembers env chatId actor profileIds w)
                  = profiles w).
  { unfold addGroupMembers.
    destruct (unique profileIds) as [|q rest]; [reflexivity|].
    cbn [publish profiles].
    pose proof (addGroupMembers_loop_frame env chatId actor
                  (List.map ChatMembership.profileId
                     (filter (fun m => isNull (ChatMembership.leftAt m))
                        (getMembershipsByChat chatId w)))
                  w (q :: rest) 0 w) as (Hp & _).
    destruct (getChat chatId w); simpl; exact Hp. }
  rewrite Hprof, orb_false_iff, str_mem_not_In. tauto.
Qed.

Lemma addGroupMembers_updates_candidates_witness :
  let w := snd (createProfile envB (js "Jordan") weekendWorld) in
  let jordan := fst (createProfile envB (js "Jordan") weekendWorld) in
  let env := mkEnv 3000 (fun n => [67; Z.of_nat n + 48]) in
  freshUuids env (2 * length (unique [Profile.id jordan])) w = true
  /\ forall p,
       In p (getCandidateProfilesForGroupAdd codeUnitCompare weekendChatId
               (addGroupMembers env weekendChatId (js "Alex")
                  [Profile.id jordan] w))
       <-> In p (getCandidateProfilesForGroupAdd codeUnitCompare
                   weekendChatId w)
           /\ ~ In (Profile.id p) [Profile.id jordan].
Proof.
  intros w jordan env.
  assert (H : freshUuids env (2 * length (unique [Profile.id jordan])) w
              = true) by (vm_compute; reflexivity).
  split; [exact H|].
  exact (addGroupMembers_updates_candidates codeUnitCompare env weekendChatId
           (js "Alex") [Profile.id jordan] w H).
Defined.

(** ** sendMessage: what is accepted, what is reported, what is stored *)

Lemma validateFiles_Forall (files : list File.t) :
  Forall (fun f => File.size f <= maxFileBytes) files ->
  validateFiles files = None.
Proof.
  induction 1 as [|f files Hf _ IH]; simpl; [reflexivity|].
  unfold validateFile.
  destruct (File.size f >? maxFileBytes) eqn:E; [|exact IH].
  rewrite Z.gtb_ltb in E. apply Z.ltb_lt in E. lia.
Qed.

Lemma validateFiles_first (pre post : list File.t) (f : File.t) :
  Forall (fun g => File.size g <= maxFileBytes) pre ->
  File.size f > maxFileBytes ->
  validateFiles (pre ++ f :: post)
  = Some (js "File " ++ [34] ++ File.name f ++ [34]
          ++ js " is larger than 10 MB.").
Proof.
  intros Hpre Hf.
  induction Hpre as [|g pre Hg _ IH]; simpl.
  - unfold validateFile.
    destruct (File.size f >? maxFileBytes) eqn:E; [reflexivity|].
    rewrite Z.gtb_ltb in E. apply Z.ltb_ge in E. lia.
  - unfold validateFile at 1.
    destruct (File.size g >? maxFileBytes) eqn:E; [|exact IH].
    rewrite Z.gtb_ltb in E. apply Z.ltb_lt in E. lia.
Qed.

(** X8. [sendMessage] succeeds exactly when the message is not empty
    (trimmed text or a file), every file is within [maxFileBytes] and the
    stored bytes plus the new bytes are within [maxTotalBytes]. Nothing
    else is checked: not the existence of the chat, nor the membership of
    the sender. *)
Theorem sendMessage_accepts_iff (env : Env) (input : SendMessageInput.t)
    (w : World) :
  (exists m, fst (sendMessage env input w) = Returned m)
  <-> (trim (SendMessageInput.text input) <> []
       \/ SendMessageInput.files input <> [])
      /\ Forall (fun f => File.size f <= maxFileBytes)
           (SendMessageInput.files input)
      /\ getTotalAttachmentBytes w
         + sumFileSizes (SendMessageInput.files input) <= maxTotalBytes.
Proof.
  unfold sendMessage. split.
  - intros [m Hm].
    destruct (match trim (SendMessageInput.text input),
                    SendMessageInput.files input with
              | [], [] => true | _, _ => false end) eqn:Eempty;
      [discriminate|].
    destruct (validateFiles _) eqn:Ev; [discriminate|].
    destruct (_ >? maxTotalBytes) eqn:Eq; [discriminate|].
    split; [|split].
    + destruct (trim (SendMessageInput.text input));
        destruct (SendMessageInput.files input);
        try discriminate; [right | left | left]; discriminate.
    + now apply validateFiles_None.
    + rewrite Z.gtb_ltb in Eq. now apply Z.ltb_ge in Eq.
  - intros (Hne & Hsizes & Htotal).
    assert (Eempty : match trim (SendMessageInput.text input),
                           SendMessageInput.files input with
                     | [], [] => true | _, _ => false end = false).
    { destruct (trim (SendMessageInput.text input));
        destruct (SendMessageInput.files input); try reflexivity.
      destruct Hne; contradiction. }
    rewrite Eempty, (validateFiles_Forall _ Hsizes).
    assert (Eq : (getTotalAttachmentBytes w
                  + sumFileSizes (SendMessageInput.files input)
                  >? maxTotalBytes) = false)
      by (rewrite Z.gtb_ltb; apply Z.ltb_ge; lia).
    rewrite Eq.
    destruct (storeFiles _ _ _ _ _ _ _) as [attachmentIds w1].
    eexists. reflexivity.
Qed.

(** X9. When a file is too large, [sendMessage] throws the message of
    [validateFile] for the first such file, 'File "<name>" is larger than
    10 MB.', whatever the text and the total quota are, and writes
    nothing. *)
Theorem sendMessage_reports_first_oversized (env : Env)
    (input : SendMessageInput.t) (w : World) (pre post : list File.t)
    (f : File.t) :
  SendMessageInput.files input = pre ++ f :: post ->
  Forall (fun g => File.size g <= maxFileBytes) pre ->
  File.size f > maxFileBytes ->
  sendMessage env input w
  = (Thrown (js "File " ++ [34] ++ File.name f ++ [34]
             ++ js " is larger than 10 MB."), w).
Proof.
  intros Hfiles Hpre Hf. unfold sendMessage.
  rewrite Hfiles, (validateFiles_first pre post f Hpre Hf).
  destruct (trim (SendMessageInput.text input));
    destruct pre; reflexivity.
Qed.

Lemma oversizedFile_size : File.size oversizedFile > maxFileBytes.
Proof.
  unfold File.size, oversizedFile. cbn [File.bytes].
  rewrite repeat_length, Z2Nat.id; [lia|].
  unfold maxFileBytes. lia.
Qed.

Lemma sendMessage_reports_first_oversized_witness :
  let input :=
    SendMessageInput.mk weekendChatId (js "Sam") (js "look at this")
      [photoFile; oversizedFile; notesFile] in
  SendMessageInput.files input = [photoFile] ++ oversizedFile :: [notesFile]
  /\ Forall (fun g => File.size g <= maxFileBytes) [photoFile]
  /\ File.size oversizedFile > maxFileBytes
  /\ sendMessage envB input weekendWorld
     = (Thrown (js "File " ++ [34] ++ File.name oversizedFile ++ [34]
                ++ js " is larger than 10 MB."), weekendWorld).
Proof.
  intros input.
  assert (H1 : SendMessageInput.files input
               = [photoFile] ++ oversizedFile :: [notesFile])
    by reflexivity.
  assert (H2 : Forall (fun g => File.size g <= maxFileBytes) [photoFile]).
  { constructor; [|constructor]. unfold File.size, maxFileBytes. simpl. lia. }
  split; [exact H1|]. split; [exact H2|].
  split; [exact oversizedFile_size|].
  exact (sendMessage_reports_first_oversized envB input weekendWorld
           [photoFile] [notesFile] oversizedFile H1 H2 oversizedFile_size).
Defined.

Section SumFacts.
Context {A : Type} (g : A -> Z).

Lemma fold_add_shift (l : list A) (a : Z) :
  fold_left (fun s x => s + g x) l a
  = a + fold_left (fun s x => s + g x) l 0.
Proof.
  revert a. induction l as [|x l IH]; intros a; simpl; [lia|].
  rewrite (IH (a + g x)), (IH (g x)). lia.
Qed.

Lemma fold_add_app (l1 l2 : list A) :
  fold_left (fun s x => s + g x) (l1 ++ l2) 0
  = fold_left (fun s x => s + g x) l1 0
    + fold_left (fun s x => s + g x) l2 0.
Proof. rewrite fold_left_app. apply fold_add_shift. Qed.

Lemma fold_add_perm (l l' : list A) :
  Permutation l l' ->
  fold_left (fun s x => s + g x) l 0 = fold_left (fun s x => s + g x) l' 0.
Proof.
  induction 1 as [|x l l' _ IH|x y l|l l' l'' _ IH1 _ IH2]; simpl.
  - reflexivity.
  - rewrite (fold_add_shift l (g x)), (fold_add_shift l' (g x)), IH.
    reflexivity.
  - rewrite (fold_add_shift l (g y + g x)), (fold_add_shift l (g x + g y)).
    lia.
  - congruence.
Qed.
End SumFacts.

Lemma storeFiles_ids (env : Env) (messageId chatId : Id)
    (files : list File.t) :
  forall (n : nat) (acc : list Id) (w : World),
  fst (storeFiles env messageId chatId files n acc w)
  = acc ++ List.map (fun k => createId "att" (uuid env k))
             (seq n (length files)).
Proof.
  induction files as [|f files IH]; intros n acc w; simpl.
  - now rewrite app_nil_r.
  - rewrite IH, <- app_assoc. reflexivity.
Qed.

Lemma sum_new_metas (env : Env) (messageId chatId : Id)
    (files : list File.t) (n : nat) :
  fold_left (fun s meta => s + AttachmentMeta.sizeBytes meta)
    (mapi_from n
       (fun k f => attachmentMetaOf env messageId chatId (uuid env k) f)
       files) 0
  = sumFileSizes files.
Proof.
  unfold sumFileSizes. generalize 0. revert n.
  induction files as [|f files IH]; intros n a; simpl; [reflexivity|].
  apply IH.
Qed.

Lemma sendMessage_success (env : Env) (input : SendMessageInput.t)
    (w : World) (m : Message.t) :
  fst (sendMessage env input w) = Returned m ->
  let files := SendMessageInput.files input in
  let chatId := SendMessageInput.chatId input in
  let msgId := createId "msg" (uuid env 0) in
  let stored := storeFiles env msgId chatId files 1 [] w in
  validateFiles files = None
  /\ getTotalAttachmentBytes w + sumFileSizes files <= maxTotalBytes
  /\ m = Message.mk msgId chatId (SendMessageInput.senderProfileId input)
           (deriveMessageType (trim (SendMessageInput.text input)) files)
           (match trim (SendMessageInput.text input) with
            | [] => None
            | _ => Some (trim (SendMessageInput.text input))
            end)
           (fst stored) (now env)
  /\ snd (sendMessage env input w)
     = publish chats_changed
         (publish messages_changed
            (touchChat (getChat chatId w) (now env)
               (with_messages (snd stored)
                  (put Message.id m (messages (snd stored)))))).
Proof.
  intros Hsent files chatId msgId stored.
  unfold sendMessage in *. fold files chatId msgId in Hsent |- *.
  destruct (match trim (SendMessageInput.text input), files with
            | [] , [] => true | _, _ => false end); [discriminate|].
  destruct (validateFiles files); [discriminate|].
  destruct (_ >? maxTotalBytes) eqn:Eq; [discriminate|].
  rewrite Z.gtb_ltb in Eq. apply Z.ltb_ge in Eq.
  fold stored in Hsent |- *. destruct stored as [attachmentIds w1].
  cbn [fst snd] in *. injection Hsent as <-. auto.
Qed.

Lemma sendMessage_metas_perm (env : Env) (input : SendMessageInput.t)
    (w : World) (m : Message.t) :
  freshUuids env (1 + length (SendMessageInput.files input)) w = true ->
  fst (sendMessage env input w) = Returned m ->
  Permutation (attachmentsMeta (snd (sendMessage env input w)))
    (mapi_from 1
       (fun k f =>
          attachmentMetaOf env (createId "msg" (uuid env 0))
            (SendMessageInput.chatId input) (uuid env k) f)
       (SendMessageInput.files input)
     ++ attachmentsMeta w).
Proof.
  intros Hfresh Hsent.
  destruct (sendMessage_success env input w m Hsent) as (_ & _ & _ & ->).
  cbn [publish attachmentsMeta].
  rewrite (proj1 (proj2 (touchChat_frame _ _ _))).
  cbn [attachmentsMeta with_messages].
  rewrite storeFiles_metas.
  set (metaOf := fun (k : nat) (f : File.t) =>
                   attachmentMetaOf env (createId "msg" (uuid env 0))
                     (SendMessageInput.chatId input) (uuid env k) f).
  apply putAll_fresh_perm.
  - rewrite (map_mapi_from_index metaOf AttachmentMeta.id
               (fun k => createId "att" (uuid env k))) by reflexivity.
    apply (fresh_range_NoDup env _ w "att" 1 _ Hfresh). lia.
  - intros meta Hmeta.
    apply In_mapi_from in Hmeta as (k & f & -> & _ & Hk).
    apply hasKey_false. intros Hin.
    apply (freshUuids_unused env _ w k (createId "att" (uuid env k)) Hfresh);
      [lia | simpl; tauto |].
    unfold knownIds. rewrite !in_app_iff. do 5 right. left. exact Hin.
Qed.

(** X10. A successful [sendMessage] with fresh UUIDs raises
    [getTotalAttachmentBytes] by exactly the bytes of the files and keeps
    it within [maxTotalBytes]; the returned message is stored under its id,
    carries the trimmed text (null when empty), one attachment id per file
    and [createdAt = now]; the chat, if it exists, gets
    [updatedAt = lastMessageAt = now], and if it does not exist the
    message is stored all the same and the chats are untouched; profiles
    and memberships are untouched, and two events are published. *)
Theorem sendMessage_success_effects (env : Env) (input : SendMessageInput.t)
    (w : World) (m : Message.t) :
  freshUuids env (1 + length (SendMessageInput.files input)) w = true ->
  fst (sendMessage env input w) = Returned m ->
  let w' := snd (sendMessage env input w) in
  let chatId := SendMessageInput.chatId input in
  getTotalAttachmentBytes w'
  = getTotalAttachmentBytes w + sumFileSizes (SendMessageInput.files input)
  /\ getTotalAttachmentBytes w' <= maxTotalBytes
  /\ getByKey Message.id (Message.id m) (messages w') = Some m
  /\ Message.chatId m = chatId
  /\ Message.senderProfileId m = SendMessageInput.senderProfileId input
  /\ Message.createdAt m = now env
  /\ Message.text m
     = match trim (SendMessageInput.text input) with
       | [] => None
       | t => Some t
       end
  /\ length (Message.attachmentIds m)
     = length (SendMessageInput.files input)
  /\ (forall chat, getChat chatId w = Some chat ->
        getChat chatId w'
        = Some (Chat.mk (Chat.id chat) (Chat.type chat) (Chat.title chat)
                  (Chat.createdByProfileId chat) (Chat.createdAt chat)
                  (now env) (Some (now env))))
  /\ (getChat chatId w = None -> chats w' = chats w)
  /\ profiles w' = profiles w
  /\ memberships w' = memberships w
  /\ published w' = published w ++ [messages_changed; chats_changed].
Proof.
  intros Hfresh Hsent w' chatId.
  pose proof (sendMessage_metas_perm env input w m Hfresh Hsent) as Hperm.
  destruct (sendMessage_success env input w m Hsent)
    as (_ & Htotal & Hm & Hw').
  fold w' in Hperm, Hw'. fold chatId in Hm, Hw'.
  pose proof (storeFiles_frame env (createId "msg" (uuid env 0)) chatId
                (SendMessageInput.files input) 1 [] w)
    as (Hprof & Hchats & Hmemb & Hmsgs & Hpub).
  cbv zeta in Hprof, Hchats, Hmemb, Hmsgs, Hpub.
  assert (Hsum : getTotalAttachmentBytes w'
                 = getTotalAttachmentBytes w
                   + sumFileSizes (SendMessageInput.files input)).
  { unfold getTotalAttachmentBytes.
    rewrite (fold_add_perm _ _ _ Hperm), fold_add_app, sum_new_metas. lia. }
  split; [exact Hsum|]. split; [lia|].
  split; [|split; [|split; [|split; [|split; [|split]]]]].
  - rewrite Hw'. cbn [publish messages].
    rewrite (proj1 (touchChat_frame _ _ _)).
    cbn [messages with_messages]. apply getByKey_put_same.
  - rewrite Hm. reflexivity.
  - rewrite Hm. reflexivity.
  - rewrite Hm. reflexivity.
  - rewrite Hm. cbn [Message.text].
    destruct (trim (SendMessageInput.text input)); reflexivity.
  - rewrite Hm. cbn [Message.attachmentIds].
    rewrite storeFiles_ids. simpl. now rewrite length_map, length_seq.
  - split; [|split; [|split; [|split]]].
    + intros chat Hchat. rewrite Hw', Hchat.
      unfold getChat. cbn [publish chats touchChat with_chats].
      pose proof (getByKey_Some_In Chat.id _ _ _ Hchat) as [_ Hid].
      rewrite <- Hid at 1.
      apply (getByKey_put_same Chat.id
               (Chat.mk (Chat.id chat) (Chat.type chat) (Chat.title chat)
                  (Chat.createdByProfileId chat) (Chat.createdAt chat)
                  (now env) (Some (now env)))).
    + intros Hnone. rewrite Hw', Hnone. cbn. exact Hchats.
    + rewrite Hw'. destruct (getChat chatId w); cbn; exact Hprof.
    + rewrite Hw'. cbn [publish memberships].
      rewrite memberships_touchChat. cbn. exact Hmemb.
    + rewrite Hw'. cbn [publish published].
      rewrite <- app_assoc. simpl.
      destruct (getChat chatId w); cbn; now rewrite Hpub.
Qed.

Lemma sendMessage_success_effects_witness :
  freshUuids envB (1 + length (SendMessageInput.files twoFiles)) weekendWorld
  = true
  /\ fst (sendMessage envB twoFiles weekendWorld) = Returned twoFilesMessage
  /\ (let w' := snd (sendMessage envB twoFiles weekendWorld) in
      let chatId := SendMessageInput.chatId twoFiles in
      getTotalAttachmentBytes w'
      = getTotalAttachmentBytes weekendWorld
        + sumFileSizes (SendMessageInput.files twoFiles)
      /\ getTotalAttachmentBytes w' <= maxTotalBytes
      /\ getByKey Message.id (Message.id twoFilesMessage) (messages w')
         = Some twoFilesMessage
      /\ Message.chatId twoFilesMessage = chatId
      /\ Message.senderProfileId twoFilesMessage
         = SendMessageInput.senderProfileId twoFiles
      /\ Message.createdAt twoFilesMessage = now envB
      /\ Message.text twoFilesMessage
         = match trim (SendMessageInput.text twoFiles) with
           | [] => None
           | t => Some t
           end
      /\ length (Message.attachmentIds twoFilesMessage)
         = length (SendMessageInput.files twoFiles)
      /\ (forall chat, getChat chatId weekendWorld = Some chat ->
            getChat chatId w'
            = Some (Chat.mk (Chat.id chat) (Chat.type chat) (Chat.title chat)
                      (Chat.createdByProfileId chat) (Chat.createdAt chat)
                      (now envB) (Some (now envB))))
      /\ (getChat chatId weekendWorld = None -> chats w' = chats weekendWorld)
      /\ profiles w' = profiles weekendWorld
      /\ memberships w' = memberships weekendWorld
      /\ published w'
         = published weekendWorld ++ [messages_changed; chats_changed]).
Proof.
  assert (H1 : freshUuids envB
                 (1 + length (SendMessageInput.files twoFiles)) weekendWorld
               = true) by (vm_compute; reflexivity).
  assert (H2 : fst (sendMessage envB twoFiles weekendWorld)
               = Returned twoFilesMessage) by (vm_compute; reflexivity).
  split; [exact H1|]. split; [exact H2|].
  exact (sendMessage_success_effects envB twoFiles weekendWorld
           twoFilesMessage H1 H2).
Defined.

(** ** The quota as an invariant *)








(** ** getMessages: order *)

Section AscendingSort.
Context {A : Type} (key : A -> Z).




End AscendingSort.


(** ** getVisibleChatsForProfile: completeness *)

Lemma visibleChatIds_access (profileId c : Id) (w : World) :
  str_mem c
    (List.map ChatMembership.chatId
       (filter (fun m => str_eqb (ChatMembership.profileId m) profileId)
          (filter (fun m => isNull (ChatMembership.leftAt m))
             (memberships w))))
  = canProfileAccessChat profileId c w.
Proof.
  apply eq_true_iff_eq. rewrite canProfileAccessChat_iff, str_mem_In.
  rewrite in_map_iff. split.
  - intros (m & Hc & Hm). apply filter_In in Hm as [Hm Hp].
    apply filter_In in Hm as [Hm Hact]. apply str_eqb_eq in Hp.
    exists m. destruct (ChatMembership.leftAt m); [discriminate | auto].
  - intros (m & Hm & Hc & Hp & Hleft). exists m. split; [assumption|].
    apply filter_In. split; [|now apply str_eqb_eq].
    apply filter_In. split; [assumption | now rewrite Hleft].
Qed.

(** X13. [getVisibleChatsForProfile] lists every stored chat in which the
    profile has an active membership, each exactly once, and no other;
    [memberCount] is the number of active memberships of the chat, and a
    group is titled by its stored title. *)
Theorem getVisibleChatsForProfile_complete (profileId : Id) (w : World) :
  Permutation
    (List.map ChatListItem.chat (getVisibleChatsForProfile profileId w))
    (filter (fun chat => canProfileAccessChat profileId (Chat.id chat) w)
       (chats w))
  /\ Forall
       (fun item =>
          ChatListItem.memberCount item
          = Z.of_nat
              (length
                 (activeMembersOf (Chat.id (ChatListItem.chat item))
                    (memberships w)))
          /\ (Chat.type (ChatListItem.chat item) = group ->
              ChatListItem.title item
              = match Chat.title (ChatListItem.chat item) with
                | Some t => t
                | None => js "DM"
                end))
       (getVisibleChatsForProfile profileId w).
Proof.
  unfold getVisibleChatsForProfile. split.
  - rewrite (Permutation_map ChatListItem.chat (sortBy_perm _ _)).
    rewrite map_map. simpl. rewrite map_id.
    erewrite filter_ext; [reflexivity|].
    intros chat. apply visibleChatIds_access.
  - apply Forall_forall. intros item Hitem.
    apply sortBy_In, in_map_iff in Hitem as (chat & <- & _). simpl.
    rewrite mapGetOrEmpty_groupBy. split; [reflexivity|].
    intros Hgroup. unfold titleOf. now rewrite Hgroup.
Qed.

(** ** createDm: what it returns *)

Lemma dmPairMatches_true (a b : Id) (ids : list Id) :
  dmPairMatches a b ids = true -> ids = sortStrings [a; b].
Proof.
  unfold dmPairMatches.
  assert (H : sortStrings [a; b] = [a; b] \/ sortStrings [a; b] = [b; a]).
  { unfold sortStrings; simpl. destruct (str_compare a b); simpl; auto. }
  intros Hm. apply andb_true_iff in Hm as [Hm H1].
  apply andb_true_iff in Hm as [Hlen H0].
  destruct ids as [|x [|y [|z ids]]]; try discriminate.
  destruct H as [E | E]; rewrite E in *; simpl in *;
    apply str_eqb_eq in H0, H1; congruence.
Qed.

Lemma canProfileAccessChat_activeMembersOf (q c : Id) (w : World) :
  canProfileAccessChat q c w = true
  <-> In q (List.map ChatMembership.profileId
              (activeMembersOf c (memberships w))).
Proof.
  rewrite canProfileAccessChat_iff, in_map_iff. unfold activeMembersOf.
  split.
  - intros (m & Hm & Hc & Hp & Hleft). exists m. split; [assumption|].
    apply filter_In. split; [|now apply str_eqb_eq].
    apply filter_In. split; [assumption | now rewrite Hleft].
  - intros (m & Hp & Hm). apply filter_In in Hm as [Hm Hc].
    apply filter_In in Hm as [Hm Hact]. apply str_eqb_eq in Hc.
    exists m. destruct (ChatMembership.leftAt m); [discriminate | auto].
Qed.

(** X14. With fresh UUIDs, [createDm] always returns a stored chat of type
    [dm] whose active members are the two given profiles and nobody else,
    whether it found the chat or created it. It does not check that the
    profiles exist. *)
Theorem createDm_postcondition (env : Env) (a b : Id) (w : World) :
  freshUuids env 3 w = true ->
  let chat := fst (createDm env a b w) in
  let w' := snd (createDm env a b w) in
  In chat (chats w')
  /\ Chat.type chat = dm
  /\ Permutation
       (List.map ChatMembership.profileId
          (activeMembersOf (Chat.id chat) (memberships w')))
       [a; b]
  /\ (forall q, canProfileAccessChat q (Chat.id chat) w' = true
                <-> q = a \/ q = b).
Proof.
  intros Hfresh chat w'.
  assert (Hfound : findExistingDm a b w' = Some chat).
  { subst chat w'. destruct (findExistingDm a b w) as [existing|] eqn:E.
    - unfold createDm. rewrite E. exact E.
    - destruct (findExistingDm_after_create env a b w Hfresh E) as [E1 E2].
      rewrite E2, E1. reflexivity. }
  rewrite findExistingDm_find in Hfound.
  apply find_some in Hfound as [Hin Hdm].
  unfold isDmFor in Hdm.
  destruct (Chat.type chat) eqn:Etype; [|discriminate].
  apply dmPairMatches_true in Hdm.
  assert (Hperm : Permutation
                    (List.map ChatMembership.profileId
                       (activeMembersOf (Chat.id chat) (memberships w')))
                    [a; b]).
  { pose proof (sortBy_perm
                  (fun x y : Id =>
                     match str_compare x y with
                     | Lt => -1 | Eq => 0 | Gt => 1
                     end)
                  (List.map ChatMembership.profileId
                     (activeMembersOf (Chat.id chat) (memberships w'))))
      as Hp.
    fold (sortStrings
            (List.map ChatMembership.profileId
               (activeMembersOf (Chat.id chat) (memberships w')))) in Hp.
    rewrite Hdm in Hp. rewrite <- Hp. apply sortBy_perm. }
  repeat split; auto.
  - intros Hq. apply canProfileAccessChat_activeMembersOf in Hq.
    apply (Permutation_in _ Hperm) in Hq. simpl in Hq. intuition.
  - intros Hq. apply canProfileAccessChat_activeMembersOf.
    apply (Permutation_in _ (Permutation_sym Hperm)). simpl. intuition.
Qed.

Lemma createDm_postcondition_witness :
  freshUuids envB 3 weekendWorld = true
  /\ (let chat := fst (createDm envB (js "Sam") (js "Alex") weekendWorld) in
      let w' := snd (createDm envB (js "Sam") (js "Alex") weekendWorld) in
      In chat (chats w')
      /\ Chat.type chat = dm
      /\ Permutation
           (List.map ChatMembership.profileId
              (activeMembersOf (Chat.id chat) (memberships w')))
           [js "Sam"; js "Alex"]
      /\ (forall q, canProfileAccessChat q (Chat.id chat) w' = true
                    <-> q = js "Sam" \/ q = js "Alex")).
Proof.
  assert (H : freshUuids envB 3 weekendWorld = true)
    by (vm_compute; reflexivity).
  split; [exact H|].
  exact (createDm_postcondition envB (js "Sam") (js "Alex") weekendWorld H).
Defined.

(** ** pickAvatarColor: the hash *)

Lemma toInt32_range (x : Z) : - 2 ^ 31 <= toInt32 x < 2 ^ 31.
Proof.
  unfold toInt32.
  pose proof (Z.mod_pos_bound (x + 2 ^ 31) (2 ^ 32) ltac:(lia)). lia.
Qed.

Lemma toInt32_ex (x : Z) : exists k, toInt32 x = x + k * 2 ^ 32.
Proof.
  unfold toInt32. exists (- ((x + 2 ^ 31) / 2 ^ 32)).
  rewrite Z.mod_eq by lia. lia.
Qed.

Lemma toInt32_add_mul (y k : Z) : toInt32 (y + k * 2 ^ 32) = toInt32 y.
Proof.
  unfold toInt32.
  replace (y + k * 2 ^ 32 + 2 ^ 31) with (y + 2 ^ 31 + k * 2 ^ 32) by lia.
  now rewrite Z_mod_plus_full.
Qed.

(** One round of the loop multiplies by 31 and adds the code unit. *)
Lemma hashStep_31 (h c : Z) : hashStep h c = toInt32 (31 * h + c).
Proof.
  unfold hashStep. rewrite Z.shiftl_mul_pow2 by lia.
  destruct (toInt32_ex h) as [k1 E1]. rewrite E1.
  destruct (toInt32_ex ((h + k1 * 2 ^ 32) * 2 ^ 5)) as [k2 E2]. rewrite E2.
  replace ((h + k1 * 2 ^ 32) * 2 ^ 5 + k2 * 2 ^ 32 - h + c)
    with (31 * h + c + (32 * k1 + k2) * 2 ^ 32) by lia.
  apply toInt32_add_mul.
Qed.

Lemma hashOf_snoc (seed : JsString) (c : Z) :
  hashOf (seed ++ [c]) = toInt32 (31 * hashOf seed + c).
Proof.
  unfold hashOf. rewrite fold_left_app. simpl. apply hashStep_31.
Qed.

Lemma hashOf_polyHash (seed : JsString) :
  hashOf seed = toInt32 (polyHash seed).
Proof.
  induction seed as [|c seed IH] using rev_ind; [reflexivity|].
  rewrite hashOf_snoc, IH.
  assert (Hp : polyHash (seed ++ [c]) = 31 * polyHash seed + c)
    by (unfold polyHash; now rewrite fold_left_app).
  rewrite Hp.
  destruct (toInt32_ex (polyHash seed)) as [k E]. rewrite E.
  replace (31 * (polyHash seed + k * 2 ^ 32) + c)
    with (31 * polyHash seed + c + (31 * k) * 2 ^ 32) by lia.
  apply toInt32_add_mul.
Qed.

(** X15. The loop of [pickAvatarColor] computes the polynomial hash of the
    code units with multiplier 31, reduced to a signed 32-bit integer; the
    colour is the palette entry at [|hash| mod 8], which exists for every
    seed, also when the hash is [-2^31]. *)
Theorem pickAvatarColor_hash (seed : JsString) :
  hashOf seed = toInt32 (polyHash seed)
  /\ - 2 ^ 31 <= hashOf seed < 2 ^ 31
  /\ exists i : nat,
       Z.of_nat i = Z.abs (hashOf seed) mod 8
       /\ nth_error COLORS i = Some (pickAvatarColor seed).
Proof.
  split; [apply hashOf_polyHash|].
  split; [rewrite hashOf_polyHash; apply toInt32_range|].
  exists (Z.to_nat (Z.abs (hashOf seed) mod 8)).
  pose proof (Z.mod_pos_bound (Z.abs (hashOf seed)) 8 ltac:(lia)) as Hb.
  split; [lia|].
  unfold pickAvatarColor. change (Z.of_nat (length COLORS)) with 8.
  apply nth_error_nth'. change (length COLORS) with 8%nat. lia.
Qed.

(** ** groupBy *)

Section GroupByKeys.
Context {T : Type}.

Lemma map_fst_groupAdd (k : Id) (x : T) (m : Groups T) :
  List.map fst (groupAdd k x m)
  = if str_mem k (List.map fst m) then List.map fst m
    else List.map fst m ++ [k].
Proof.
  unfold str_mem.
  induction m as [|[k' arr] m IH]; [reflexivity|].
  cbn [groupAdd List.map fst existsb]. rewrite (str_eqb_sym k k').
  destruct (str_eqb k' k); [reflexivity|].
  cbn [List.map fst orb]. rewrite IH.
  now destruct (existsb (str_eqb k) (List.map fst m)).
Qed.

Lemma unique_snoc (l : list Id) (k : Id) :
  unique (l ++ [k]) = if str_mem k l then unique l else unique l ++ [k].
Proof.
  unfold str_mem.
  induction l as [|x l IH]; [reflexivity|].
  cbn [app unique existsb]. rewrite IH, (str_eqb_sym k x).
  destruct (str_eqb x k) eqn:E; cbn [orb].
  - destruct (existsb (str_eqb k) l); [reflexivity|].
    rewrite filter_app. cbn [filter]. rewrite E. cbn [negb].
    now rewrite app_nil_r.
  - destruct (existsb (str_eqb k) l); [reflexivity|].
    rewrite filter_app. cbn [filter]. rewrite E. reflexivity.
Qed.

Lemma groupBy_snoc (f : T -> Id) (items : list T) (x : T) :
  groupBy f (items ++ [x]) = groupAdd (f x) x (groupBy f items).
Proof. unfold groupBy. now rewrite fold_left_app. Qed.

Lemma groupBy_keys (f : T -> Id) (items : list T) :
  List.map fst (groupBy f items) = unique (List.map f items).
Proof.
  induction items as [|x items IH] using rev_ind; [reflexivity|].
  rewrite groupBy_snoc, map_fst_groupAdd, IH, map_app.
  cbn [List.map]. now rewrite unique_snoc, str_mem_unique.
Qed.

Lemma mapGet_In (k : Id) (arr : list T) (m : Groups T) :
  NoDup (List.map fst m) -> In (k, arr) m -> mapGet k m = Some arr.
Proof.
  induction m as [|[k' arr'] m IH]; simpl; intros Hnd Hin; [contradiction|].
  apply NoDup_cons_iff in Hnd as [Hk' Hnd].
  destruct Hin as [E | Hin].
  - injection E as -> ->. now rewrite str_eqb_refl.
  - destruct (str_eqb k' k) eqn:E; [|now apply IH].
    apply str_eqb_eq in E. subst k'. exfalso. apply Hk'.
    apply in_map_iff. now exists (k, arr).
Qed.
End GroupByKeys.

(** X16. [groupBy] has one entry for each key that occurs, in the order of
    first occurrence; the entry of a key holds exactly the items with that
    key, in their original order, and is never empty. *)
Theorem groupBy_partition {T : Type} (f : T -> Id) (items : list T) :
  List.map fst (groupBy f items) = unique (List.map f items)
  /\ forall k arr,
       In (k, arr) (groupBy f items) ->
       arr = filter (fun x => str_eqb (f x) k) items /\ arr <> [].
Proof.
  split; [apply groupBy_keys|].
  intros k arr Hin.
  assert (Harr : arr = filter (fun x => str_eqb (f x) k) items).
  { rewrite <- mapGetOrEmpty_groupBy. unfold mapGetOrEmpty.
    rewrite (mapGet_In k arr); [reflexivity | | assumption].
    rewrite groupBy_keys. apply unique_NoDup. }
  split; [assumption|].
  assert (Hk : In k (List.map fst (groupBy f items)))
    by (apply in_map_iff; now exists (k, arr)).
  rewrite groupBy_keys in Hk. apply (proj1 (unique_In _ _)) in Hk.
  apply in_map_iff in Hk as (x & Hx & Hxin).
  intros Hnil. rewrite Harr in Hnil.
  assert (Hf : In x (filter (fun y => str_eqb (f y) k) items)).
  { apply filter_In. split; [assumption | now apply str_eqb_eq]. }
  rewrite Hnil in Hf. contradiction.
Qed.

(** ** upsertProfile, upsertProfiles *)

Section PutAllFacts.
Context {V : Type} (key : V -> Id).

Lemma getByKey_putAll_other (k : Id) (vs s : list V) :
  ~ In k (List.map key vs) ->
  getByKey key k (putAll key vs s) = getByKey key k s.
Proof.
  unfold putAll. revert s.
  induction vs as [|v vs IH]; intros s Hk; [reflexivity|].
  simpl in *. rewrite IH by tauto.
  apply getByKey_put_other. intros E. apply Hk. now left.
Qed.

Lemma getByKey_putAll_last (v : V) (pre post s : list V) :
  ~ In (key v) (List.map key post) ->
  getByKey key (key v) (putAll key (pre ++ v :: post) s) = Some v.
Proof.
  intros Hpost. unfold putAll. rewrite fold_left_app. simpl.
  fold (putAll key pre s).
  fold (putAll key post (put key v (putAll key pre s))).
  rewrite getByKey_putAll_other by assumption.
  apply getByKey_put_same.
Qed.

Lemma putAll_sorted (vs s : list V) :
  StronglySorted (fun a b => str_leb (key a) (key b) = true) s ->
  StronglySorted (fun a b => str_leb (key a) (key b) = true)
    (putAll key vs s).
Proof.
  unfold putAll. revert s.
  induction vs as [|v vs IH]; intros s Hs; [assumption|].
  simpl. apply IH. now apply put_sorted.
Qed.
End PutAllFacts.

Lemma profiles_upsertProfiles (ps : list Profile.t) (w : World) :
  profiles (upsertProfiles ps w) = putAll Profile.id ps (profiles w).
Proof. destruct ps; reflexivity. Qed.

(** X17. After [upsertProfiles], the profile stored under an id of the
    list is the last entry of the list with that id, whole (nothing of an
    older record is kept); profiles with other ids are untouched and the
    store stays in key order. *)
Theorem upsertProfiles_last_wins (pre post : list Profile.t)
    (p : Profile.t) (w : World) :
  ~ In (Profile.id p) (List.map Profile.id post) ->
  let w' := upsertProfiles (pre ++ p :: post) w in
  getByKey Profile.id (Profile.id p) (profiles w') = Some p
  /\ (forall k, ~ In k (List.map Profile.id (pre ++ p :: post)) ->
        getByKey Profile.id k (profiles w')
        = getByKey Profile.id k (profiles w))
  /\ (StronglySorted
        (fun a b => str_leb (Profile.id a) (Profile.id b) = true)
        (profiles w) ->
      StronglySorted
        (fun a b => str_leb (Profile.id a) (Profile.id b) = true)
        (profiles w'))
  /\ chats w' = chats w /\ memberships w' = memberships w
  /\ messages w' = messages w.
Proof.
  intros Hpost w'. subst w'. rewrite profiles_upsertProfiles.
  split; [now apply getByKey_putAll_last|].
  split; [intros k Hk; now apply getByKey_putAll_other|].
  split; [apply putAll_sorted|].
  destruct pre; repeat split; reflexivity.
Qed.

Lemma upsertProfiles_last_wins_witness :
  ~ In (Profile.id (Profile.mk (js "p1") (js "Samuel") (js "#10b981") 5 7))
      (List.map Profile.id [])
  /\ getByKey Profile.id (js "p1")
       (profiles
          (upsertProfiles
             [Profile.mk (js "p1") (js "Sam") (js "#0ea5e9") 1 1;
              Profile.mk (js "p1") (js "Samuel") (js "#10b981") 5 7]
             emptyWorld))
     = Some (Profile.mk (js "p1") (js "Samuel") (js "#10b981") 5 7).
Proof.
  assert (H : ~ In (Profile.id
                      (Profile.mk (js "p1") (js "Samuel") (js "#10b981") 5 7))
                (List.map Profile.id []))
    by (simpl; tauto).
  split; [exact H|].
  exact (proj1 (upsertProfiles_last_wins
                  [Profile.mk (js "p1") (js "Sam") (js "#0ea5e9") 1 1] []
                  (Profile.mk (js "p1") (js "Samuel") (js "#10b981") 5 7)
                  emptyWorld H)).
Defined.

(** ** getVisibleChatsForProfile: the title of a direct chat *)

(** X18. In the list of a profile, a direct chat whose active members are
    the profile and one other profile is titled with the stored display
    name of the other, or with "Unknown" when no profile is stored under
    that id; its member count is 2. *)
Theorem dm_title (p o : Id) (w : World) (item : ChatListItem.t) :
  In item (getVisibleChatsForProfile p w) ->
  Chat.type (ChatListItem.chat item) = dm ->
  Permutation
    (List.map ChatMembership.profileId
       (activeMembersOf (Chat.id (ChatListItem.chat item)) (memberships w)))
    [p; o] ->
  o <> p ->
  ChatListItem.title item
  = match getProfileById o w with
    | Some profile => Profile.displayName profile
    | None => js "Unknown"
    end
  /\ ChatListItem.memberCount item = 2.
Proof.
  unfold getVisibleChatsForProfile. rewrite sortBy_In, in_map_iff.
  intros (chat & <- & _). cbn [ChatListItem.chat ChatListItem.title
                               ChatListItem.memberCount].
  rewrite mapGetOrEmpty_groupBy. fold (activeMembersOf (Chat.id chat)
                                         (memberships w)).
  intros Hdm Hperm Hne. unfold titleOf. rewrite Hdm.
  assert (Hop : str_eqb o p = false) by now apply str_eqb_neq.
  apply Permutation_sym, Permutation_length_2_inv in Hperm.
  destruct (activeMembersOf (Chat.id chat) (memberships w))
    as [|m1 [|m2 [|m3 l]]];
    try (destruct Hperm as [H | H]; discriminate H).
  cbn [List.map] in Hperm. cbn [find length].
  destruct Hperm as [H | H]; injection H as H1 H2; rewrite H1.
  - rewrite str_eqb_refl. cbn [negb]. rewrite H2, Hop. cbn [negb].
    now rewrite H2.
  - rewrite Hop. cbn [negb]. now rewrite H1.
Qed.

Lemma dm_title_witness :
  exists item,
    In item (getVisibleChatsForProfile (js "Sam") dmWorld)
    /\ ChatListItem.title item = js "Alex A."
    /\ ChatListItem.memberCount item = 2.
Proof.
  remember (getVisibleChatsForProfile (js "Sam") dmWorld) as L eqn:E.
  assert (Hhd : hd_error L = hd_error (getVisibleChatsForProfile (js "Sam") dmWorld))
    by now rewrite E.
  destruct L as [|item l]; [vm_compute in E; discriminate E|].
  exists item. split; [now left|].
  assert (Hin : In item (getVisibleChatsForProfile (js "Sam") dmWorld))
    by (rewrite <- E; now left).
  cbn [hd_error] in Hhd. vm_compute in Hhd. injection Hhd as Hitem.
  assert (Hdm : Chat.type (ChatListItem.chat item) = dm)
    by (rewrite Hitem; reflexivity).
  assert (Hperm : Permutation
                    (List.map ChatMembership.profileId
                       (activeMembersOf (Chat.id (ChatListItem.chat item))
                          (memberships dmWorld)))
                    [js "Sam"; js "Alex"])
    by (rewrite Hitem; vm_compute; apply Permutation_refl).
  assert (Hne : js "Alex" <> js "Sam") by (vm_compute; discriminate).
  destruct (dm_title (js "Sam") (js "Alex") dmWorld item Hin Hdm Hperm Hne)
    as [Ht Hc].
  split; [rewrite Ht; vm_compute; reflexivity | exact Hc].
Defined.

(** ** getProfiles: order *)

Section ConsistentSort.
Context {A : Type} (cmp : A -> A -> Z).
Hypothesis cmp_total : forall a b, 0 < cmp a b -> cmp b a <= 0.
Hypothesis cmp_trans :
  forall a b c, cmp a b <= 0 -> cmp b c <= 0 -> cmp a c <= 0.

Lemma insertBy_sorted (x : A) (l : list A) :
  StronglySorted (fun a b => cmp a b <= 0) l ->
  StronglySorted (fun a b => cmp a b <= 0) (insertBy cmp x l).
Proof.
  induction l as [|y l IH]; simpl; intros Hs.
  - repeat constructor.
  - apply StronglySorted_inv in Hs as [Hl Hy].
    destruct (cmp x y <=? 0) eqn:E.
    + apply Z.leb_le in E. constructor; [now constructor|].
      constructor; [assumption|].
      rewrite Forall_forall in *. intros z Hz.
      apply (cmp_trans x y z); auto.
    + apply Z.leb_gt in E. constructor; [now apply IH|].
      rewrite Forall_forall in *. intros z Hz.
      apply (Permutation_in _ (insertBy_perm _ x l)) in Hz.
      destruct Hz as [<- | Hz]; [apply cmp_total; lia | now apply Hy].
Qed.

Lemma sortBy_sorted (l : list A) :
  StronglySorted (fun a b => cmp a b <= 0) (sortBy cmp l).
Proof.
  induction l as [|x l IH]; simpl; [constructor|].
  now apply insertBy_sorted.
Qed.
End ConsistentSort.

Lemma codeUnitCompare_le (a b : JsString) :
  codeUnitCompare a b <= 0 <-> str_leb a b = true.
Proof.
  unfold codeUnitCompare, str_leb.
  destruct (str_compare a b); split; intros H; try lia; try reflexivity;
    discriminate.
Qed.

(** X19. [getProfiles] returns the stored profiles, each once; for a
    collation that is total and transitive the result is in ascending
    order of [displayName]. *)
Theorem getProfiles_sorted (localeCompare : JsString -> JsString -> Z)
    (w : World) :
  (forall a b, 0 < localeCompare a b -> localeCompare b a <= 0) ->
  (forall a b c, localeCompare a b <= 0 -> localeCompare b c <= 0 ->
                 localeCompare a c <= 0) ->
  Permutation (getProfiles localeCompare w) (profiles w)
  /\ StronglySorted
       (fun a b =>
          localeCompare (Profile.displayName a) (Profile.displayName b) <= 0)
       (getProfiles localeCompare w).
Proof.
  intros Htot Htrans. unfold getProfiles. split; [apply sortBy_perm|].
  apply (sortBy_sorted
           (fun a b =>
              localeCompare (Profile.displayName a) (Profile.displayName b))).
  - intros a b. apply Htot.
  - intros a b c. apply Htrans.
Qed.

Lemma getProfiles_sorted_witness :
  (forall a b, 0 < codeUnitCompare a b -> codeUnitCompare b a <= 0)
  /\ (forall a b c, codeUnitCompare a b <= 0 -> codeUnitCompare b c <= 0 ->
                    codeUnitCompare a c <= 0)
  /\ StronglySorted
       (fun a b =>
          codeUnitCompare (Profile.displayName a) (Profile.displayName b)
          <= 0)
       (getProfiles codeUnitCompare dmWorld).
Proof.
  assert (Htot : forall a b,
             0 < codeUnitCompare a b -> codeUnitCompare b a <= 0).
  { intros a b H. apply codeUnitCompare_le, str_leb_total.
    destruct (str_leb a b) eqn:E; [|reflexivity].
    apply codeUnitCompare_le in E. lia. }
  assert (Htrans : forall a b c,
             codeUnitCompare a b <= 0 -> codeUnitCompare b c <= 0 ->
             codeUnitCompare a c <= 0).
  { intros a b c H1 H2. apply codeUnitCompare_le.
    apply (str_leb_trans a b c); now apply codeUnitCompare_le. }
  split; [exact Htot|]. split; [exact Htrans|].
  exact (proj2 (getProfiles_sorted codeUnitCompare dmWorld Htot Htrans)).
Defined.

(** ** SyncBus *)

Section SyncBusFacts.
Context {Event : Type}.
Implicit Types (bus : SyncBus.t) (h : nat).

Lemma setAdd_In h h' (s : list nat) :
  In h' (SyncBus.setAdd h s) <-> h' = h \/ In h' s.
Proof.
  unfold SyncBus.setAdd. destruct (existsb (Nat.eqb h) s) eqn:E.
  - split; [auto|]. intros [-> | H]; [|assumption].
    apply existsb_exists in E as (x & Hx & Hxh).
    apply Nat.eqb_eq in Hxh. now subst.
  - rewrite in_app_iff. simpl. intuition.
Qed.

Lemma setAdd_NoDup h (s : list nat) : NoDup s -> NoDup (SyncBus.setAdd h s).
Proof.
  intros Hnd. unfold SyncBus.setAdd.
  destruct (existsb (Nat.eqb h) s) eqn:E; [assumption|].
  apply NoDup_app; [assumption | repeat constructor; simpl; tauto|].
  intros x Hx [Hh | []]. subst x.
  assert (Ex : existsb (Nat.eqb h) s = true)
    by (apply existsb_exists; exists h; split;
        [assumption | apply Nat.eqb_refl]).
  congruence.
Qed.

Lemma setDelete_In h h' (s : list nat) :
  In h' (SyncBus.setDelete h s) <-> h' <> h /\ In h' s.
Proof.
  unfold SyncBus.setDelete. rewrite filter_In, negb_true_iff, Nat.eqb_neq.
  intuition.
Qed.

Lemma run_snoc (ops : list SyncBus.Op) (op : SyncBus.Op) bus :
  SyncBus.run (ops ++ [op]) bus = SyncBus.apply (SyncBus.run ops bus) op.
Proof. unfold SyncBus.run. now rewrite fold_left_app. Qed.

Lemma subscribedAfter_snoc h (ops : list SyncBus.Op) (op : SyncBus.Op) :
  SyncBus.subscribedAfter h (ops ++ [op])
  = match op with
    | SyncBus.Subscribe h' =>
        if Nat.eqb h' h then true else SyncBus.subscribedAfter h ops
    | SyncBus.Unsubscribe h' =>
        if Nat.eqb h' h then false else SyncBus.subscribedAfter h ops
    end.
Proof. unfold SyncBus.subscribedAfter. now rewrite fold_left_app. Qed.

Lemma run_handlers (ops : list SyncBus.Op) (c : bool) :
  NoDup (SyncBus.handlers (SyncBus.run ops (SyncBus.create c)))
  /\ forall h,
       In h (SyncBus.handlers (SyncBus.run ops (SyncBus.create c)))
       <-> SyncBus.subscribedAfter h ops = true.
Proof.
  induction ops as [|op ops [IHnd IH]] using rev_ind.
  - split; [constructor|]. intros h. simpl. split; [tauto | discriminate].
  - rewrite run_snoc. split.
    + destruct op as [h' | h']; simpl;
        [now apply setAdd_NoDup | now apply NoDup_filter].
    + intros h. rewrite subscribedAfter_snoc.
      destruct op as [h' | h']; simpl.
      * rewrite setAdd_In, IH.
        destruct (Nat.eqb_spec h' h) as [-> | Hne]; [tauto|].
        split; [intros [-> | H]; [contradiction | assumption] | auto].
      * rewrite setDelete_In, IH.
        destruct (Nat.eqb_spec h' h) as [-> | Hne].
        -- split; [tauto | discriminate].
        -- split; [tauto | intros H; split; [congruence | assumption]].
Qed.

Lemma calls_publish (stringify : Event -> JsString) (ok : bool)
    (event : Event) bus (fx : SyncBus.Effects) :
  SyncBus.calls (SyncBus.publish stringify ok event bus fx)
  = SyncBus.calls fx
    ++ List.map (fun handler => (handler, event)) (SyncBus.handlers bus).
Proof.
  unfold SyncBus.publish, SyncBus.emit.
  destruct (SyncBus.channel bus), ok; reflexivity.
Qed.
End SyncBusFacts.

(** X20. On a bus that was created and then used through [subscribe] and
    the functions it returned, [publish] calls exactly the handlers whose
    last such use was a [subscribe], each once with the published event,
    whether or not the window has a broadcast channel and whether or not
    writing to [localStorage] fails. Subscriptions are not counted: one
    call of the returned function unsubscribes a handler that subscribed
    several times. *)
Theorem publish_calls_subscribed {Event : Type}
    (stringify : Event -> JsString) (ops : list SyncBus.Op)
    (hasChannel setItemOk : bool) (event : Event)
    (fx : SyncBus.Effects) :
  let bus := SyncBus.run ops (SyncBus.create hasChannel) in
  exists hs : list nat,
    SyncBus.calls (SyncBus.publish stringify setItemOk event bus fx)
    = SyncBus.calls fx ++ List.map (fun h => (h, event)) hs
    /\ NoDup hs
    /\ (forall h, In h hs <-> SyncBus.subscribedAfter h ops = true)
    /\ (forall h,
          ~ In h (SyncBus.handlers
                    (SyncBus.unsubscribe h
                       (SyncBus.subscribe h (SyncBus.subscribe h bus))))).
Proof.
  intros bus. exists (SyncBus.handlers bus).
  destruct (run_handlers ops hasChannel) as [Hnd Hin].
  split; [apply calls_publish|]. split; [exact Hnd|]. split; [exact Hin|].
  intros h. simpl. rewrite setDelete_In. tauto.
Qed.


(** ** ensureProfile: the display name *)



(** ** Attachments always have their blob *)










(** ** A direct chat with a third member *)

Lemma sortStrings_In (x : Id) (l : list Id) :
  In x (sortStrings l) <-> In x l.
Proof. unfold sortStrings. apply sortBy_In. Qed.

Lemma isDmFor_access (a b q : Id) (w : World) (chat : Chat.t) :
  isDmFor a b (memberships w) chat = true ->
  canProfileAccessChat q (Chat.id chat) w = true -> q = a \/ q = b.
Proof.
  unfold isDmFor. destruct (Chat.type chat); [|discriminate].
  intros Hdm Hq. apply dmPairMatches_true in Hdm.
  apply canProfileAccessChat_activeMembersOf in Hq.
  apply (proj2 (sortStrings_In _ _)) in Hq.
  rewrite Hdm in Hq. apply (proj1 (sortStrings_In _ _)) in Hq.
  simpl in Hq. intuition.
Qed.

(** X24. [addGroupMembers] also works on a direct chat. Once it has added
    a third profile to a chat, [findExistingDm] no longer returns that
    chat for a pair without this profile, so [createDm] answers with
    another chat for the pair. *)
Theorem findExistingDm_skips_extended_dm (env env2 : Env)
    (chatId actor a b c : Id) (profileIds : list Id) (w : World) :
  freshUuids env (2 * length (unique profileIds)) w = true ->
  In c profileIds -> c <> a -> c <> b ->
  let w' := addGroupMembers env chatId actor profileIds w in
  (forall chat, findExistingDm a b w' = Some chat -> Chat.id chat <> chatId)
  /\ (freshUuids env2 3 w' = true ->
      Chat.id (fst (createDm env2 a b w')) <> chatId).
Proof.
  intros Hfresh Hc Hca Hcb w'.
  assert (Hacc : canProfileAccessChat c chatId w' = true).
  { subst w'. rewrite addGroupMembers_access by assumption.
    rewrite str_eqb_refl. cbn [andb].
    rewrite (proj2 (str_mem_In c profileIds) Hc). apply orb_true_r. }
  assert (Hfound : forall chat,
            findExistingDm a b w' = Some chat -> Chat.id chat <> chatId).
  { intros chat Hchat Hid. rewrite findExistingDm_find in Hchat.
    apply find_some in Hchat as [_ Hdm]. rewrite <- Hid in Hacc.
    destruct (isDmFor_access a b c w' chat Hdm Hacc); contradiction. }
  split; [exact Hfound|].
  intros Hfresh2. unfold createDm.
  destruct (findExistingDm a b w') as [chat|] eqn:E.
  - now apply Hfound.
  - cbn [fst Chat.id].
    apply canProfileAccessChat_iff in Hacc as (m & Hm & Hmc & _).
    rewrite <- Hmc. intros Heq.
    now apply (fresh_chat_unreferenced env2 3 w' 0 m Hfresh2
                 ltac:(lia) Hm).
Qed.

Lemma findExistingDm_skips_extended_dm_witness :
  freshUuids envA (2 * length (unique [js "Casey"])) dmWorld = true
  /\ In (js "Casey") [js "Casey"]
  /\ js "Casey" <> js "Sam"
  /\ js "Casey" <> js "Alex"
  /\ forall chat,
       findExistingDm (js "Sam") (js "Alex")
         (addGroupMembers envA (createId "chat" (uuid envB 0)) (js "Sam")
            [js "Casey"] dmWorld)
       = Some chat ->
       Chat.id chat <> createId "chat" (uuid envB 0).
Proof.
  assert (H1 : freshUuids envA (2 * length (unique [js "Casey"])) dmWorld
               = true) by (vm_compute; reflexivity).
  assert (H2 : In (js "Casey") [js "Casey"]) by now left.
  assert (H3 : js "Casey" <> js "Sam") by (vm_compute; discriminate).
  assert (H4 : js "Casey" <> js "Alex") by (vm_compute; discriminate).
  repeat (split; [assumption|]).
  exact (proj1 (findExistingDm_skips_extended_dm envA envB
                  (createId "chat" (uuid envB 0)) (js "Sam")
                  (js "Sam") (js "Alex") (js "Casey") [js "Casey"]
                  dmWorld H1 H2 H3 H4)).
Defined.
